(** * Medusa sound-effects synthesizer: the sample engine, embedded and verified

    A shallow embedding of the audio-rate code of the Medusa firmware
    (the RP2040 sketch): the waveform primitives, the bit crusher, the
    one-pole lowpass filter, the echo line, the recorder, the sequencer step
    logic, the mutation engine and the loop-pattern gate.

    Conventions.
    - Machine integers are [Z] with the conversion of the C++ type written
      out: [u8], [u16], [u32] for the unsigned types, [s16], [s32] for the
      two's-complement signed ones.  [unsigned long] is 32 bits wide on the
      target.
    - [float] is IEEE-754 binary32, taken from the Standard Library's
      [SpecFloat] at precision 24 and maximal exponent 128.
    - Arrays that are updated in place are lists with stdpp's lookup and
      insert, indexed through [Z.to_nat]. *)

From Stdlib Require Import ZArith Lia Bool SpecFloat.
From stdpp Require Import base list.

Local Open Scope Z_scope.

(** ** Machine integers *)

Module CInt.

Definition u8 (x : Z) : Z := x mod 256.
Definition u16 (x : Z) : Z := x mod 65536.
Definition u32 (x : Z) : Z := x mod 4294967296.
Definition s8 (x : Z) : Z := (x + 128) mod 256 - 128.
Definition s16 (x : Z) : Z := (x + 32768) mod 65536 - 32768.
Definition s32 (x : Z) : Z := (x + 2147483648) mod 4294967296 - 2147483648.

Definition is_u8 (x : Z) : Prop := 0 <= x <= 255.
Definition is_u16 (x : Z) : Prop := 0 <= x <= 65535.
Definition is_u32 (x : Z) : Prop := 0 <= x <= 4294967295.
Definition is_s16 (x : Z) : Prop := -32768 <= x <= 32767.
Definition is_s32 (x : Z) : Prop := -2147483648 <= x <= 2147483647.

(** [x << n] on [int]: the product wrapped to 32 bits, so [1 << 31] is
    [INT_MIN].  A shift by the width or more is undefined in C++; the model
    gives it the value [0] of the target's register shift. *)
Definition shl (x n : Z) : Z := s32 (Z.shiftl x n).

End CInt.

Import CInt.

Arguments u8 : simpl never.
Arguments u16 : simpl never.
Arguments u32 : simpl never.
Arguments s16 : simpl never.
Arguments s32 : simpl never.
Arguments shl : simpl never.

(** ** Waveform core (AUDIO GENERATION) *)

(** [inline int16_t generateSawtooth(uint32_t ph)]:
    [return (int16_t)(ph >> 16) - 16384;] *)
Definition generateSawtooth (ph : Z) : Z :=
  s16 (s16 (Z.shiftr ph 16) - 16384).

(** [inline int16_t generateSquare(uint32_t ph)]:
    [return (ph & 0x80000000) ? 16384 : -16384;] *)
Definition generateSquare (ph : Z) : Z :=
  if Z.land ph 2147483648 =? 0 then -16384 else 16384.

(** [inline int16_t fastSin(uint32_t ph)]: the index is the top byte. *)
Definition fastSin (ph : Z) : Z :=
  let index := u8 (Z.shiftr ph 24) in
  if index <? 128 then s16 (index * 512 - 32768)
  else s16 (32768 - (index - 128) * 512).

(** [inline int16_t generateTriangle(uint32_t ph)]: four quarters selected
    by the top two bits; the second and third share one expression, the first
    and fourth the other. *)
Definition generateTriangle (ph : Z) : Z :=
  let quarter := Z.shiftr ph 30 in
  let x := s16 (Z.land (Z.shiftr ph 15) 65535) in
  if quarter =? 0 then s16 (x - 16384)
  else if quarter =? 1 then s16 (16384 - x)
  else if quarter =? 2 then s16 (16384 - x)
  else s16 (x - 16384).

(** [inline int16_t applyBitCrusher(int16_t sample, uint8_t bits)]:
    [if (bits >= 8) return sample; int16_t step = 32768 >> bits;
     return (sample / step) * step;]
    The division is C's, truncating towards zero ([Z.quot]). *)
Definition applyBitCrusher (sample bits : Z) : Z :=
  if 8 <=? bits then sample
  else
    let step := s16 (Z.shiftr 32768 bits) in
    s16 (Z.quot sample step * step).


(** ** Single-precision floating point

    [float] of the target is IEEE-754 binary32: [SpecFloat]'s operations at
    precision 24 and maximal exponent 128, rounding to nearest even. *)

Module F32.

Definition prec : Z := 24.
Definition emax : Z := 128.

Definition float : Type := spec_float.

(** Conversion of an integer to [float] (rounds above 2^24). *)
Definition of_int (z : Z) : float := binary_normalize prec emax z 0 false.

Definition add : float -> float -> float := SFadd prec emax.
Definition sub : float -> float -> float := SFsub prec emax.
Definition mul : float -> float -> float := SFmul prec emax.
Definition div : float -> float -> float := SFdiv prec emax.
Definition ltb : float -> float -> bool := SFltb.
Definition leb : float -> float -> bool := SFleb.
Definition gtb (x y : float) : bool := SFltb y x.

(** A decimal literal [n/d] with [d] a power of ten and both below 2^24:
    the nearest [float], as the compiler computes it. *)
Definition lit (n d : Z) : float := div (of_int n) (of_int d).

Definition zero : float := S754_zero false.
Definition one : float := of_int 1.
Definition half : float := lit 5 10.

(** Conversion of a [float] to an integer type: the fraction is dropped
    (truncation towards zero).  Infinities and NaN, for which the conversion
    is undefined, are given 0. *)
Definition to_int (x : float) : Z :=
  match x with
  | S754_finite s m e =>
      let mag := match e with
                 | Z0 => Zpos m
                 | Zpos _ => Zpos m * 2 ^ e
                 | Zneg _ => Zpos m / 2 ^ (- e)
                 end in
      if s then - mag else mag
  | _ => 0
  end.

(** [fmod(x, 1.0f)]: the fractional part, with the sign of [x]; exact. *)
Definition fmod1 (x : float) : float :=
  match x with
  | S754_finite s m e =>
      match e with
      | Zneg _ =>
          let r := Zpos m mod 2 ^ (- e) in
          binary_normalize prec emax (if s then - r else r) e s
      | _ => S754_zero s
      end
  | S754_zero s => S754_zero s
  | _ => S754_nan
  end.

(** The value of a finite [float] as a fraction [(numerator, denominator)]
    with a power of two as denominator. *)
Definition value (x : float) : Z * Z :=
  match x with
  | S754_finite s m e =>
      let n := if s then Zneg m else Zpos m in
      match e with
      | Zneg _ => (n, 2 ^ (- e))
      | _ => (n * 2 ^ e, 1)
      end
  | _ => (0, 1)
  end.

Definition is_finite (x : float) : bool :=
  match x with
  | S754_finite _ _ _ | S754_zero _ => true
  | _ => false
  end.

(** The same [float]: the same sign, mantissa and exponent. *)
Definition same (x y : float) : bool :=
  match x, y with
  | S754_zero s1, S754_zero s2 => Bool.eqb s1 s2
  | S754_infinity s1, S754_infinity s2 => Bool.eqb s1 s2
  | S754_nan, S754_nan => true
  | S754_finite s1 m1 e1, S754_finite s2 m2 e2 =>
      Bool.eqb s1 s2 && (Zpos m1 =? Zpos m2) && (e1 =? e2)
  | _, _ => false
  end.

(** [y] is finite and exactly twice the finite [x], as fractions. *)
Definition doubles (x y : float) : bool :=
  is_finite x && is_finite y
  && (fst (value y) * snd (value x) =? 2 * fst (value x) * snd (value y)).

End F32.

Arguments F32.of_int : simpl never.
Arguments F32.add : simpl never.
Arguments F32.sub : simpl never.
Arguments F32.mul : simpl never.
Arguments F32.div : simpl never.
Arguments F32.lit : simpl never.
Arguments F32.to_int : simpl never.
Arguments F32.fmod1 : simpl never.

(** ** Musical scales and the mutation engine *)

(** Frequency ratios of the scales; each table ends with the octave. *)
Definition minorPentatonic : list F32.float :=
  [F32.lit 10 10; F32.lit 1189 1000; F32.lit 1335 1000; F32.lit 1498 1000;
   F32.lit 1782 1000; F32.lit 20 10].
Definition minorPentatonicSize : Z := 6.

Definition majorScale : list F32.float :=
  [F32.lit 10 10; F32.lit 1122 1000; F32.lit 1260 1000; F32.lit 1335 1000;
   F32.lit 1498 1000; F32.lit 1682 1000; F32.lit 1888 1000; F32.lit 20 10].
Definition majorScaleSize : Z := 8.

Definition bluesScale : list F32.float :=
  [F32.lit 10 10; F32.lit 1189 1000; F32.lit 1260 1000; F32.lit 1335 1000;
   F32.lit 1498 1000; F32.lit 1782 1000; F32.lit 20 10].
Definition bluesScaleSize : Z := 7.

Definition minorScale : list F32.float :=
  [F32.lit 10 10; F32.lit 1122 1000; F32.lit 1189 1000; F32.lit 1335 1000;
   F32.lit 1498 1000; F32.lit 1587 1000; F32.lit 1782 1000; F32.lit 20 10].
Definition minorScaleSize : Z := 8.

Definition chromaticScale : list F32.float :=
  [F32.lit 10 10; F32.lit 1059 1000; F32.lit 1122 1000; F32.lit 1189 1000;
   F32.lit 1260 1000; F32.lit 1335 1000; F32.lit 1414 1000; F32.lit 1498 1000;
   F32.lit 1587 1000; F32.lit 1682 1000; F32.lit 1782 1000; F32.lit 1888 1000;
   F32.lit 20 10].
Definition chromaticScaleSize : Z := 13.

(** [enum MutationScale] *)
Definition SCALE_MINOR_PENT : Z := 0.
Definition SCALE_MAJOR : Z := 1.
Definition SCALE_BLUES : Z := 2.
Definition SCALE_MINOR : Z := 3.
Definition SCALE_CHROMATIC : Z := 4.
Definition SCALE_COUNT : Z := 5.

(** [enum MutationMode] *)
Definition MUTATE_OFF : Z := 0.
Definition MUTATE_AMOUNT : Z := 1.
Definition MUTATE_RHYTHM : Z := 2.
Definition MUTATE_CUTOFF : Z := 3.

(** [enum InstrumentType] *)
Definition INST_DUB_SIREN : Z := 0.
Definition INST_RAY_GUN : Z := 1.
Definition INST_LEAD_SYNTH : Z := 2.
Definition INST_DISCO : Z := 3.

(** Reading [a[i]] of a table of floats. *)
Definition table_get (a : list F32.float) (i : Z) : F32.float :=
  default S754_nan (a !! Z.to_nat i).

(** The [switch (mutate.currentScale)] that several functions repeat: the
    table and its size, minor pentatonic by default. *)
Definition scaleTable (currentScale : Z) : list F32.float :=
  if currentScale =? SCALE_MINOR_PENT then minorPentatonic
  else if currentScale =? SCALE_MAJOR then majorScale
  else if currentScale =? SCALE_BLUES then bluesScale
  else if currentScale =? SCALE_MINOR then minorScale
  else if currentScale =? SCALE_CHROMATIC then chromaticScale
  else minorPentatonic.

Definition scaleSizeOf (currentScale : Z) : Z :=
  if currentScale =? SCALE_MINOR_PENT then minorPentatonicSize
  else if currentScale =? SCALE_MAJOR then majorScaleSize
  else if currentScale =? SCALE_BLUES then bluesScaleSize
  else if currentScale =? SCALE_MINOR then minorScaleSize
  else if currentScale =? SCALE_CHROMATIC then chromaticScaleSize
  else minorPentatonicSize.

(** [struct MutationState] *)
Module Mutate.
Record t := {
  mode : Z;
  pitchStep : Z;
  speedStep : Z;
  mutationProbability : F32.float;
  lastMutateTime : Z;
  currentScale : Z;
  lockedProbabilityRaw : Z;
  lockedScaleRaw : Z;
  lockedCutoffRaw : Z;
  probabilityLocked : bool;
  scaleLocked : bool;
  cutoffLocked : bool;
  fullyDisabled : bool
}.

Definition with_pitchStep (v : Z) (m : t) : t :=
  {| mode := mode m; pitchStep := v; speedStep := speedStep m;
     mutationProbability := mutationProbability m;
     lastMutateTime := lastMutateTime m; currentScale := currentScale m;
     lockedProbabilityRaw := lockedProbabilityRaw m;
     lockedScaleRaw := lockedScaleRaw m; lockedCutoffRaw := lockedCutoffRaw m;
     probabilityLocked := probabilityLocked m; scaleLocked := scaleLocked m;
     cutoffLocked := cutoffLocked m; fullyDisabled := fullyDisabled m |}.

Definition with_speedStep (v : Z) (m : t) : t :=
  {| mode := mode m; pitchStep := pitchStep m; speedStep := v;
     mutationProbability := mutationProbability m;
     lastMutateTime := lastMutateTime m; currentScale := currentScale m;
     lockedProbabilityRaw := lockedProbabilityRaw m;
     lockedScaleRaw := lockedScaleRaw m; lockedCutoffRaw := lockedCutoffRaw m;
     probabilityLocked := probabilityLocked m; scaleLocked := scaleLocked m;
     cutoffLocked := cutoffLocked m; fullyDisabled := fullyDisabled m |}.

Definition with_lastMutateTime (v : Z) (m : t) : t :=
  {| mode := mode m; pitchStep := pitchStep m; speedStep := speedStep m;
     mutationProbability := mutationProbability m;
     lastMutateTime := v; currentScale := currentScale m;
     lockedProbabilityRaw := lockedProbabilityRaw m;
     lockedScaleRaw := lockedScaleRaw m; lockedCutoffRaw := lockedCutoffRaw m;
     probabilityLocked := probabilityLocked m; scaleLocked := scaleLocked m;
     cutoffLocked := cutoffLocked m; fullyDisabled := fullyDisabled m |}.

(** The initial value of the global [mutate]. *)
Definition init : t :=
  {| mode := 0; pitchStep := 0; speedStep := 2;
     mutationProbability := F32.lit 5 10; lastMutateTime := 0;
     currentScale := 0; lockedProbabilityRaw := 2048;
     lockedScaleRaw := 2048; lockedCutoffRaw := 2048;
     probabilityLocked := false; scaleLocked := false;
     cutoffLocked := false; fullyDisabled := false |}.
End Mutate.

(** The body of [quantizePitchToScale] below its [switch]: the octave and
    the note of the step, the octave shift from 110 Hz (A2) by [1 << octave],
    and the interval of the scale. *)
Definition scaleNoteFrequency (scale : list F32.float) (scaleSize : Z)
    (scaleStep : Z) : F32.float :=
  let octave := u8 (scaleStep / scaleSize) in
  let noteInScale := u8 (scaleStep mod scaleSize) in
  let rootFreq := F32.of_int 110 in
  let octaveFreq := F32.mul rootFreq (F32.of_int (shl 1 octave)) in
  F32.mul octaveFreq (table_get scale noteInScale).

(** [float quantizePitchToScale(float baseFreq, uint8_t scaleStep)]: the
    scale is selected by [mutate.currentScale]; [baseFreq] is not used by the
    body. *)
Definition quantizePitchToScale (mutate : Mutate.t)
    (baseFreq : F32.float) (scaleStep : Z) : F32.float :=
  scaleNoteFrequency (scaleTable (Mutate.currentScale mutate))
                     (scaleSizeOf (Mutate.currentScale mutate)) scaleStep.

(** [struct SirenParams]: the fields that the filter, the echo line and the
    mutation engine read or write. *)
Module Siren.
Record t := {
  instrumentType : Z;
  frequency : F32.float;
  baseFreq : F32.float;
  lfoRate : F32.float;
  lfoDepth : F32.float;
  filterCutoff : Z;
  echoTime : Z;
  echoFeedback : F32.float;
  delayIndex : Z;
  resonance : F32.float;
  stepCount : Z;
  noteFrequencies : list F32.float;
  stepInterval : Z
}.

Definition with_freq (v : F32.float) (s : t) : t :=
  {| instrumentType := instrumentType s; frequency := v; baseFreq := v;
     lfoRate := lfoRate s; lfoDepth := lfoDepth s;
     filterCutoff := filterCutoff s; echoTime := echoTime s;
     echoFeedback := echoFeedback s; delayIndex := delayIndex s;
     resonance := resonance s; stepCount := stepCount s;
     noteFrequencies := noteFrequencies s; stepInterval := stepInterval s |}.

Definition with_lfoRate (v : F32.float) (s : t) : t :=
  {| instrumentType := instrumentType s; frequency := frequency s;
     baseFreq := baseFreq s; lfoRate := v; lfoDepth := lfoDepth s;
     filterCutoff := filterCutoff s; echoTime := echoTime s;
     echoFeedback := echoFeedback s; delayIndex := delayIndex s;
     resonance := resonance s; stepCount := stepCount s;
     noteFrequencies := noteFrequencies s; stepInterval := stepInterval s |}.

Definition with_lfoDepth (v : F32.float) (s : t) : t :=
  {| instrumentType := instrumentType s; frequency := frequency s;
     baseFreq := baseFreq s; lfoRate := lfoRate s; lfoDepth := v;
     filterCutoff := filterCutoff s; echoTime := echoTime s;
     echoFeedback := echoFeedback s; delayIndex := delayIndex s;
     resonance := resonance s; stepCount := stepCount s;
     noteFrequencies := noteFrequencies s; stepInterval := stepInterval s |}.

Definition with_resonance (v : F32.float) (s : t) : t :=
  {| instrumentType := instrumentType s; frequency := frequency s;
     baseFreq := baseFreq s; lfoRate := lfoRate s; lfoDepth := lfoDepth s;
     filterCutoff := filterCutoff s; echoTime := echoTime s;
     echoFeedback := echoFeedback s; delayIndex := delayIndex s;
     resonance := v; stepCount := stepCount s;
     noteFrequencies := noteFrequencies s; stepInterval := stepInterval s |}.

Definition with_noteFrequencies (v : list F32.float) (s : t) : t :=
  {| instrumentType := instrumentType s; frequency := frequency s;
     baseFreq := baseFreq s; lfoRate := lfoRate s; lfoDepth := lfoDepth s;
     filterCutoff := filterCutoff s; echoTime := echoTime s;
     echoFeedback := echoFeedback s; delayIndex := delayIndex s;
     resonance := resonance s; stepCount := stepCount s;
     noteFrequencies := v; stepInterval := stepInterval s |}.

Definition with_stepInterval (v : Z) (s : t) : t :=
  {| instrumentType := instrumentType s; frequency := frequency s;
     baseFreq := baseFreq s; lfoRate := lfoRate s; lfoDepth := lfoDepth s;
     filterCutoff := filterCutoff s; echoTime := echoTime s;
     echoFeedback := echoFeedback s; delayIndex := delayIndex s;
     resonance := resonance s; stepCount := stepCount s;
     noteFrequencies := noteFrequencies s; stepInterval := v |}.

Definition with_delay (index time : Z) (s : t) : t :=
  {| instrumentType := instrumentType s; frequency := frequency s;
     baseFreq := baseFreq s; lfoRate := lfoRate s; lfoDepth := lfoDepth s;
     filterCutoff := filterCutoff s; echoTime := time;
     echoFeedback := echoFeedback s; delayIndex := index;
     resonance := resonance s; stepCount := stepCount s;
     noteFrequencies := noteFrequencies s; stepInterval := stepInterval s |}.

Definition with_echoFeedback (v : F32.float) (s : t) : t :=
  {| instrumentType := instrumentType s; frequency := frequency s;
     baseFreq := baseFreq s; lfoRate := lfoRate s; lfoDepth := lfoDepth s;
     filterCutoff := filterCutoff s; echoTime := echoTime s;
     echoFeedback := v; delayIndex := delayIndex s;
     resonance := resonance s; stepCount := stepCount s;
     noteFrequencies := noteFrequencies s; stepInterval := stepInterval s |}.

(** The initial value of the global [siren]. *)
Definition init : t :=
  {| instrumentType := 0; frequency := F32.of_int 440;
     baseFreq := F32.of_int 440; lfoRate := F32.lit 5 10;
     lfoDepth := F32.lit 8 10; filterCutoff := 1200; echoTime := 5512;
     echoFeedback := F32.lit 65 100; delayIndex := 0;
     resonance := F32.lit 8 10; stepCount := 8;
     noteFrequencies :=
       map F32.of_int [440; 554; 659; 880; 659; 554; 440; 330;
                       0; 0; 0; 0; 0; 0; 0; 0];
     stepInterval := 250 |}.
End Siren.

(** *** The state the mutation engine runs in

    The globals [mutate], [siren] and [octaveShift], the function-local
    static [lastActiveMutateMode] of [triggerMutation], the millisecond clock
    behind [millis()] and the generator behind [random()]: a stream of raw
    draws and the number of draws consumed. *)
Record Machine := {
  mutate : Mutate.t;
  siren : Siren.t;
  octaveShift : Z;
  lastActiveMutateMode : Z;
  clock : Z;
  entropy : nat -> Z;
  drawn : nat
}.

Definition with_mutate (f : Mutate.t -> Mutate.t) (w : Machine) : Machine :=
  {| mutate := f (mutate w); siren := siren w; octaveShift := octaveShift w;
     lastActiveMutateMode := lastActiveMutateMode w; clock := clock w;
     entropy := entropy w; drawn := drawn w |}.

Definition with_siren (f : Siren.t -> Siren.t) (w : Machine) : Machine :=
  {| mutate := mutate w; siren := f (siren w); octaveShift := octaveShift w;
     lastActiveMutateMode := lastActiveMutateMode w; clock := clock w;
     entropy := entropy w; drawn := drawn w |}.

Definition with_lastActiveMutateMode (v : Z) (w : Machine) : Machine :=
  {| mutate := mutate w; siren := siren w; octaveShift := octaveShift w;
     lastActiveMutateMode := v; clock := clock w;
     entropy := entropy w; drawn := drawn w |}.

Definition with_drawn (v : nat) (w : Machine) : Machine :=
  {| mutate := mutate w; siren := siren w; octaveShift := octaveShift w;
     lastActiveMutateMode := lastActiveMutateMode w; clock := clock w;
     entropy := entropy w; drawn := v |}.

Definition with_clock (v : Z) (w : Machine) : Machine :=
  {| mutate := mutate w; siren := siren w; octaveShift := octaveShift w;
     lastActiveMutateMode := lastActiveMutateMode w; clock := v;
     entropy := entropy w; drawn := drawn w |}.

(** A state monad over [Machine] for the [void] functions of the engine. *)
Definition M (A : Type) : Type := Machine -> A * Machine.

#[global] Instance M_ret : MRet M := fun A (a : A) w => (a, w).
#[global] Instance M_bind : MBind M :=
  fun A B (k : A -> M B) (m : M A) w => let '(a, w') := m w in k a w'.

Definition gets {A} (f : Machine -> A) : M A := fun w => (f w, w).
Definition modify (f : Machine -> Machine) : M unit := fun w => (tt, f w).
Definition exec {A} (m : M A) (w : Machine) : Machine := snd (m w).

(** [millis()] *)
Definition millis : M Z := gets (fun w => u32 (clock w)).

(** [random(howbig)] of the Arduino core: [0] for [howbig == 0], else the
    next raw draw reduced modulo [howbig]. *)
Definition random (howbig : Z) : M Z :=
  if howbig =? 0 then mret 0
  else fun w => (entropy w (drawn w) mod howbig, with_drawn (S (drawn w)) w).

(** Two machines that differ at most in [siren]. *)
Definition siren_only (w w' : Machine) : Prop :=
  mutate w' = mutate w /\ octaveShift w' = octaveShift w /\
  lastActiveMutateMode w' = lastActiveMutateMode w /\ clock w' = clock w /\
  entropy w' = entropy w /\ drawn w' = drawn w.

(** The two clamps [if (f < lo) f = lo; if (f > hi) f = hi;] *)
Definition clampFreq (lo hi f : F32.float) : F32.float :=
  let f := if F32.ltb f lo then lo else f in
  if F32.gtb f hi then hi else f.

(** [void generateMelody()]: one note per step of the lead sequence, picked
    from a fixed pentatonic table by the clock. *)
Definition melodyScale : list F32.float :=
  [F32.lit 10 10; F32.lit 12 10; F32.lit 133 100; F32.lit 15 10;
   F32.lit 178 100; F32.lit 20 10].

Definition generateMelody : M unit :=
  rootFreq ← gets (fun w => Siren.baseFreq (siren w));
  stepCount ← gets (fun w => Siren.stepCount (siren w));
  foldr
    (fun i rest =>
       now ← millis;
       let noteIndex := u8 (u32 (now + i * 37) mod 6) in
       let note := F32.mul rootFreq (table_get melodyScale noteIndex) in
       modify (with_siren (fun s =>
         Siren.with_noteFrequencies
           (<[Z.to_nat i := note]> (Siren.noteFrequencies s)) s));;
       rest)
    (mret tt) (seqZ 0 stepCount).

(** [void mutatePitch()], first half: the random walk through scale steps,
    +-1 or +-2 steps and occasionally an octave, kept in
    [0, scaleSize * 4). *)
Definition pitchWalk (scaleSize : Z) : M unit :=
  r ← random 100;
  let randomValue := u8 r in
  change ←
    (if randomValue <? 10 then
       s ← random 2; mret (if s =? 0 then scaleSize else - scaleSize)
     else if randomValue <? 40 then
       s ← random 2; mret (if s =? 0 then 2 else -2)
     else
       s ← random 2; mret (if s =? 0 then 1 else -1));
  pitchStep ← gets (fun w => Mutate.pitchStep (mutate w));
  let newStep := pitchStep + change in
  let newStep := if newStep <? 0 then 0 else newStep in
  let newStep := if scaleSize * 4 <=? newStep then scaleSize * 4 - 1
                 else newStep in
  modify (with_mutate (Mutate.with_pitchStep (u8 newStep))).

(** [void mutatePitch()], second half ("Calculate actual frequency"): the
    frequency of the new step, constrained to the instrument's range and
    shifted by [octaveShift], stored in [siren.baseFreq] and
    [siren.frequency]. *)
Definition pitchRetune (scaleSize : Z) : M unit :=
  m ← gets mutate;
  let octaveOffset := u8 (Mutate.pitchStep m / scaleSize) in
  let scaleNote := u8 (Mutate.pitchStep m mod scaleSize) in
  let newFreq :=
    quantizePitchToScale m
      (F32.mul (F32.of_int 100) (F32.of_int (shl 1 octaveOffset)))
      scaleNote in
  inst ← gets (fun w => Siren.instrumentType (siren w));
  newFreq ←
    (if inst =? INST_DUB_SIREN then
       mret (clampFreq (F32.of_int 50) (F32.of_int 2000) newFreq)
     else if inst =? INST_RAY_GUN then
       mret (clampFreq (F32.of_int 200) (F32.of_int 4000) newFreq)
     else
       generateMelody;;
       mret (clampFreq (F32.of_int 200) (F32.of_int 800) newFreq));
  shift ← gets octaveShift;
  let newFreq :=
    if 0 <? shift then F32.mul newFreq (F32.of_int (shl 1 shift))
    else if shift <? 0 then F32.div newFreq (F32.of_int (shl 1 (- shift)))
    else newFreq in
  modify (with_siren (Siren.with_freq newFreq)).

(** [void mutatePitch()]: [scaleSize] is read once, from the current
    scale. *)
Definition mutatePitch : M unit :=
  scaleSize ← gets (fun w => scaleSizeOf (Mutate.currentScale (mutate w)));
  pitchWalk scaleSize;;
  pitchRetune scaleSize.

(** [void mutateSpeed()] *)
Definition tempoSteps : list F32.float :=
  [F32.lit 5 10; F32.lit 10 10; F32.lit 20 10; F32.lit 35 10; F32.lit 50 10;
   F32.lit 80 10; F32.lit 120 10; F32.lit 160 10; F32.lit 200 10].
Definition tempoStepCount : Z := 9.

Definition mutateSpeed : M unit :=
  r ← random 3;
  let change := r - 1 in
  speedStep ← gets (fun w => Mutate.speedStep (mutate w));
  let newStep := speedStep + change in
  let newStep := if newStep <? 0 then 0 else newStep in
  let newStep := if tempoStepCount <=? newStep then tempoStepCount - 1
                 else newStep in
  modify (with_mutate (Mutate.with_speedStep (u8 newStep)));;
  speedStep ← gets (fun w => Mutate.speedStep (mutate w));
  inst ← gets (fun w => Siren.instrumentType (siren w));
  if inst =? INST_LEAD_SYNTH then
    let scaled :=
      F32.mul (F32.div (F32.of_int speedStep) (F32.of_int tempoStepCount))
              (F32.of_int 420) in
    modify (with_siren
              (Siren.with_stepInterval (u16 (60 + u16 (F32.to_int scaled)))))
  else
    modify (with_siren (Siren.with_lfoRate (table_get tempoSteps speedStep))).

(** [void mutateModulation()] *)
Definition mutateModulation : M unit :=
  r ← random 41;
  let change := F32.div (F32.of_int (r - 20)) (F32.of_int 100) in
  inst ← gets (fun w => Siren.instrumentType (siren w));
  if inst =? INST_DUB_SIREN then
    depth ← gets (fun w => Siren.lfoDepth (siren w));
    let depth := F32.add depth change in
    let depth := if F32.ltb depth F32.zero then F32.zero else depth in
    let depth := if F32.gtb depth F32.one then F32.one else depth in
    modify (with_siren (Siren.with_lfoDepth depth))
  else if inst =? INST_RAY_GUN then
    res ← gets (fun w => Siren.resonance (siren w));
    let res := F32.add res (F32.mul change F32.half) in
    let res := if F32.ltb res (F32.lit 3 10) then F32.lit 3 10 else res in
    let res := if F32.gtb res (F32.lit 95 100) then F32.lit 95 100 else res in
    modify (with_siren (Siren.with_resonance res))
  else mret tt.

(** [void triggerMutation()]: the main mutation trigger, called on sync
    input or loop gates. *)
Definition triggerMutation : M unit :=
  disabled ← gets (fun w => Mutate.fullyDisabled (mutate w));
  if disabled : bool then mret tt
  else
    now ← millis;
    last ← gets (fun w => Mutate.lastMutateTime (mutate w));
    if u32 (now - last) <? 100 then mret tt
    else
      modify (with_mutate (Mutate.with_lastMutateTime now));;
      mode ← gets (fun w => Mutate.mode (mutate w));
      (if negb (mode =? MUTATE_OFF)
       then modify (with_lastActiveMutateMode mode)
       else mret tt);;
      active ← gets lastActiveMutateMode;
      if active =? MUTATE_AMOUNT then mutatePitch
      else if active =? MUTATE_RHYTHM then mutatePitch;; mutateSpeed
      else if active =? MUTATE_CUTOFF then
        mutatePitch;; mutateSpeed;; mutateModulation
      else mret tt.

(** ** Loop pattern generator *)

(** [enum LoopPattern] *)
Definition LOOP_OFF : Z := 0.
Definition LOOP_TRIPLET : Z := 1.
Definition LOOP_SWING : Z := 2.
Definition LOOP_STACCATO : Z := 3.
Definition LOOP_GATE : Z := 4.
Definition LOOP_RATCHET : Z := 5.
Definition LOOP_DOTTED : Z := 6.
Definition LOOP_COUNT : Z := 7.

(** [struct LoopState] *)
Module Loop.
Record t := {
  active : bool;
  pattern : Z;
  patternStartTime : Z;
  patternTempo : Z;
  gateState : bool
}.

(** The initial value of the global [loopState]. *)
Definition init : t :=
  {| active := false; pattern := 0; patternStartTime := 0;
     patternTempo := 480; gateState := false |}.
End Loop.

(** The normalised position in the cycle,
    [(float)(elapsed % cycleTime) / (float)cycleTime]. *)
Definition loopPosition (elapsed cycleTime : Z) : F32.float :=
  F32.div (F32.of_int (elapsed mod cycleTime)) (F32.of_int cycleTime).

(** [bool evaluateLoopPattern()], with the value [now] of [millis()]. *)
Definition evaluateLoopPattern (loopState : Loop.t) (now : Z) : bool :=
  if negb (Loop.active loopState) || (Loop.pattern loopState =? LOOP_OFF)
  then true
  else
    let elapsed := u32 (now - Loop.patternStartTime loopState) in
    let cycleTime := Loop.patternTempo loopState in
    let position := loopPosition elapsed cycleTime in
    let sub (n : Z) := F32.fmod1 (F32.mul position (F32.of_int n)) in
    let pattern := Loop.pattern loopState in
    if pattern =? LOOP_TRIPLET then F32.ltb (sub 6) (F32.lit 5 10)
    else if pattern =? LOOP_SWING then F32.ltb (sub 3) (F32.lit 6 10)
    else if pattern =? LOOP_STACCATO then F32.ltb (sub 4) (F32.lit 25 100)
    else if pattern =? LOOP_GATE then F32.ltb position (F32.lit 5 10)
    else if pattern =? LOOP_RATCHET then F32.ltb (sub 12) (F32.lit 5 10)
    else if pattern =? LOOP_DOTTED then
      let hitNum := s32 (F32.to_int (F32.mul position (F32.of_int 4))) in
      if Z.rem hitNum 2 =? 0 then F32.ltb (sub 4) (F32.lit 6 10)
      else F32.ltb (sub 4) (F32.lit 3 10)
    else true.

(** The ratchet gate as the pattern describes it, in exact arithmetic: the
    period is cut into 12 equal sub-cycles and the gate is open in the first
    half of each.  With [r = elapsed mod period] the sub-cycle index is
    [12 r / period], and [frac(12 r / period) < 1/2] reads
    [2 * ((12 r) mod period) < period]. *)
Definition ratchetOpen (r period : Z) : bool :=
  2 * ((12 * r) mod period) <? period.

(** The RATCHET branch of [evaluateLoopPattern] at a given position:
    [fmod(position * 12.0f, 1.0f) < 0.5f]. *)
Definition ratchetGate (position : F32.float) : bool :=
  F32.ltb (F32.fmod1 (F32.mul position (F32.of_int 12))) (F32.lit 5 10).

(** The elapsed time modulo the period, as [evaluateLoopPattern] takes it. *)
Definition loopPhase (loopState : Loop.t) (now : Z) : Z :=
  u32 (now - Loop.patternStartTime loopState) mod Loop.patternTempo loopState.

(** ** Effects chain *)

(** The one-pole lowpass, the statement
    [filterState = filterState + (((sample - filterState) * filterAmount) >> 12);]
    on [int32_t]; the right shift of a negative value is arithmetic. *)
Definition lowpass (filterState sample filterAmount : Z) : Z :=
  s32 (filterState
       + Z.shiftr (s32 (s32 (sample - filterState) * filterAmount)) 12).

(** The filter state after [n] ticks of a constant input. *)
Fixpoint lowpassRun (n : nat) (filterState sample filterAmount : Z) : Z :=
  match n with
  | O => filterState
  | S n' => lowpassRun n' (lowpass filterState sample filterAmount)
              sample filterAmount
  end.

Definition MAX_DELAY_SAMPLES : Z := 11025.

(** [const uint16_t delayTimes[6]], indexed by [siren.delayIndex]. *)
Definition delayTimes : list Z := [0; 1103; 2205; 3859; 5512; 8269].

(** [struct ReverseState]: the fields the echo stage reads. *)
Module Reverse.
Record t := {
  active : bool;
  reversing : bool;
  mixAmount : F32.float;
  pitchShift : Z
}.

(** The initial value of the global [reverser]. *)
Definition init : t :=
  {| active := false; reversing := false; mixAmount := F32.one;
     pitchShift := -1 |}.
End Reverse.

(** The echo line: the global [echoBuffer] and [echoWritePos], and the two
    function-local statics of the pitch-shift tap. *)
Module Echo.
Record t := {
  echoBuffer : list Z;
  echoWritePos : Z;
  pitchCounter : Z;
  lastPitchSample : Z
}.

Definition init : t :=
  {| echoBuffer := replicate (Z.to_nat MAX_DELAY_SAMPLES) 0;
     echoWritePos := 0; pitchCounter := 0; lastPitchSample := 0 |}.
End Echo.

(** The delay button: [siren.delayIndex = (siren.delayIndex + 1) % 6;
    siren.echoTime = delayTimes[siren.delayIndex];] *)
Definition pressDelayButton (siren : Siren.t) : Siren.t :=
  let index := u8 (Z.rem (Siren.delayIndex siren + 1) 6) in
  Siren.with_delay index (default 0 (delayTimes !! Z.to_nat index)) siren.

(** Reading [a[i]] of an array of samples. *)
Definition sample_get (a : list Z) (i : Z) : Z :=
  default 0 (a !! Z.to_nat i).

(** [uint16_t readPos = (echoWritePos + MAX_DELAY_SAMPLES - siren.echoTime)
                        % MAX_DELAY_SAMPLES;]
    computed on [int], [%] being C's remainder. *)
Definition echoReadPos (siren : Siren.t) (e : Echo.t) : Z :=
  u16 (Z.rem (Echo.echoWritePos e + MAX_DELAY_SAMPLES - Siren.echoTime siren)
             MAX_DELAY_SAMPLES).

(** [delayedSample = echoBuffer[readPos];]: the sample read from the line. *)
Definition echoRead (siren : Siren.t) (e : Echo.t) : Z :=
  sample_get (Echo.echoBuffer e) (echoReadPos siren e).

(** The pitch-shift tap of the reverse mode: the new statics and the wet
    signal. *)
Definition pitchTap (reverser : Reverse.t) (e : Echo.t) (delayedSample : Z)
    : Z * Z * Z :=
  let counter := Echo.pitchCounter e in
  let last := Echo.lastPitchSample e in
  let shift := Reverse.pitchShift reverser in
  if shift =? -2 then
    let last := if Z.rem counter 4 =? 0 then delayedSample else last in
    (u16 (counter + 1), last, last)
  else if shift =? -1 then
    let last := if Z.rem counter 2 =? 0 then delayedSample else last in
    (u16 (counter + 1), last, last)
  else if shift =? 0 then (counter, last, delayedSample)
  else if shift =? 1 then (u16 (counter + 2), last, delayedSample)
  else if shift =? 2 then (u16 (counter + 4), last, delayedSample)
  else (counter, last, delayedSample).

(** The section APPLY DELAY/ECHO of [generateSample]: the new echo line and
    the new value of [filteredSample]. *)
Definition echoStage (siren : Siren.t) (reverser : Reverse.t) (e : Echo.t)
    (filteredSample : Z) : Echo.t * Z :=
  let allowEcho := 0 <? Siren.delayIndex siren in
  let pos := Z.to_nat (Echo.echoWritePos e) in
  let next := u16 (Z.rem (Echo.echoWritePos e + 1) MAX_DELAY_SAMPLES) in
  if allowEcho then
    let delayedSample := echoRead siren e in
    let '(counter, last, delayedSample) :=
      if Reverse.active reverser && Reverse.reversing reverser then
        let drySignal := delayedSample in
        let '(counter, last, wetSignal) := pitchTap reverser e delayedSample in
        let mix := Reverse.mixAmount reverser in
        (counter, last,
         s16 (F32.to_int
                (F32.add
                   (F32.mul (F32.of_int drySignal) (F32.sub F32.one mix))
                   (F32.mul (F32.of_int wetSignal) mix))))
      else (Echo.pitchCounter e, Echo.lastPitchSample e, delayedSample) in
    let wet := F32.mul (F32.of_int delayedSample) (Siren.echoFeedback siren) in
    let feedbackSample :=
      if Z.abs filteredSample <? 50 then s32 (F32.to_int wet)
      else s32 (F32.to_int (F32.add (F32.of_int filteredSample) wet)) in
    let feedbackSample :=
      if 32767 <? feedbackSample then 32767 else feedbackSample in
    let feedbackSample :=
      if feedbackSample <? -32768 then -32768 else feedbackSample in
    ({| Echo.echoBuffer := <[pos := s16 feedbackSample]> (Echo.echoBuffer e);
        Echo.echoWritePos := next;
        Echo.pitchCounter := counter;
        Echo.lastPitchSample := last |},
     s16 (Z.shiftr filteredSample 1 + Z.shiftr delayedSample 1))
  else
    ({| Echo.echoBuffer := <[pos := 0]> (Echo.echoBuffer e);
        Echo.echoWritePos := next;
        Echo.pitchCounter := Echo.pitchCounter e;
        Echo.lastPitchSample := Echo.lastPitchSample e |},
     filteredSample).

(** The echo line after the stage has run on the samples [xs], oldest first,
    under fixed settings. *)
Definition echoRun (siren : Siren.t) (reverser : Reverse.t)
    (xs : list Z) (e : Echo.t) : Echo.t :=
  foldl (fun e x => fst (echoStage siren reverser e x)) e xs.

(** ** Recorder *)

Definition MAX_RECORD_SAMPLES : Z := 110250.

(** [struct RecordState]; [buffer] is the heap block of
    [MAX_RECORD_SAMPLES] samples allocated in [setup]. *)
Module Recorder.
Record t := {
  active : bool;
  recording : bool;
  hasRecording : bool;
  buffer : list Z;
  recordPosition : Z;
  recordLength : Z;
  playing : bool;
  loopEnabled : bool
}.

(** The recorder after [setup]: nothing recorded, the buffer allocated. *)
Definition init : t :=
  {| active := false; recording := false; hasRecording := false;
     buffer := replicate (Z.to_nat 110250) 0; recordPosition := 0;
     recordLength := 0; playing := false; loopEnabled := false |}.
End Recorder.

(** The section RECORD MODE PLAYBACK of [generateSample]: the new recorder,
    [recordedSample] and [playingRecording]. *)
Definition playbackStage (r : Recorder.t) : Recorder.t * Z * bool :=
  if Recorder.playing r then
    if Recorder.recordPosition r <? Recorder.recordLength r then
      ({| Recorder.active := Recorder.active r;
          Recorder.recording := Recorder.recording r;
          Recorder.hasRecording := Recorder.hasRecording r;
          Recorder.buffer := Recorder.buffer r;
          Recorder.recordPosition := u32 (Recorder.recordPosition r + 1);
          Recorder.recordLength := Recorder.recordLength r;
          Recorder.playing := Recorder.playing r;
          Recorder.loopEnabled := Recorder.loopEnabled r |},
       sample_get (Recorder.buffer r) (Recorder.recordPosition r), true)
    else if Recorder.loopEnabled r then
      ({| Recorder.active := Recorder.active r;
          Recorder.recording := Recorder.recording r;
          Recorder.hasRecording := Recorder.hasRecording r;
          Recorder.buffer := Recorder.buffer r;
          Recorder.recordPosition := 1;
          Recorder.recordLength := Recorder.recordLength r;
          Recorder.playing := Recorder.playing r;
          Recorder.loopEnabled := Recorder.loopEnabled r |},
       sample_get (Recorder.buffer r) 0, true)
    else
      ({| Recorder.active := Recorder.active r;
          Recorder.recording := Recorder.recording r;
          Recorder.hasRecording := Recorder.hasRecording r;
          Recorder.buffer := Recorder.buffer r;
          Recorder.recordPosition := 0;
          Recorder.recordLength := Recorder.recordLength r;
          Recorder.playing := false;
          Recorder.loopEnabled := Recorder.loopEnabled r |},
       0, false)
  else (r, 0, false).

(** The section RECORD AUDIO IF RECORDING IS ACTIVE of [generateSample],
    given the final mixed [filteredSample]. *)
Definition recordStage (r : Recorder.t) (filteredSample : Z) : Recorder.t :=
  if Recorder.recording r && (Recorder.recordPosition r <? MAX_RECORD_SAMPLES)
  then
    let buffer :=
      <[Z.to_nat (Recorder.recordPosition r) := filteredSample]>
        (Recorder.buffer r) in
    let position := u32 (Recorder.recordPosition r + 1) in
    if MAX_RECORD_SAMPLES <=? position then
      {| Recorder.active := Recorder.active r;
         Recorder.recording := false;
         Recorder.hasRecording := true;
         Recorder.buffer := buffer;
         Recorder.recordPosition := position;
         Recorder.recordLength := position;
         Recorder.playing := Recorder.playing r;
         Recorder.loopEnabled := Recorder.loopEnabled r |}
    else
      {| Recorder.active := Recorder.active r;
         Recorder.recording := Recorder.recording r;
         Recorder.hasRecording := Recorder.hasRecording r;
         Recorder.buffer := buffer;
         Recorder.recordPosition := position;
         Recorder.recordLength := Recorder.recordLength r;
         Recorder.playing := Recorder.playing r;
         Recorder.loopEnabled := Recorder.loopEnabled r |}
  else r.

(** What one audio tick does to the recorder: the playback section, then,
    further down [generateSample], the record section. *)
Definition recorderTick (r : Recorder.t) (filteredSample : Z) : Recorder.t :=
  recordStage (fst (fst (playbackStage r))) filteredSample.

(** The recorder after the ticks that produced the mixed samples [xs]. *)
Definition recorderRun (xs : list Z) (r : Recorder.t) : Recorder.t :=
  foldl recorderTick r xs.

(** Key 3 in record mode, first branch: a new recording is started. *)
Definition startRecording (r : Recorder.t) : Recorder.t :=
  if negb (Recorder.recording r) && negb (Recorder.playing r)
     && negb (Recorder.hasRecording r)
  then
    {| Recorder.active := Recorder.active r;
       Recorder.recording := true;
       Recorder.hasRecording := Recorder.hasRecording r;
       Recorder.buffer := Recorder.buffer r;
       Recorder.recordPosition := 0;
       Recorder.recordLength := 0;
       Recorder.playing := Recorder.playing r;
       Recorder.loopEnabled := Recorder.loopEnabled r |}
  else r.

(** ** Sequencer *)

Definition SAMPLE_RATE : Z := 22050.

(** [enum SequencerSoundMode] *)
Definition SEQ_SOUND_SAW : Z := 0.
Definition SEQ_SOUND_PULSE : Z := 1.
Definition SEQ_SOUND_FILTERED : Z := 2.
Definition SEQ_SOUND_PLUCK : Z := 3.
Definition SEQ_SOUND_CHORD : Z := 4.

(** [struct SequencerState], followed by the function-local statics of the
    sequencer section of [generateSample]. *)
Module Sequencer.
Record t := {
  active : bool;
  running : bool;
  stepEnabled : list bool;
  stepFrequencies : list F32.float;
  currentStep : Z;
  lastStepTime : Z;
  stepInterval : Z;
  noteActive : bool;
  sequencerPhase : Z;
  gateLength : Z;
  noteStartTime : Z;
  filterCutoff : Z;
  octaveShift : Z;
  soundMode : Z;
  lockedFreq : F32.float;
  lastLockedStep : Z;
  lastLockedOctave : Z;
  seqFilterState : Z
}.

(** The initial values of the global [sequencer] and of the statics. *)
Definition init : t :=
  {| active := false; running := false;
     stepEnabled := [true; true; true; true; true; true; true; true];
     stepFrequencies := replicate 8 F32.zero;
     currentStep := 0; lastStepTime := 0; stepInterval := 250;
     noteActive := false; sequencerPhase := 0; gateLength := 80;
     noteStartTime := 0; filterCutoff := 1200; octaveShift := 0;
     soundMode := 0; lockedFreq := F32.zero; lastLockedStep := 255;
     lastLockedOctave := 0; seqFilterState := 0 |}.

Definition with_lastStepTime (v : Z) (q : t) : t :=
  {| active := active q; running := running q;
     stepEnabled := stepEnabled q; stepFrequencies := stepFrequencies q;
     currentStep := currentStep q; lastStepTime := v;
     stepInterval := stepInterval q; noteActive := noteActive q;
     sequencerPhase := sequencerPhase q; gateLength := gateLength q;
     noteStartTime := noteStartTime q; filterCutoff := filterCutoff q;
     octaveShift := octaveShift q; soundMode := soundMode q;
     lockedFreq := lockedFreq q; lastLockedStep := lastLockedStep q;
     lastLockedOctave := lastLockedOctave q;
     seqFilterState := seqFilterState q |}.

Definition with_noteActive (v : bool) (q : t) : t :=
  {| active := active q; running := running q;
     stepEnabled := stepEnabled q; stepFrequencies := stepFrequencies q;
     currentStep := currentStep q; lastStepTime := lastStepTime q;
     stepInterval := stepInterval q; noteActive := v;
     sequencerPhase := sequencerPhase q; gateLength := gateLength q;
     noteStartTime := noteStartTime q; filterCutoff := filterCutoff q;
     octaveShift := octaveShift q; soundMode := soundMode q;
     lockedFreq := lockedFreq q; lastLockedStep := lastLockedStep q;
     lastLockedOctave := lastLockedOctave q;
     seqFilterState := seqFilterState q |}.

(** [currentStep = step; noteActive = true; noteStartTime = time;] *)
Definition startNote (step time : Z) (q : t) : t :=
  {| active := active q; running := running q;
     stepEnabled := stepEnabled q; stepFrequencies := stepFrequencies q;
     currentStep := step; lastStepTime := lastStepTime q;
     stepInterval := stepInterval q; noteActive := true;
     sequencerPhase := sequencerPhase q; gateLength := gateLength q;
     noteStartTime := time; filterCutoff := filterCutoff q;
     octaveShift := octaveShift q; soundMode := soundMode q;
     lockedFreq := lockedFreq q; lastLockedStep := lastLockedStep q;
     lastLockedOctave := lastLockedOctave q;
     seqFilterState := seqFilterState q |}.

Definition with_sequencerPhase (v : Z) (q : t) : t :=
  {| active := active q; running := running q;
     stepEnabled := stepEnabled q; stepFrequencies := stepFrequencies q;
     currentStep := currentStep q; lastStepTime := lastStepTime q;
     stepInterval := stepInterval q; noteActive := noteActive q;
     sequencerPhase := v; gateLength := gateLength q;
     noteStartTime := noteStartTime q; filterCutoff := filterCutoff q;
     octaveShift := octaveShift q; soundMode := soundMode q;
     lockedFreq := lockedFreq q; lastLockedStep := lastLockedStep q;
     lastLockedOctave := lastLockedOctave q;
     seqFilterState := seqFilterState q |}.

(** [lockedFreq = f; lastLockedStep = currentStep;
     lastLockedOctave = octaveShift;] *)
Definition lock (f : F32.float) (q : t) : t :=
  {| active := active q; running := running q;
     stepEnabled := stepEnabled q; stepFrequencies := stepFrequencies q;
     currentStep := currentStep q; lastStepTime := lastStepTime q;
     stepInterval := stepInterval q; noteActive := noteActive q;
     sequencerPhase := sequencerPhase q; gateLength := gateLength q;
     noteStartTime := noteStartTime q; filterCutoff := filterCutoff q;
     octaveShift := octaveShift q; soundMode := soundMode q;
     lockedFreq := f; lastLockedStep := currentStep q;
     lastLockedOctave := octaveShift q;
     seqFilterState := seqFilterState q |}.

Definition with_seqFilterState (v : Z) (q : t) : t :=
  {| active := active q; running := running q;
     stepEnabled := stepEnabled q; stepFrequencies := stepFrequencies q;
     currentStep := currentStep q; lastStepTime := lastStepTime q;
     stepInterval := stepInterval q; noteActive := noteActive q;
     sequencerPhase := sequencerPhase q; gateLength := gateLength q;
     noteStartTime := noteStartTime q; filterCutoff := filterCutoff q;
     octaveShift := octaveShift q; soundMode := soundMode q;
     lockedFreq := lockedFreq q; lastLockedStep := lastLockedStep q;
     lastLockedOctave := lastLockedOctave q;
     seqFilterState := v |}.
End Sequencer.

(** Reading [sequencer.stepEnabled[i]]. *)
Definition enabled (q : Sequencer.t) (i : Z) : bool :=
  default false (Sequencer.stepEnabled q !! Z.to_nat i).

(** The loop [while (!sequencer.stepEnabled[nextStep] && stepsChecked < 8)
    { nextStep = (nextStep + 1) % 8; stepsChecked++; }].  The recursion is on
    the number of iterations still allowed; the pair returned is
    [(nextStep, stepsChecked)] when the loop is left, and the loop is left
    through its own condition whenever [fuel + stepsChecked >= 8]. *)
Fixpoint skipDisabled (fuel : nat) (q : Sequencer.t)
    (nextStep stepsChecked : Z) : Z * Z :=
  if negb (enabled q nextStep) && (stepsChecked <? 8) then
    match fuel with
    | O => (nextStep, stepsChecked)
    | S fuel' =>
        skipDisabled fuel' q (u8 (Z.rem (nextStep + 1) 8))
                     (u8 (stepsChecked + 1))
    end
  else (nextStep, stepsChecked).

(** Whether the running sequencer advances now, and the step timer after the
    decision: a sync rising edge first, else the internal timer when no sync
    is connected. *)
Definition advanceDue (syncConnected syncRisingEdge : bool) (currentTime : Z)
    (q : Sequencer.t) : bool :=
  if syncConnected && syncRisingEdge then true
  else negb syncConnected
       && (Sequencer.stepInterval q
             <=? u32 (currentTime - Sequencer.lastStepTime q)).

(** "Advance to next enabled step", the body of [if (advanceStep)]. *)
Definition advanceStep (currentTime : Z) (q : Sequencer.t) : Sequencer.t :=
  let nextStep := u8 (Z.rem (Sequencer.currentStep q + 1) 8) in
  let '(nextStep, stepsChecked) := skipDisabled 8 q nextStep 0 in
  if enabled q nextStep then Sequencer.startNote nextStep currentTime q
  else Sequencer.with_noteActive false q.

(** SEQUENCER STEP ADVANCEMENT of [loop1], with the value [currentTime] of
    [millis()]. *)
Definition sequencerAdvance (syncConnected syncRisingEdge : bool)
    (currentTime : Z) (q : Sequencer.t) : Sequencer.t :=
  if Sequencer.running q then
    if advanceDue syncConnected syncRisingEdge currentTime q then
      advanceStep currentTime (Sequencer.with_lastStepTime currentTime q)
    else q
  else q.

(** The [switch (sequencer.soundMode)] that produces [rawSample] from the
    advanced oscillator phase. *)
Definition sequencerWave (q : Sequencer.t) (phase noteElapsed noteDuration : Z)
    : Z :=
  let mode := Sequencer.soundMode q in
  if mode =? SEQ_SOUND_SAW then
    s16 (Z.shiftr (generateSawtooth phase) 1
         + Z.shiftr (generateSquare phase) 2)
  else if mode =? SEQ_SOUND_PULSE then
    generateSquare (u32 (phase + Sequencer.currentStep q * 536870912))
  else if mode =? SEQ_SOUND_FILTERED then generateSawtooth phase
  else if mode =? SEQ_SOUND_PLUCK then
    let decay :=
      F32.sub F32.one
        (F32.div (F32.of_int noteElapsed) (F32.of_int noteDuration)) in
    let decay := if F32.ltb decay F32.zero then F32.zero else decay in
    s16 (F32.to_int (F32.mul (F32.of_int (generateSawtooth phase)) decay))
  else if mode =? SEQ_SOUND_CHORD then
    let fundamental := generateSquare phase in
    let octave := generateSquare (u32 (phase * 2)) in
    let fifth := generateSquare (u32 (phase * 3) / 2) in
    s16 (Z.quot (fundamental + octave + fifth) 3)
  else 0.

(** The sequencer branch of [generateSample], entered when
    [sequencer.active && sequencer.running]: the gate-length check, then the
    voice of the current step, or silence.  [currentTime] is the value of
    [millis()] and [lfo2Modulation] the factor computed at the top of
    [generateSample].  The result is the new sequencer and [filteredSample]. *)
Definition sequencerStage (currentTime : Z) (lfo2Modulation : F32.float)
    (q : Sequencer.t) : Sequencer.t * Z :=
  let noteElapsed := u32 (currentTime - Sequencer.noteStartTime q) in
  let noteDuration :=
    u32 (Z.quot (Sequencer.stepInterval q * Sequencer.gateLength q) 100) in
  let q := if noteDuration <=? noteElapsed
           then Sequencer.with_noteActive false q else q in
  if enabled q (Sequencer.currentStep q) && Sequencer.noteActive q then
    let shift := Sequencer.octaveShift q in
    let q :=
      if negb (Sequencer.lastLockedStep q =? Sequencer.currentStep q)
         || negb (Sequencer.lastLockedOctave q =? shift)
      then
        let noteFreq :=
          table_get (Sequencer.stepFrequencies q) (Sequencer.currentStep q) in
        let noteFreq :=
          if 0 <? shift then F32.mul noteFreq (F32.of_int (shl 1 shift))
          else if shift <? 0
               then F32.div noteFreq (F32.of_int (shl 1 (- shift)))
          else noteFreq in
        Sequencer.lock (clampFreq (F32.of_int 20) (F32.of_int 4000) noteFreq) q
      else q in
    let noteFreq := F32.mul (Sequencer.lockedFreq q) lfo2Modulation in
    if F32.gtb noteFreq F32.zero && Sequencer.noteActive q then
      let phaseInc :=
        u32 (F32.to_int (F32.div (F32.mul noteFreq (F32.of_int 4294967296))
                                 (F32.of_int SAMPLE_RATE))) in
      let phase := u32 (Sequencer.sequencerPhase q + phaseInc) in
      let rawSample := sequencerWave q phase noteElapsed noteDuration in
      let filterAmount :=
        if Sequencer.soundMode q =? SEQ_SOUND_FILTERED
        then Z.shiftr (Sequencer.filterCutoff q) 2
        else Sequencer.filterCutoff q in
      let state := lowpass (Sequencer.seqFilterState q) rawSample filterAmount in
      let filteredSample := s16 state in
      let stepElapsed := u32 (currentTime - Sequencer.lastStepTime q) in
      let envelope :=
        if stepElapsed <? 50 then
          F32.div (F32.of_int stepElapsed) (F32.of_int 50)
        else if u32 (Sequencer.stepInterval q - 50) <? stepElapsed then
          F32.div (F32.of_int (u32 (Sequencer.stepInterval q - stepElapsed)))
                  (F32.of_int 50)
        else F32.one in
      (Sequencer.with_seqFilterState state
         (Sequencer.with_sequencerPhase phase q),
       s16 (F32.to_int (F32.mul (F32.of_int filteredSample) envelope)))
    else (Sequencer.with_sequencerPhase 0 q, 0)
  else (Sequencer.with_sequencerPhase 0 q, 0).

(** The sequencer's output over the audio ticks at the clock values [times],
    oldest first, with no step advancement in between. *)
Fixpoint sequencerOutputs (lfo2Modulation : F32.float) (times : list Z)
    (q : Sequencer.t) : list Z :=
  match times with
  | [] => []
  | t :: times' =>
      let '(q', sample) := sequencerStage t lfo2Modulation q in
      sample :: sequencerOutputs lfo2Modulation times' q'
  end.

(** The sequencer start/stop key of [loop1]: [running] is toggled, and a
    start resets the step timer and the step position. *)
Definition toggleRunning (now : Z) (q : Sequencer.t) : Sequencer.t :=
  {| Sequencer.active := Sequencer.active q;
     Sequencer.running := negb (Sequencer.running q);
     Sequencer.stepEnabled := Sequencer.stepEnabled q;
     Sequencer.stepFrequencies := Sequencer.stepFrequencies q;
     Sequencer.currentStep :=
       if negb (Sequencer.running q) then 0 else Sequencer.currentStep q;
     Sequencer.lastStepTime :=
       if negb (Sequencer.running q) then u32 now
       else Sequencer.lastStepTime q;
     Sequencer.stepInterval := Sequencer.stepInterval q;
     Sequencer.noteActive := Sequencer.noteActive q;
     Sequencer.sequencerPhase := Sequencer.sequencerPhase q;
     Sequencer.gateLength := Sequencer.gateLength q;
     Sequencer.noteStartTime := Sequencer.noteStartTime q;
     Sequencer.filterCutoff := Sequencer.filterCutoff q;
     Sequencer.octaveShift := Sequencer.octaveShift q;
     Sequencer.soundMode := Sequencer.soundMode q;
     Sequencer.lockedFreq := Sequencer.lockedFreq q;
     Sequencer.lastLockedStep := Sequencer.lastLockedStep q;
     Sequencer.lastLockedOctave := Sequencer.lastLockedOctave q;
     Sequencer.seqFilterState := Sequencer.seqFilterState q |}.

(** ** Integer ranges and iteration helpers used by the statements *)

(** What the echo line stores for the dry sample [x] when the feedback is
    zero: the sample, or nothing below the noise-gate threshold of 50. *)
Definition noiseGate (x : Z) : Z := if Z.abs x <? 50 then 0 else x.

(** Every integer of [lo, lo + n) satisfies the check [f]. *)
Definition allZ (f : Z -> bool) (lo : Z) (n : nat) : bool :=
  forallb f (seqZ lo (Z.of_nat n)).

(** The two properties of the quantizer at the step [s] of a scale, as a
    check that computes: within one octave, and up to octave 30, the
    frequency does not decrease from [s] to [s + 1]; one scale length up, up
    to octave 30 and step 255, it is exactly doubled. *)
Definition scaleStepOk (scale : list F32.float) (scaleSize s : Z) : bool :=
  let f := scaleNoteFrequency scale scaleSize in
  implb ((s + 1 <=? 255) && (s / scaleSize <=? 30)
         && (s / scaleSize =? (s + 1) / scaleSize))
        (F32.leb (f s) (f (s + 1)))
  && implb ((s + scaleSize <=? 255) && ((s + scaleSize) / scaleSize <=? 30))
           (F32.same (f (s + scaleSize)) (F32.mul (F32.of_int 2) (f s))
            && F32.doubles (f s) (f (s + scaleSize))).

(** The three tiers of the pitch mutation, as sets of draws out of 100. *)
Definition octaveTier (r : Z) : bool := r <? 10.
Definition twoStepTier (r : Z) : bool := (10 <=? r) && (r <? 40).
Definition oneStepTier (r : Z) : bool := 40 <=? r.

(** The step change the pitch mutation makes for the draw [r] out of 100 and
    the sign draw [s] out of 2, as the mutation table describes it. *)
Definition pitchChange (scaleSize r s : Z) : Z :=
  let magnitude :=
    if octaveTier r then scaleSize else if twoStepTier r then 2 else 1 in
  if s =? 0 then magnitude else - magnitude.

(** Clamping a step into [0, scaleSize * 4). *)
Definition clampStep (scaleSize step : Z) : Z :=
  Z.max 0 (Z.min (scaleSize * 4 - 1) step).

(** ** Definitions used by the statements about the mutation engine *)

(** The pitch step that [mutatePitch] leaves, read off the two draws. *)
Definition pitchStepAfter (w : Machine) : Z :=
  let size := scaleSizeOf (Mutate.currentScale (mutate w)) in
  clampStep size
    (Mutate.pitchStep (mutate w)
     + pitchChange size (u8 (entropy w (drawn w) mod 100))
         (entropy w (S (drawn w)) mod 2)).

(** A call of [triggerMutation] is suppressed when mutations are fully
    disabled or fewer than 100 ms have passed on the 32-bit millisecond clock
    since the last accepted mutation. *)
Definition suppressed (w : Machine) : Prop :=
  Mutate.fullyDisabled (mutate w) = true
  \/ u32 (u32 (clock w) - Mutate.lastMutateTime (mutate w)) < 100.

(** The three mutations leave the time stamp of the rate limiter alone. *)
Definition keeps_time (m : M unit) : Prop :=
  forall w, Mutate.lastMutateTime (mutate (m w).2)
            = Mutate.lastMutateTime (mutate w).

(** The machine at boot, given the raw draws of the generator and the clock
    value. *)
Definition bootMachine (entropy : nat -> Z) (clock : Z) : Machine :=
  {| mutate := Mutate.init; siren := Siren.init; octaveShift := 0;
     lastActiveMutateMode := MUTATE_AMOUNT; clock := clock;
     entropy := entropy; drawn := 0 |}.

(** ** Rounding and the edges of the ratchet sub-cycles *)

(** A shift record [(m, r, s)] locates the exact value [num / den] on the
    grid of step [2 ^ i]: the value lies in [m * 2^i, (m + 1) * 2^i), and the
    round and sticky bits say where it lies with respect to the middle. *)
Definition located (num den i : Z) (mrs : shr_record) : Prop :=
  let w := num - shr_m mrs * 2 ^ i * den in
  0 <= w < 2 ^ i * den /\
  match shr_r mrs, shr_s mrs with
  | false, false => w = 0
  | false, true => 0 < 2 * w < 2 ^ i * den
  | true, false => 2 * w = 2 ^ i * den
  | true, true => 2 ^ i * den < 2 * w
  end.

(** On an edge of a half sub-cycle the position is [K / 24] with
    [1 <= K <= 23], and its [float] is one of the two mantissas next to
    [K * 2^a / 24] at the exponent [-a].  The check evaluates the gate on such
    a candidate [K * 2^a / 24 + d] and compares it with the gate of exact
    arithmetic, which is open for even [K]. *)
Definition ratchetTieOk (K a d : Z) : bool :=
  let mp := K * 2 ^ a / 24 + d in
  if (2 ^ 23 <=? mp) && (mp <? 2 ^ 24) && (Z.abs (24 * mp - K * 2 ^ a) <=? 12)
  then Bool.eqb (ratchetGate (S754_finite false (Z.to_pos mp) (- a)))
         (Z.even K)
  else true.

(** All the candidates: [K] from 1 to 23, exponents from 22 to 47. *)
Definition ratchetTiesOk : bool :=
  allZ (fun K => allZ (fun a => ratchetTieOk K a 0 && ratchetTieOk K a 1)
                   22 26) 1 23.

(** ** Output stage, rhythm helper and buttons *)

(** The PWM level written in [loop1]:
    [uint8_t pwmValue = (sample >> 8) + 128;] *)
Definition pwmValue (sample : Z) : Z := u8 (Z.shiftr sample 8 + 128).

(** [bool isEuclideanHit(uint8_t step, uint8_t steps, uint8_t pulses)]:
    [if (pulses >= steps) return true; if (pulses == 0) return false;
     return (step * pulses) % steps < pulses;]
    The product is computed on [int] and does not overflow. *)
Definition isEuclideanHit (step steps pulses : Z) : bool :=
  if steps <=? pulses then true
  else if pulses =? 0 then false
  else Z.rem (step * pulses) steps <? pulses.

(** The hits of one cycle of [steps] steps. *)
Definition euclideanHits (steps pulses : Z) : list Z :=
  filter (fun step => isEuclideanHit step steps pulses = true) (seqZ 0 steps).

(** [struct Button]; the pins are active low, [true] is the released
    level. *)
Module Button.
Record t := {
  pin : Z;
  lastState : bool;
  currentState : bool;
  lastDebounceTime : Z
}.

(** The initial value of every button: [{pin, true, true, 0}]. *)
Definition init (pin : Z) : t :=
  {| pin := pin; lastState := true; currentState := true;
     lastDebounceTime := 0 |}.
End Button.

(** [bool readButton(Button* btn)], given the level [reading] that
    [digitalRead] returns and the values [t1] and [t2] of the two calls of
    [millis()]. *)
Definition readButton (reading : bool) (t1 t2 : Z) (btn : Button.t)
    : bool * Button.t :=
  let debounce :=
    if negb (Bool.eqb reading (Button.lastState btn)) then u32 t1
    else Button.lastDebounceTime btn in
  if (50 <? u32 (u32 t2 - debounce))
     && negb (Bool.eqb reading (Button.currentState btn))
  then
    (negb reading,
     {| Button.pin := Button.pin btn; Button.lastState := reading;
        Button.currentState := reading;
        Button.lastDebounceTime := debounce |})
  else
    (false,
     {| Button.pin := Button.pin btn; Button.lastState := reading;
        Button.currentState := Button.currentState btn;
        Button.lastDebounceTime := debounce |}).

(** [bool isButtonHeld(Button* btn)] *)
Definition isButtonHeld (btn : Button.t) : bool :=
  Bool.eqb (Button.currentState btn) false.

(** A run of polls of one button: each poll is the level read and the two
    clock values; the results are listed oldest first. *)
Fixpoint readButtonRun (polls : list (bool * Z * Z)) (btn : Button.t)
    : list bool * Button.t :=
  match polls with
  | [] => ([], btn)
  | (reading, t1, t2) :: polls' =>
      let '(pressed, btn') := readButton reading t1 t2 btn in
      let '(rest, btn'') := readButtonRun polls' btn' in
      (pressed :: rest, btn'')
  end.

(** The polls of a bounce: the level is low and the clock is still within
    50 ms of the value [t0] taken when the level changed. *)
Definition bouncing (t0 : Z) (poll : bool * Z * Z) : Prop :=
  fst (fst poll) = false /\ u32 (u32 (snd poll) - u32 t0) <= 50.

(** ** The echo line as a ring buffer *)

(** The shape of the echo line that [setup] establishes: the buffer has its
    [MAX_DELAY_SAMPLES] cells, the write position is an index of it, and
    the cells hold 16-bit samples. *)
Definition echoLineOk (e : Echo.t) : Prop :=
  Z.of_nat (length (Echo.echoBuffer e)) = MAX_DELAY_SAMPLES
  /\ 0 <= Echo.echoWritePos e < MAX_DELAY_SAMPLES
  /\ Forall is_s16 (Echo.echoBuffer e).

(** The dry outputs of the echo section over the samples [xs], oldest
    first. *)
Fixpoint echoOutputs (siren : Siren.t) (reverser : Reverse.t) (xs : list Z)
    (e : Echo.t) : list Z :=
  match xs with
  | [] => []
  | x :: xs' =>
      let '(e', out) := echoStage siren reverser e x in
      out :: echoOutputs siren reverser xs' e'
  end.

(** ** Record mode keys *)

(** Key 3 in record mode, the body of the falling-edge test of
    [readKeyboard]: ready, recording, ready with a recording, playing.
    ([recordStartTime], which only the display reads, is not part of
    [Recorder.t].) *)
Definition pressRecordKey (r : Recorder.t) : Recorder.t :=
  if negb (Recorder.recording r) && negb (Recorder.playing r)
     && negb (Recorder.hasRecording r)
  then
    {| Recorder.active := Recorder.active r;
       Recorder.recording := true;
       Recorder.hasRecording := Recorder.hasRecording r;
       Recorder.buffer := Recorder.buffer r;
       Recorder.recordPosition := 0;
       Recorder.recordLength := 0;
       Recorder.playing := Recorder.playing r;
       Recorder.loopEnabled := Recorder.loopEnabled r |}
  else if Recorder.recording r then
    {| Recorder.active := Recorder.active r;
       Recorder.recording := false;
       Recorder.hasRecording := true;
       Recorder.buffer := Recorder.buffer r;
       Recorder.recordPosition := Recorder.recordPosition r;
       Recorder.recordLength := Recorder.recordPosition r;
       Recorder.playing := Recorder.playing r;
       Recorder.loopEnabled := Recorder.loopEnabled r |}
  else if Recorder.hasRecording r && negb (Recorder.playing r) then
    {| Recorder.active := Recorder.active r;
       Recorder.recording := Recorder.recording r;
       Recorder.hasRecording := Recorder.hasRecording r;
       Recorder.buffer := Recorder.buffer r;
       Recorder.recordPosition := 0;
       Recorder.recordLength := Recorder.recordLength r;
       Recorder.playing := true;
       Recorder.loopEnabled := Recorder.loopEnabled r |}
  else if Recorder.playing r then
    {| Recorder.active := Recorder.active r;
       Recorder.recording := Recorder.recording r;
       Recorder.hasRecording := Recorder.hasRecording r;
       Recorder.buffer := Recorder.buffer r;
       Recorder.recordPosition := 0;
       Recorder.recordLength := Recorder.recordLength r;
       Recorder.playing := false;
       Recorder.loopEnabled := Recorder.loopEnabled r |}
  else r.

(** What the playback section hands to the mixer over the ticks that
    produced the mixed samples [xs]: [recordedSample] and
    [playingRecording] of each tick, oldest first. *)
Fixpoint recorderOutputs (xs : list Z) (r : Recorder.t) : list (Z * bool) :=
  match xs with
  | [] => []
  | x :: xs' =>
      let '(r1, recordedSample, playingRecording) := playbackStage r in
      (recordedSample, playingRecording)
        :: recorderOutputs xs' (recordStage r1 x)
  end.





(** ** Modulation mutation *)

(** The change [mutateModulation] draws: [(random(41) - 20) / 100.0f]. *)
Definition modulationChange (r : Z) : F32.float :=
  F32.div (F32.of_int (r - 20)) (F32.of_int 100).

(** Not a NaN. *)
Definition is_number (x : F32.float) : bool :=
  match x with
  | S754_nan => false
  | _ => true
  end.

(** ** The frequency a pitch mutation stores *)

(** "Constrain to instrument-specific ranges" of [mutatePitch]. *)
Definition instrumentClamp (inst : Z) (f : F32.float) : F32.float :=
  if inst =? INST_DUB_SIREN then
    clampFreq (F32.of_int 50) (F32.of_int 2000) f
  else if inst =? INST_RAY_GUN then
    clampFreq (F32.of_int 200) (F32.of_int 4000) f
  else clampFreq (F32.of_int 200) (F32.of_int 800) f.

(** "Apply octave shift" of [mutatePitch]. *)
Definition octaveShifted (shift : Z) (f : F32.float) : F32.float :=
  if 0 <? shift then F32.mul f (F32.of_int (shl 1 shift))
  else if shift <? 0 then F32.div f (F32.of_int (shl 1 (- shift)))
  else f.

(** The note [note] of the scale [scale] on the instrument [inst], before
    the octave shift, lies between 110 Hz and 220 Hz, and at or above 200 Hz
    on the instruments other than the dub siren. *)
Definition mutatedPitchOk (scale inst note : Z) : bool :=
  let f :=
    instrumentClamp inst
      (scaleNoteFrequency (scaleTable scale) (scaleSizeOf scale) note) in
  F32.leb (F32.of_int 110) f && F32.leb f (F32.of_int 220)
  && ((inst =? INST_DUB_SIREN) || F32.leb (F32.of_int 200) f).

(** The check over the five scales, three instrument ranges and the notes of
    each scale. *)
Definition mutatedPitchesOk : bool :=
  allZ (fun scale =>
    allZ (fun inst =>
      allZ (fun note =>
              (scaleSizeOf scale <=? note) || mutatedPitchOk scale inst note)
           0 13)
      0 3)
    0 5.

(** ** The other loop patterns *)

(** The gate of a pattern that cuts the period into [n] sub-cycles and is
    open for the first [1 / q] of each, in exact arithmetic: with
    [r = elapsed mod period], [frac(n r / period) < 1 / q] reads
    [q * ((n r) mod period) < period]. *)
Definition subCycleOpen (n q r period : Z) : bool :=
  q * ((n * r) mod period) <? period.

(** The branches of [evaluateLoopPattern] of the form
    [fmod(position * n, 1.0f) < threshold]. *)
Definition subCycleGate (n : Z) (threshold position : F32.float) : bool :=
  F32.ltb (F32.fmod1 (F32.mul position (F32.of_int n))) threshold.

(** On an edge [q n r = K * period] of the pattern the position is
    [K / (q n)], and its [float] is one of the two mantissas next to
    [K * 2^a / (q n)] at the exponent [-a].  The check evaluates the gate
    on such a candidate and compares it with the gate of exact arithmetic,
    which is open when [q] divides [K]. *)
Definition subCycleTieOk (n q : Z) (threshold : F32.float) (K a d : Z)
    : bool :=
  let mp := K * 2 ^ a / (q * n) + d in
  if (2 ^ 23 <=? mp) && (mp <? 2 ^ 24)
     && (2 * Z.abs (q * n * mp - K * 2 ^ a) <=? q * n)
  then Bool.eqb (subCycleGate n threshold
                   (S754_finite false (Z.to_pos mp) (- a)))
         (K mod q =? 0)
  else true.

Definition subCycleTiesOk (n q : Z) (threshold : F32.float) : bool :=
  allZ (fun K =>
          allZ (fun a => subCycleTieOk n q threshold K a 0
                         && subCycleTieOk n q threshold K a 1)
               22 26)
       1 (Z.to_nat (q * n - 1)).

(** ** Loop tempo from the speed pot *)

(** A pot value of [readPotentiometers]: four ADC reads are summed in a
    [uint32_t] and [uint16_t raw = 4095 - (sum / 4);]. *)
Definition potRaw (read1 read2 read3 read4 : Z) : Z :=
  let sum := u32 (u32 (u32 (u32 (0 + read1) + read2) + read3) + read4) in
  u16 (4095 - Z.quot sum 4).

(** [200 + (uint16_t)((speedRaw / 4095.0f) * 800)], stored in the
    [uint16_t] field [patternTempo]. *)
Definition loopTempoFromPot (speedRaw : Z) : Z :=
  u16 (200 + u16 (F32.to_int
                    (F32.mul (F32.div (F32.of_int speedRaw) (F32.of_int 4095))
                             (F32.of_int 800)))).

(** LOOP PATTERN TEMPO CONTROL of [readPotentiometers]:
    [if (loopState.active && loopState.pattern != LOOP_OFF && !lfo2.active)
       loopState.patternTempo = ...;] *)
Definition setLoopTempo (lfo2Active : bool) (speedRaw : Z) (l : Loop.t)
    : Loop.t :=
  if Loop.active l && negb (Loop.pattern l =? LOOP_OFF) && negb lfo2Active
  then
    {| Loop.active := Loop.active l; Loop.pattern := Loop.pattern l;
       Loop.patternStartTime := Loop.patternStartTime l;
       Loop.patternTempo := loopTempoFromPot speedRaw;
       Loop.gateState := Loop.gateState l |}
  else l.

(** The check of the tempo expression against its value in exact
    arithmetic, over the 12-bit range of the pot. *)
Definition loopTempoOk (speedRaw : Z) : bool :=
  loopTempoFromPot speedRaw =? 200 + 800 * speedRaw / 4095.

(** The statics of [readPotentiometers] on the path of the speed pot:
    [static uint16_t speedFiltered = 2048;], [static bool firstRead = true;]
    and [static uint16_t lastStableSpeed = 2048;]. *)
Module SpeedPot.
Record t := {
  speedFiltered : Z;
  firstRead : bool;
  lastStableSpeed : Z
}.

Definition init : t :=
  {| speedFiltered := 2048; firstRead := true; lastStableSpeed := 2048 |}.
End SpeedPot.

(** The moving average:
    [if (firstRead) { speedFiltered = speedRaw; firstRead = false; }
     else { speedFiltered = (speedRaw * 2 + (speedFiltered * 8)) / 10; }],
    computed on [int] and stored in a [uint16_t]. *)
Definition filterSpeed (speedRaw : Z) (p : SpeedPot.t) : Z :=
  if SpeedPot.firstRead p then speedRaw
  else u16 (Z.quot (s32 (s32 (speedRaw * 2)
                         + s32 (SpeedPot.speedFiltered p * 8))) 10).

(** The dead zone:
    [if (abs((int)speedFiltered - (int)lastStableSpeed) > 8)
       lastStableSpeed = speedFiltered;]. *)
Definition stableSpeed (speedFiltered lastStableSpeed : Z) : Z :=
  if 8 <? Z.abs (s32 (speedFiltered - lastStableSpeed)) then speedFiltered
  else lastStableSpeed.

(** The speed pot of [readPotentiometers] up to [speedRaw = lastStableSpeed;]:
    the four reads, the moving average and the dead zone.  The value the rest
    of the function uses as [speedRaw] is [lastStableSpeed] of the result. *)
Definition readSpeedPot (read1 read2 read3 read4 : Z) (p : SpeedPot.t)
    : SpeedPot.t :=
  let speedRaw := potRaw read1 read2 read3 read4 in
  let speedFiltered := filterSpeed speedRaw p in
  {| SpeedPot.speedFiltered := speedFiltered;
     SpeedPot.firstRead := false;
     SpeedPot.lastStableSpeed :=
       stableSpeed speedFiltered (SpeedPot.lastStableSpeed p) |}.

(** [readPotentiometers] on the speed statics and on [loopState]: the speed
    pot is read and stabilised; [if (sequencer.active) { ...; return; }]
    leaves the function before the loop tempo is reached; otherwise LOOP
    PATTERN TEMPO CONTROL runs on the stabilised value.  Nothing in between
    writes [loopState] or the speed statics. *)
Definition readPotentiometersLoop (sequencerActive lfo2Active : bool)
    (read1 read2 read3 read4 : Z) (p : SpeedPot.t) (l : Loop.t)
    : SpeedPot.t * Loop.t :=
  let p := readSpeedPot read1 read2 read3 read4 p in
  let speedRaw := SpeedPot.lastStableSpeed p in
  if sequencerActive then (p, l)
  else (p, setLoopTempo lfo2Active speedRaw l).

(** ** The melody of the lead sequence *)

(** The note [generateMelody] writes at step [i] when the clock reads
    [now]: [rootFreq * scale[(millis() + i * 37) % scaleSize]]. *)
Definition melodyNote (rootFreq : F32.float) (now i : Z) : F32.float :=
  F32.mul rootFreq (table_get melodyScale (u8 (u32 (now + i * 37) mod 6))).

(** One iteration of the loop of [generateMelody], as a change of the
    machine. *)
Definition melodyStep (rootFreq : F32.float) (w : Machine) (i : Z)
    : Machine :=
  with_siren
    (fun s =>
       Siren.with_noteFrequencies
         (<[Z.to_nat i := melodyNote rootFreq (u32 (clock w)) i]>
            (Siren.noteFrequencies s)) s)
    w.

(** ** Which mutations a trigger runs *)


(** ** Waveform mixes of the dub siren *)

(** The classic waveform of [generateSample]:
    [sample = (tri * 3 + saw) >> 2;] on [int], stored in an [int16_t]. *)
Definition classicMix (saw tri : Z) : Z :=
  s16 (Z.shiftr (s32 (s32 (tri * 3) + saw)) 2).

(** The ring modulator of [generateSample]:
    [sample = (int16_t)(((int32_t)carrier * (int32_t)modulator) >> 15);] *)
Definition ringMod (carrier modulator : Z) : Z :=
  s16 (Z.shiftr (s32 (carrier * modulator)) 15).



(** The sequencer of [Sequencer.init] playing the voice [soundMode] at step
    [currentStep]. *)
Definition sequencerAt (soundMode currentStep : Z) : Sequencer.t :=
  {| Sequencer.active := true; Sequencer.running := true;
     Sequencer.stepEnabled := Sequencer.stepEnabled Sequencer.init;
     Sequencer.stepFrequencies := Sequencer.stepFrequencies Sequencer.init;
     Sequencer.currentStep := currentStep;
     Sequencer.lastStepTime := 0; Sequencer.stepInterval := 250;
     Sequencer.noteActive := true; Sequencer.sequencerPhase := 0;
     Sequencer.gateLength := 80; Sequencer.noteStartTime := 0;
     Sequencer.filterCutoff := 1200; Sequencer.octaveShift := 0;
     Sequencer.soundMode := soundMode; Sequencer.lockedFreq := F32.zero;
     Sequencer.lastLockedStep := 255; Sequencer.lastLockedOctave := 0;
     Sequencer.seqFilterState := 0 |}.

(** * Properties *)

(** ** Machine integers *)

Lemma u32_range x : is_u32 (u32 x).
Proof. unfold is_u32, u32. Z.div_mod_to_equations. lia. Qed.

Lemma u16_range x : is_u16 (u16 x).
Proof. unfold is_u16, u16. Z.div_mod_to_equations. lia. Qed.

Lemma u8_range x : is_u8 (u8 x).
Proof. unfold is_u8, u8. Z.div_mod_to_equations. lia. Qed.

Lemma s16_range x : is_s16 (s16 x).
Proof. unfold is_s16, s16. Z.div_mod_to_equations. lia. Qed.

Lemma s32_range x : is_s32 (s32 x).
Proof. unfold is_s32, s32. Z.div_mod_to_equations. lia. Qed.

Lemma u32_id x : is_u32 x -> u32 x = x.
Proof. unfold is_u32, u32. intros H. apply Z.mod_small. lia. Qed.

Lemma u16_id x : is_u16 x -> u16 x = x.
Proof. unfold is_u16, u16. intros H. apply Z.mod_small. lia. Qed.

Lemma u8_id x : is_u8 x -> u8 x = x.
Proof. unfold is_u8, u8. intros H. apply Z.mod_small. lia. Qed.

Lemma s16_id x : is_s16 x -> s16 x = x.
Proof. unfold is_s16, s16. intros H. rewrite Z.mod_small; lia. Qed.

Lemma s32_id x : is_s32 x -> s32 x = x.
Proof. unfold is_s32, s32. intros H. rewrite Z.mod_small; lia. Qed.

(** Conversion to [uint32_t] forgets whole multiples of 2^32. *)
Lemma u32_add_period x k : u32 (x + k * 4294967296) = u32 x.
Proof. unfold u32. apply Z.mod_add. lia. Qed.

Lemma shiftr_div x n : 0 <= n -> Z.shiftr x n = x / 2 ^ n.
Proof. apply Z.shiftr_div_pow2. Qed.

Lemma land_low16 x : Z.land x 65535 = x mod 65536.
Proof. change 65535 with (Z.ones 16). apply Z.land_ones. lia. Qed.

(** ** Waveform core *)

Lemma generateSquare_values ph :
  generateSquare ph = 16384 \/ generateSquare ph = -16384.
Proof. unfold generateSquare. destruct (_ =? _); auto. Qed.

Lemma generateSawtooth_lower_half ph :
  0 <= ph < 2147483648 -> generateSawtooth ph = ph / 65536 - 16384.
Proof.
  intros H. unfold generateSawtooth.
  rewrite shiftr_div by lia. change (2 ^ 16) with 65536.
  assert (0 <= ph / 65536 <= 32767) by (Z.div_mod_to_equations; lia).
  rewrite (s16_id (ph / 65536)) by (unfold is_s16; lia).
  apply s16_id. unfold is_s16. lia.
Qed.

Lemma generateTriangle_first_quarter ph :
  0 <= ph < 1073741824 -> generateTriangle ph = ph / 32768 - 16384.
Proof.
  intros H. unfold generateTriangle.
  rewrite !shiftr_div by lia. change (2 ^ 30) with 1073741824.
  change (2 ^ 15) with 32768. rewrite land_low16.
  assert (ph / 1073741824 = 0) as -> by (Z.div_mod_to_equations; lia).
  assert (0 <= ph / 32768 <= 32767) by (Z.div_mod_to_equations; lia).
  rewrite (Z.mod_small (ph / 32768)) by lia. simpl.
  rewrite (s16_id (ph / 32768)) by (unfold is_s16; lia).
  apply s16_id. unfold is_s16. lia.
Qed.

Lemma generateTriangle_third_quarter ph :
  2147483648 <= ph < 3221225472 ->
  generateTriangle ph = 16384 - (ph / 32768 - 65536).
Proof.
  intros H. unfold generateTriangle.
  rewrite !shiftr_div by lia. change (2 ^ 30) with 1073741824.
  change (2 ^ 15) with 32768. rewrite land_low16.
  assert (ph / 1073741824 = 2) as -> by (Z.div_mod_to_equations; lia).
  assert (65536 <= ph / 32768 <= 98303) by (Z.div_mod_to_equations; lia).
  assert ((ph / 32768) mod 65536 = ph / 32768 - 65536) as ->
    by (Z.div_mod_to_equations; lia).
  simpl.
  rewrite (s16_id (ph / 32768 - 65536)) by (unfold is_s16; lia).
  apply s16_id. unfold is_s16. lia.
Qed.

(** C1, amended.  For every 32-bit phase: [generateSquare] returns 16384 or
    -16384; [generateSawtooth] stays within [-16384, 16383] on the lower half
    of the phase range; [generateTriangle] stays within [-16384, 16383] on the
    first quarter and within [-16383, 16384] on the third; all three return
    16-bit values and have period 2^32 in the phase. *)
Theorem waveform_ranges_and_period (ph : Z) :
  is_u32 ph ->
  (generateSquare ph = 16384 \/ generateSquare ph = -16384) /\
  (ph < 2147483648 -> -16384 <= generateSawtooth ph <= 16383) /\
  (ph < 1073741824 -> -16384 <= generateTriangle ph <= 16383) /\
  (2147483648 <= ph < 3221225472 -> -16383 <= generateTriangle ph <= 16384) /\
  (is_s16 (generateSawtooth ph) /\ is_s16 (generateSquare ph)
   /\ is_s16 (generateTriangle ph)) /\
  (forall k : Z,
     generateSawtooth (u32 (ph + k * 4294967296)) = generateSawtooth ph /\
     generateSquare (u32 (ph + k * 4294967296)) = generateSquare ph /\
     generateTriangle (u32 (ph + k * 4294967296)) = generateTriangle ph).
Proof.
  intros Hph. unfold is_u32 in Hph.
  split; [apply generateSquare_values|].
  split.
  { intros H. rewrite generateSawtooth_lower_half by lia.
    Z.div_mod_to_equations. lia. }
  split.
  { intros H. rewrite generateTriangle_first_quarter by lia.
    Z.div_mod_to_equations. lia. }
  split.
  { intros H. rewrite generateTriangle_third_quarter by lia.
    Z.div_mod_to_equations. lia. }
  split.
  { split; [apply s16_range|]. split.
    - destruct (generateSquare_values ph) as [-> | ->]; unfold is_s16; lia.
    - unfold generateTriangle. repeat destruct (_ =? _); apply s16_range. }
  intros k. rewrite u32_add_period, u32_id by (unfold is_u32; lia). auto.
Qed.

Lemma waveform_ranges_and_period_witness :
  is_u32 12345678 /\ -16384 <= generateSawtooth 12345678 <= 16383.
Proof.
  assert (is_u32 12345678) as H by (unfold is_u32; lia).
  split; [exact H|].
  destruct (waveform_ranges_and_period 12345678 H) as (_ & Hsaw & _).
  apply Hsaw. lia.
Defined.

(** C1 as stated fails: the square wave reaches 16384, and the sawtooth and
    the triangle leave [-16384, 16383] where the 16-bit cast of the phase
    bits turns negative. *)
Lemma waveform_range_counterexample :
  is_u32 2147483648 /\ is_u32 4294901760 /\ is_u32 1073774592 /\
  generateSquare 2147483648 = 16384 /\
  generateSawtooth 4294901760 = -16385 /\
  generateTriangle 1073774592 = -16385 /\
  ~ (-16384 <= generateSquare 2147483648 <= 16383) /\
  ~ (-16384 <= generateSawtooth 4294901760 <= 16383) /\
  ~ (-16384 <= generateTriangle 1073774592 <= 16383).
Proof.
  unfold is_u32.
  repeat split; try lia; try reflexivity;
    vm_compute; intros [H1 H2]; congruence.
Qed.

(** ** Bit crusher *)

Lemma crush_step_cases bits :
  0 <= bits < 8 ->
  256 <= Z.shiftr 32768 bits <= 32768 /\
  (s16 (Z.shiftr 32768 bits) = Z.shiftr 32768 bits
   \/ (Z.shiftr 32768 bits = 32768
       /\ s16 (Z.shiftr 32768 bits) = - Z.shiftr 32768 bits)).
Proof.
  intros H.
  assert (bits = 0 \/ bits = 1 \/ bits = 2 \/ bits = 3 \/ bits = 4
          \/ bits = 5 \/ bits = 6 \/ bits = 7) as Hc by lia.
  destruct Hc as [-> | [-> | [-> | [-> | [-> | [-> | [-> | ->]]]]]]];
    (set (step := Z.shiftr 32768 _); vm_compute in step; subst step);
    (split; [lia|]);
    first [left; reflexivity | right; split; reflexivity].
Qed.

Lemma quot_mul_nonneg a b : 0 <= a -> 0 < b -> 0 <= Z.quot a b * b <= a.
Proof.
  intros Ha Hb.
  pose proof (Z.quot_rem' a b) as Hqr.
  pose proof (Z.rem_bound_pos a b Ha Hb).
  pose proof (Z.quot_pos a b Ha Hb).
  pose proof (Z.mul_nonneg_nonneg (Z.quot a b) b).
  lia.
Qed.

(** Truncating division rounds towards zero: the multiple it yields lies
    between zero and the dividend. *)
Lemma quot_mul_bounds a b :
  0 < b ->
  Z.abs (Z.quot a b * b) <= Z.abs a /\
  (0 <= a -> 0 <= Z.quot a b * b <= a) /\
  (a <= 0 -> a <= Z.quot a b * b <= 0).
Proof.
  intros Hb.
  destruct (Z_le_gt_dec 0 a) as [Ha | Ha].
  - pose proof (quot_mul_nonneg a b Ha Hb). lia.
  - pose proof (quot_mul_nonneg (- a) b ltac:(lia) Hb) as H.
    rewrite Z.quot_opp_l in H by lia. lia.
Qed.

(** Below 8 bits the crusher computes the multiple of the mathematical step
    [32768 >> bits], although the 16-bit [step] of the code is -32768 for
    [bits = 0]. *)
Lemma applyBitCrusher_below_8 sample bits :
  is_s16 sample -> 0 <= bits < 8 ->
  applyBitCrusher sample bits
  = Z.quot sample (Z.shiftr 32768 bits) * Z.shiftr 32768 bits.
Proof.
  intros Hs Hb. unfold applyBitCrusher.
  destruct (Z.leb_spec 8 bits) as [?|_]; [lia|].
  destruct (crush_step_cases bits Hb) as [Hstep Hcast].
  set (step := Z.shiftr 32768 bits) in *.
  assert (Z.quot sample (s16 step) * s16 step = Z.quot sample step * step)
    as ->.
  { destruct Hcast as [-> | [_ ->]]; [reflexivity|].
    rewrite Z.quot_opp_r by lia. ring. }
  apply s16_id. unfold is_s16 in *.
  destruct (quot_mul_bounds sample step ltac:(lia)) as (_ & Hpos & Hneg).
  destruct (Z_le_gt_dec 0 sample); [specialize (Hpos ltac:(lia))
                                   | specialize (Hneg ltac:(lia))]; lia.
Qed.

(** C9.  [applyBitCrusher] returns the sample unchanged for [bits >= 8]; for
    [bits < 8] it returns [(sample / step) * step] with
    [step = 32768 >> bits], a multiple of [step] no larger in magnitude than
    the sample; and crushing twice with the same [bits] equals crushing
    once. *)
Theorem applyBitCrusher_spec (sample bits : Z) :
  is_s16 sample -> is_u8 bits ->
  (8 <= bits -> applyBitCrusher sample bits = sample) /\
  (bits < 8 ->
     applyBitCrusher sample bits
     = Z.quot sample (Z.shiftr 32768 bits) * Z.shiftr 32768 bits
     /\ (Z.shiftr 32768 bits | applyBitCrusher sample bits)
     /\ Z.abs (applyBitCrusher sample bits) <= Z.abs sample) /\
  applyBitCrusher (applyBitCrusher sample bits) bits
  = applyBitCrusher sample bits.
Proof.
  intros Hs Hb. unfold is_u8 in Hb.
  assert (8 <= bits -> applyBitCrusher sample bits = sample) as Hhigh.
  { intros H. unfold applyBitCrusher.
    destruct (Z.leb_spec 8 bits); [reflexivity | lia]. }
  split; [exact Hhigh|].
  assert (bits < 8 ->
          (Z.shiftr 32768 bits | applyBitCrusher sample bits)
          /\ Z.abs (applyBitCrusher sample bits) <= Z.abs sample
          /\ is_s16 (applyBitCrusher sample bits)) as Hlow.
  { intros H. rewrite applyBitCrusher_below_8 by (auto; lia).
    destruct (crush_step_cases bits ltac:(lia)) as [Hstep _].
    destruct (quot_mul_bounds sample (Z.shiftr 32768 bits) ltac:(lia))
      as (Habs & Hpos & Hneg).
    split; [apply Z.divide_factor_r|]. split; [exact Habs|].
    unfold is_s16 in *.
    destruct (Z_le_gt_dec 0 sample); [specialize (Hpos ltac:(lia))
                                     | specialize (Hneg ltac:(lia))]; lia. }
  split.
  { intros H. destruct (Hlow H) as (Hdiv & Habs & _).
    split; [apply applyBitCrusher_below_8; auto; lia|]. auto. }
  destruct (Z_le_gt_dec 8 bits) as [Hge | Hlt].
  - rewrite !(Hhigh Hge). unfold applyBitCrusher.
    destruct (Z.leb_spec 8 bits); [reflexivity | lia].
  - destruct (Hlow ltac:(lia)) as (_ & _ & Hrange).
    rewrite (applyBitCrusher_below_8 (applyBitCrusher sample bits))
      by (auto; lia).
    rewrite (applyBitCrusher_below_8 sample) by (auto; lia).
    destruct (crush_step_cases bits ltac:(lia)) as [Hstep _].
    rewrite Z.quot_mul by lia. reflexivity.
Qed.

Lemma applyBitCrusher_spec_witness :
  is_s16 12345 /\ is_u8 3 /\
  applyBitCrusher (applyBitCrusher 12345 3) 3 = applyBitCrusher 12345 3.
Proof.
  assert (is_s16 12345) as Hs by (unfold is_s16; lia).
  assert (is_u8 3) as Hb by (unfold is_u8; lia).
  split; [exact Hs|]. split; [exact Hb|].
  destruct (applyBitCrusher_spec 12345 3 Hs Hb) as (_ & _ & Hidem).
  exact Hidem.
Defined.

(** ** One-pole lowpass filter *)

Section Lowpass.

(** The constant input and the cutoff, in the ranges the program keeps
    them in. *)
Variables x cutoff : Z.
Hypothesis x_range : is_s16 x.
Hypothesis cutoff_range : 0 < cutoff <= 4095.

(** On 16-bit samples no intermediate result overflows: the update is the
    floor of the scaled difference. *)
Lemma lowpass_exact s :
  is_s16 s -> lowpass s x cutoff = s + (x - s) * cutoff / 4096.
Proof using x_range cutoff_range.
  intros Hs. unfold lowpass, is_s16 in *.
  rewrite (s32_id (x - s)) by (unfold is_s32; lia).
  rewrite (s32_id ((x - s) * cutoff)) by (unfold is_s32; nia).
  rewrite shiftr_div by lia. change (2 ^ 12) with 4096.
  apply s32_id. unfold is_s32.
  assert (-65535 * 4095 <= (x - s) * cutoff <= 65535 * 4095) by nia.
  Z.div_mod_to_equations. lia.
Qed.

Lemma lowpass_from_below s :
  is_s16 s -> s <= x -> s <= lowpass s x cutoff <= x.
Proof using x_range cutoff_range.
  intros Hs Hle. rewrite lowpass_exact by assumption.
  assert (0 <= (x - s) * cutoff <= (x - s) * 4096) by nia.
  Z.div_mod_to_equations. lia.
Qed.

Lemma lowpass_from_above s :
  is_s16 s -> x < s -> x <= lowpass s x cutoff < s.
Proof using x_range cutoff_range.
  intros Hs Hlt. rewrite lowpass_exact by assumption.
  assert ((x - s) * 4096 <= (x - s) * cutoff <= -1) by nia.
  Z.div_mod_to_equations. lia.
Qed.

(** The state stalls exactly when the scaled difference is below one unit
    of the 12-bit fixed point. *)
Lemma lowpass_fixed s :
  is_s16 s -> 0 <= (x - s) * cutoff < 4096 -> lowpass s x cutoff = s.
Proof using x_range cutoff_range.
  intros Hs H. rewrite lowpass_exact by assumption.
  rewrite Z.div_small by lia. lia.
Qed.

Lemma lowpass_progress s :
  is_s16 s -> 4096 <= (x - s) * cutoff -> s < lowpass s x cutoff.
Proof using x_range cutoff_range.
  intros Hs H. rewrite lowpass_exact by assumption.
  Z.div_mod_to_equations. lia.
Qed.

Lemma lowpass_range s : is_s16 s -> is_s16 (lowpass s x cutoff).
Proof using x_range cutoff_range.
  intros Hs. unfold is_s16 in *.
  destruct (Z_le_gt_dec s x).
  - pose proof (lowpass_from_below s Hs ltac:(lia)). lia.
  - pose proof (lowpass_from_above s Hs ltac:(lia)). lia.
Qed.

Lemma lowpassRun_S n s :
  lowpassRun (S n) s x cutoff = lowpassRun n (lowpass s x cutoff) x cutoff.
Proof. reflexivity. Qed.

Lemma lowpassRun_add n m s :
  lowpassRun (n + m) s x cutoff
  = lowpassRun m (lowpassRun n s x cutoff) x cutoff.
Proof. revert s. induction n as [|n IH]; intros s; simpl; auto. Qed.

Lemma lowpassRun_last n s :
  lowpassRun (S n) s x cutoff = lowpass (lowpassRun n s x cutoff) x cutoff.
Proof.
  replace (S n) with (n + 1)%nat by lia. now rewrite lowpassRun_add.
Qed.

Lemma lowpassRun_range n s : is_s16 s -> is_s16 (lowpassRun n s x cutoff).
Proof using x_range cutoff_range.
  revert s. induction n as [|n IH]; intros s Hs; simpl; auto.
  apply IH, lowpass_range, Hs.
Qed.

Lemma lowpassRun_fixed n s :
  lowpass s x cutoff = s -> lowpassRun n s x cutoff = s.
Proof. intros H. induction n as [|n IH]; simpl; [|rewrite H]; auto. Qed.

Lemma lowpassRun_below n s :
  is_s16 s -> s <= x -> s <= lowpassRun n s x cutoff <= x.
Proof using x_range cutoff_range.
  revert s. induction n as [|n IH]; intros s Hs Hle; simpl; [lia|].
  pose proof (lowpass_from_below s Hs Hle).
  pose proof (IH _ (lowpass_range s Hs) ltac:(lia)). lia.
Qed.

Lemma lowpassRun_above n s :
  is_s16 s -> x <= s -> x <= lowpassRun n s x cutoff <= s.
Proof using x_range cutoff_range.
  revert s. induction n as [|n IH]; intros s Hs Hle; simpl; [lia|].
  destruct (Z.eq_dec s x) as [-> | Hne].
  - rewrite lowpass_fixed by (auto; lia).
    apply IH; auto; lia.
  - pose proof (lowpass_from_above s Hs ltac:(lia)).
    pose proof (IH _ (lowpass_range s Hs) ltac:(lia)). lia.
Qed.

(** From above, every step comes at least one unit closer, so the input is
    reached within [s - x] ticks. *)
Lemma lowpassRun_reaches_from_above k s :
  is_s16 s -> x <= s -> s - x <= Z.of_nat k -> lowpassRun k s x cutoff = x.
Proof using x_range cutoff_range.
  revert s. induction k as [|k IH]; intros s Hs Hle Hk; simpl; [lia|].
  destruct (Z.eq_dec s x) as [-> | Hne].
  - rewrite lowpass_fixed by (auto; lia). apply lowpassRun_fixed.
    apply lowpass_fixed; auto; lia.
  - pose proof (lowpass_from_above s Hs ltac:(lia)).
    apply IH; [apply lowpass_range, Hs | lia | lia].
Qed.

(** From below, every step that moves at all comes at least one unit
    closer, so a stalling state is reached within [x - s] ticks. *)
Lemma lowpassRun_settles_from_below k s :
  is_s16 s -> s <= x -> x - s <= Z.of_nat k ->
  0 <= (x - lowpassRun k s x cutoff) * cutoff < 4096.
Proof using x_range cutoff_range.
  revert s. induction k as [|k IH]; intros s Hs Hle Hk; simpl; [nia|].
  destruct (Z_lt_ge_dec ((x - s) * cutoff) 4096) as [Hstall | Hmove].
  - rewrite lowpass_fixed by (auto; nia).
    rewrite lowpassRun_fixed by (apply lowpass_fixed; auto; nia). nia.
  - pose proof (lowpass_progress s Hs ltac:(lia)).
    pose proof (lowpass_from_below s Hs Hle).
    apply IH; [apply lowpass_range, Hs | lia | lia].
Qed.

End Lowpass.

(** C3, amended.  For a constant 16-bit input [x], every cutoff in
    (0, 4095] and every 16-bit initial state, the state sequence of the
    lowpass update is monotone and stays between the initial state and [x];
    started at or above [x] it reaches [x] and stays there; started below
    [x] it settles on a state [s <= x] with [(x - s) * cutoff < 4096]. *)
Theorem lowpass_monotone_settles (x cutoff s0 : Z) :
  is_s16 x -> 0 < cutoff <= 4095 -> is_s16 s0 ->
  (s0 <= x ->
     (forall n, lowpassRun n s0 x cutoff <= lowpassRun (S n) s0 x cutoff <= x)
     /\ exists N, forall n, (N <= n)%nat ->
          lowpassRun n s0 x cutoff = lowpassRun N s0 x cutoff
          /\ 0 <= (x - lowpassRun n s0 x cutoff) * cutoff < 4096) /\
  (x <= s0 ->
     (forall n, x <= lowpassRun (S n) s0 x cutoff <= lowpassRun n s0 x cutoff)
     /\ exists N, forall n, (N <= n)%nat -> lowpassRun n s0 x cutoff = x).
Proof.
  intros Hx Hc Hs. split; intros Hle.
  - split.
    + intros n. rewrite lowpassRun_last.
      pose proof (lowpassRun_below x cutoff Hx Hc n s0 Hs Hle).
      apply lowpass_from_below; auto; [apply lowpassRun_range; auto | lia].
    + exists (Z.to_nat (x - s0)). intros n Hn.
      pose proof (lowpassRun_settles_from_below x cutoff Hx Hc
                    (Z.to_nat (x - s0)) s0 Hs Hle ltac:(lia)) as Hfix.
      replace n with (Z.to_nat (x - s0) + (n - Z.to_nat (x - s0)))%nat by lia.
      rewrite lowpassRun_add.
      rewrite lowpassRun_fixed
        by (apply lowpass_fixed; auto; apply lowpassRun_range; auto).
      auto.
  - split.
    + intros n. rewrite lowpassRun_last.
      pose proof (lowpassRun_above x cutoff Hx Hc n s0 Hs Hle) as Hn.
      pose proof (lowpassRun_range x cutoff Hx Hc n s0 Hs) as Hr.
      destruct (Z.eq_dec (lowpassRun n s0 x cutoff) x) as [E | Hne].
      * rewrite E, lowpass_fixed by (auto; lia). lia.
      * pose proof (lowpass_from_above x cutoff Hx Hc _ Hr ltac:(lia)). lia.
    + exists (Z.to_nat (s0 - x)). intros n Hn.
      replace n with (Z.to_nat (s0 - x) + (n - Z.to_nat (s0 - x)))%nat by lia.
      rewrite lowpassRun_add.
      rewrite (lowpassRun_reaches_from_above x cutoff Hx Hc
                 (Z.to_nat (s0 - x)) s0 Hs Hle ltac:(lia)).
      apply lowpassRun_fixed, lowpass_fixed; auto; lia.
Qed.

Lemma lowpass_monotone_settles_witness :
  is_s16 100 /\ 0 < 1200 <= 4095 /\ is_s16 200 /\ 100 <= 200 /\
  exists N, forall n, (N <= n)%nat -> lowpassRun n 200 100 1200 = 100.
Proof.
  assert (is_s16 100) as Hx by (unfold is_s16; lia).
  assert (0 < 1200 <= 4095) as Hc by lia.
  assert (is_s16 200) as Hs by (unfold is_s16; lia).
  assert (100 <= 200) as Hle by lia.
  repeat (split; [assumption|]).
  destruct (lowpass_monotone_settles 100 1200 200 Hx Hc Hs) as [_ Habove].
  exact (proj2 (Habove Hle)).
Defined.

(** C3 as stated fails from below: with input 100 and cutoff 1200 the state
    started at 0 stalls at 97, where the scaled difference 3 * 1200 is
    shifted out, and never reaches 100. *)
Lemma lowpass_stalls_below_input :
  is_s16 100 /\ 0 < 1200 <= 4095 /\ is_s16 0 /\
  (forall n, (12 <= n)%nat -> lowpassRun n 0 100 1200 = 97) /\
  ~ (exists N, forall n, (N <= n)%nat -> lowpassRun n 0 100 1200 = 100).
Proof.
  assert (forall n, (12 <= n)%nat -> lowpassRun n 0 100 1200 = 97) as Hstall.
  { intros n Hn. replace n with (12 + (n - 12))%nat by lia.
    rewrite lowpassRun_add. change (lowpassRun 12 0 100 1200) with 97.
    apply lowpassRun_fixed. reflexivity. }
  unfold is_s16. repeat split; try lia; [exact Hstall|].
  intros [N HN].
  specialize (HN (N + 12)%nat ltac:(lia)).
  rewrite Hstall in HN by lia. discriminate.
Qed.

(** ** Mutation engine *)

Lemma siren_only_refl w : siren_only w w.
Proof. unfold siren_only. auto 10. Qed.

Lemma siren_only_trans w1 w2 w3 :
  siren_only w1 w2 -> siren_only w2 w3 -> siren_only w1 w3.
Proof. unfold siren_only. intuition congruence. Qed.

Lemma siren_only_with_siren f w : siren_only w (with_siren f w).
Proof. unfold siren_only. simpl. auto 10. Qed.

Lemma generateMelody_frame w : siren_only w (generateMelody w).2.
Proof.
  unfold generateMelody, mbind, M_bind, gets. simpl.
  generalize (Siren.baseFreq (siren w)) as root.
  generalize (seqZ 0 (Siren.stepCount (siren w))) as l.
  intros l root. revert w. induction l as [|i l IH]; intros w; simpl.
  - apply siren_only_refl.
  - eapply siren_only_trans; [|apply IH]. apply siren_only_with_siren.
Qed.

Lemma pitchRetune_frame size w : siren_only w (pitchRetune size w).2.
Proof.
  unfold pitchRetune, mbind, M_bind, gets, modify, mret, M_ret. simpl.
  destruct (_ =? INST_DUB_SIREN); [apply siren_only_with_siren|].
  destruct (_ =? INST_RAY_GUN); [apply siren_only_with_siren|].
  pose proof (generateMelody_frame w) as Hm.
  destruct (generateMelody w) as [[] w1]. simpl in *.
  eapply siren_only_trans; [exact Hm|]. apply siren_only_with_siren.
Qed.

Lemma scaleSizeOf_cases scale :
  scaleSizeOf scale = 6 \/ scaleSizeOf scale = 7 \/ scaleSizeOf scale = 8
  \/ scaleSizeOf scale = 13.
Proof. unfold scaleSizeOf. repeat destruct (_ =? _); auto. Qed.

Lemma scaleSizeOf_pos scale : 0 < scaleSizeOf scale.
Proof. pose proof (scaleSizeOf_cases scale). lia. Qed.

(** The two clamps of the code, as one. *)
Lemma clamp_code_spec size x :
  0 < size ->
  (if size * 4 <=? (if x <? 0 then 0 else x) then size * 4 - 1
   else if x <? 0 then 0 else x)
  = clampStep size x.
Proof.
  intros H. unfold clampStep.
  destruct (Z.ltb_spec x 0);
    [destruct (Z.leb_spec (size * 4) 0) | destruct (Z.leb_spec (size * 4) x)];
    lia.
Qed.

Lemma pitchWalk_result size w :
  0 < size ->
  (pitchWalk size w).2
  = with_mutate
      (Mutate.with_pitchStep
         (u8 (clampStep size
                (Mutate.pitchStep (mutate w)
                 + pitchChange size (u8 (entropy w (drawn w) mod 100))
                     (entropy w (S (drawn w)) mod 2)))))
      (with_drawn (S (S (drawn w))) w).
Proof.
  intros Hsize.
  unfold pitchWalk, mbind, M_bind, gets, modify, random, mret, M_ret. simpl.
  set (r := u8 (entropy w (drawn w) mod 100)).
  set (s := entropy w (S (drawn w)) mod 2).
  unfold pitchChange, octaveTier, twoStepTier.
  destruct (Z.ltb_spec r 10) as [H10|H10];
    [|destruct (Z.ltb_spec r 40) as [H40|H40]]; simpl; fold s;
    rewrite clamp_code_spec by assumption;
    try (destruct (Z.leb_spec 10 r); [|lia]); reflexivity.
Qed.

Lemma mutatePitch_mutate w :
  mutate (exec mutatePitch w)
  = Mutate.with_pitchStep (u8 (pitchStepAfter w)) (mutate w).
Proof.
  pose proof (scaleSizeOf_pos (Mutate.currentScale (mutate w))) as Hsize.
  unfold mutatePitch, exec, mbind, M_bind, gets. simpl.
  pose proof (pitchWalk_result _ w Hsize) as Hwalk.
  destruct (pitchWalk _ w) as [[] w1]. simpl in Hwalk. subst w1.
  match goal with
  | |- mutate (pitchRetune ?size ?w1).2 = _ =>
      destruct (pitchRetune_frame size w1) as (Hm & _)
  end.
  rewrite Hm. reflexivity.
Qed.

Lemma pitchChange_cases size r s :
  0 < size -> 0 <= s < 2 ->
  (r < 10 -> Z.abs (pitchChange size r s) = size) /\
  (10 <= r < 40 -> Z.abs (pitchChange size r s) = 2) /\
  (40 <= r -> Z.abs (pitchChange size r s) = 1) /\
  (s = 0 -> 0 < pitchChange size r s) /\
  (s = 1 -> pitchChange size r s < 0).
Proof.
  intros Hsize Hs. unfold pitchChange, octaveTier, twoStepTier.
  destruct (Z.ltb_spec r 10); destruct (Z.leb_spec 10 r);
    destruct (Z.ltb_spec r 40); destruct (Z.eqb_spec s 0); simpl; lia.
Qed.

(** C7.  A pitch mutation draws [r] in [0, 100) and a sign [s] in [0, 2);
    the pitch step changes by a full scale length when [r < 10], by 2 when
    [10 <= r < 40] and by 1 otherwise, upwards for [s = 0] and downwards for
    [s = 1]; the result is clamped into [0, scaleSize * 4), where the pitch
    step therefore lies after every mutation.  Of the 100 values of [r], 10
    select the octave, 30 the two-step and 60 the one-step change. *)
Theorem mutatePitch_random_walk (w : Machine) :
  let size := scaleSizeOf (Mutate.currentScale (mutate w)) in
  let r := u8 (entropy w (drawn w) mod 100) in
  let s := entropy w (S (drawn w)) mod 2 in
  let step' := Mutate.pitchStep (mutate (exec mutatePitch w)) in
  (0 <= r < 100 /\ 0 <= s < 2) /\
  step' = clampStep size (Mutate.pitchStep (mutate w) + pitchChange size r s) /\
  (r < 10 -> Z.abs (pitchChange size r s) = size) /\
  (10 <= r < 40 -> Z.abs (pitchChange size r s) = 2) /\
  (40 <= r -> Z.abs (pitchChange size r s) = 1) /\
  (s = 0 -> 0 < pitchChange size r s) /\
  (s = 1 -> pitchChange size r s < 0) /\
  0 <= step' < size * 4 /\
  length (filter octaveTier (seqZ 0 100)) = 10%nat /\
  length (filter twoStepTier (seqZ 0 100)) = 30%nat /\
  length (filter oneStepTier (seqZ 0 100)) = 60%nat.
Proof.
  intros size r s step'.
  pose proof (scaleSizeOf_cases (Mutate.currentScale (mutate w))) as Hsize.
  fold size in Hsize.
  assert (0 <= r < 100) as Hr.
  { unfold r. rewrite u8_id; unfold is_u8; Z.div_mod_to_equations; lia. }
  assert (0 <= s < 2) as Hs by (unfold s; Z.div_mod_to_equations; lia).
  assert (step' = clampStep size
                    (Mutate.pitchStep (mutate w) + pitchChange size r s))
    as Hstep.
  { unfold step'. rewrite mutatePitch_mutate. simpl.
    apply u8_id. unfold pitchStepAfter, clampStep, is_u8. fold size. lia. }
  split; [auto|]. split; [exact Hstep|].
  destruct (pitchChange_cases size r s ltac:(lia) Hs) as (H1 & H2 & H3 & H4 & H5).
  repeat (split; [assumption|]).
  split; [rewrite Hstep; unfold clampStep; lia|].
  repeat split; reflexivity.
Qed.

Lemma mutateSpeed_lastMutateTime w :
  Mutate.lastMutateTime (mutate (exec mutateSpeed w))
  = Mutate.lastMutateTime (mutate w).
Proof.
  unfold mutateSpeed, exec, mbind, M_bind, gets, modify, random, mret, M_ret.
  simpl. destruct (_ =? INST_LEAD_SYNTH); reflexivity.
Qed.

Lemma mutateModulation_mutate w :
  mutate (exec mutateModulation w) = mutate w.
Proof.
  unfold mutateModulation, exec, mbind, M_bind, gets, modify, random, mret,
    M_ret.
  simpl. destruct (_ =? INST_DUB_SIREN); [reflexivity|].
  destruct (_ =? INST_RAY_GUN); reflexivity.
Qed.

Lemma exec_bind {A B} (m : M A) (k : A -> M B) w :
  exec (m ≫= k) w = exec (k (m w).1) (m w).2.
Proof. unfold exec, mbind, M_bind. destruct (m w). reflexivity. Qed.

Lemma triggerMutation_suppressed w :
  suppressed w -> triggerMutation w = (tt, w).
Proof.
  intros Hs. unfold triggerMutation, mbind, M_bind, gets, millis. simpl.
  destruct (Mutate.fullyDisabled (mutate w)) eqn:Hd; [reflexivity|].
  destruct Hs as [Hs | Hs]; [congruence|].
  destruct (Z.ltb_spec (u32 (u32 (clock w) - Mutate.lastMutateTime (mutate w)))
              100); [reflexivity | lia].
Qed.

Lemma keeps_time_bind m k :
  keeps_time m -> keeps_time k -> keeps_time (m ≫= λ _, k).
Proof.
  intros Hm Hk w. unfold mbind, M_bind.
  specialize (Hm w). destruct (m w) as [[] w1]. simpl in Hm.
  rewrite Hk. exact Hm.
Qed.

Lemma keeps_time_mutatePitch : keeps_time mutatePitch.
Proof. intros w. fold (exec mutatePitch w). now rewrite mutatePitch_mutate. Qed.

Lemma keeps_time_mutateSpeed : keeps_time mutateSpeed.
Proof. intros w. apply mutateSpeed_lastMutateTime. Qed.

Lemma keeps_time_mutateModulation : keeps_time mutateModulation.
Proof.
  intros w. fold (exec mutateModulation w). now rewrite mutateModulation_mutate.
Qed.

Lemma bind_gets {A B} (f : Machine -> A) (k : A -> M B) w :
  (gets f ≫= k) w = k (f w) w.
Proof. reflexivity. Qed.

Lemma bind_modify {B} (f : Machine -> Machine) (k : unit -> M B) w :
  (modify f ≫= k) w = k tt (f w).
Proof. reflexivity. Qed.

Lemma bind_ret {A B} (a : A) (k : A -> M B) w : (mret a ≫= k) w = k a w.
Proof. reflexivity. Qed.

Lemma keeps_time_ret : keeps_time (mret tt).
Proof. intros w. reflexivity. Qed.

Lemma triggerMutation_accepted w :
  ~ suppressed w ->
  Mutate.lastMutateTime (mutate (exec triggerMutation w)) = u32 (clock w).
Proof.
  intros Hs. unfold suppressed in Hs.
  unfold triggerMutation, exec, millis.
  rewrite bind_gets.
  destruct (Mutate.fullyDisabled (mutate w)) eqn:Hd; [tauto|].
  rewrite !bind_gets.
  destruct (Z.ltb_spec (u32 (u32 (clock w) - Mutate.lastMutateTime (mutate w)))
              100); [tauto|].
  rewrite bind_modify, bind_gets.
  set (w1 := with_mutate (Mutate.with_lastMutateTime (u32 (clock w))) w).
  assert (forall w2 : Machine,
            Mutate.lastMutateTime (mutate w2) = u32 (clock w) ->
            Mutate.lastMutateTime
              (mutate
                 ((gets lastActiveMutateMode ≫= λ active : Z,
                     if active =? MUTATE_AMOUNT then mutatePitch
                     else if active =? MUTATE_RHYTHM
                          then mutatePitch ≫= λ _ : (), mutateSpeed
                     else if active =? MUTATE_CUTOFF
                          then mutatePitch ≫= λ _ : (),
                               mutateSpeed ≫= λ _ : (), mutateModulation
                     else mret ()) w2).2) = u32 (clock w)) as Htail.
  { intros w2 <-. rewrite bind_gets.
    repeat destruct (_ =? _);
      repeat first [apply keeps_time_mutatePitch | apply keeps_time_mutateSpeed
                   | apply keeps_time_mutateModulation | apply keeps_time_ret
                   | apply keeps_time_bind]. }
  destruct (negb _).
  - rewrite bind_modify. apply Htail. reflexivity.
  - rewrite bind_ret. apply Htail. reflexivity.
Qed.

(** C10.  [triggerMutation] is rate limited, and a suppressed call changes
    nothing: called while mutations are fully disabled, or fewer than 100 ms
    after the last accepted mutation, it returns with the whole state (the
    mutation state, pitch, speed and modulation parameters, and the random
    generator) unchanged.  An accepted call stamps the clock value, so a
    call within the following 100 ms is suppressed: two mutations never take
    effect less than 100 ms apart. *)
Theorem triggerMutation_rate_limited (w : Machine) :
  (suppressed w -> triggerMutation w = (tt, w)) /\
  (~ suppressed w ->
     Mutate.lastMutateTime (mutate (exec triggerMutation w)) = u32 (clock w)
     /\ forall w2 : Machine,
          Mutate.lastMutateTime (mutate w2)
          = Mutate.lastMutateTime (mutate (exec triggerMutation w)) ->
          clock w <= clock w2 < clock w + 100 ->
          triggerMutation w2 = (tt, w2)).
Proof.
  split; [apply triggerMutation_suppressed|].
  intros Hacc. pose proof (triggerMutation_accepted w Hacc) as Hstamp.
  split; [exact Hstamp|].
  intros w2 Hlast Hclock. apply triggerMutation_suppressed. right.
  rewrite Hlast, Hstamp. unfold u32.
  rewrite Zminus_mod_idemp_l, Zminus_mod_idemp_r.
  rewrite Z.mod_small by lia. lia.
Qed.

Lemma triggerMutation_rate_limited_witness :
  suppressed (bootMachine (fun _ => 0) 50) /\
  triggerMutation (bootMachine (fun _ => 0) 50)
  = (tt, bootMachine (fun _ => 0) 50) /\
  ~ suppressed (bootMachine (fun _ => 0) 500) /\
  Mutate.lastMutateTime
    (mutate (exec triggerMutation (bootMachine (fun _ => 0) 500)))
  = u32 500.
Proof.
  assert (suppressed (bootMachine (fun _ => 0) 50)) as H1
    by (right; reflexivity).
  assert (~ suppressed (bootMachine (fun _ => 0) 500)) as H2
    by (intros [H | H]; [discriminate H | vm_compute in H; discriminate H]).
  split; [exact H1|].
  split; [exact (proj1 (triggerMutation_rate_limited _) H1)|].
  split; [exact H2|].
  exact (proj1 (proj2 (triggerMutation_rate_limited _) H2)).
Defined.

(** ** Sequencer *)

Lemma next_step_range n : 0 <= n -> 0 <= u8 (Z.rem (n + 1) 8) < 8.
Proof.
  intros H. pose proof (Z.rem_bound_pos (n + 1) 8 ltac:(lia) ltac:(lia)).
  rewrite u8_id by (unfold is_u8; lia). lia.
Qed.

Lemma next_step_mod n : 0 <= n -> u8 (Z.rem (n + 1) 8) = (n + 1) mod 8.
Proof.
  intros H. pose proof (Z.rem_bound_pos (n + 1) 8 ltac:(lia) ltac:(lia)).
  rewrite u8_id by (unfold is_u8; lia). apply Z.rem_mod_nonneg; lia.
Qed.

(** What the skip loop guarantees when it is given as many iterations as its
    own bound still allows: it stops through its condition, on an enabled
    step or after eight probes, and every step it passed is disabled. *)
Lemma skipDisabled_spec q fuel n c :
  0 <= n < 8 -> 0 <= c -> Z.of_nat fuel + c = 8 ->
  let '(n', c') := skipDisabled fuel q n c in
  0 <= n' < 8 /\ c <= c' <= 8 /\
  (enabled q n' = true \/ c' = 8) /\
  n' = (n + (c' - c)) mod 8 /\
  forall j, 0 <= j < c' - c -> enabled q ((n + j) mod 8) = false.
Proof.
  revert n c. induction fuel as [|fuel IH]; intros n c Hn Hc Hsum.
  - simpl. assert (c = 8) as -> by lia.
    rewrite andb_false_r.
    split; [lia|]. split; [lia|]. split; [auto|].
    split; [rewrite Z.sub_diag, Z.add_0_r, Z.mod_small; lia|].
    intros j Hj. lia.
  - simpl. destruct (enabled q n) eqn:He; simpl.
    + split; [lia|]. split; [lia|]. split; [auto|].
      split; [rewrite Z.sub_diag, Z.add_0_r, Z.mod_small; lia|].
      intros j Hj. lia.
    + destruct (Z.ltb_spec c 8) as [Hlt|Hge]; [|lia].
      rewrite (u8_id (c + 1)) by (unfold is_u8; lia).
      specialize (IH (u8 (Z.rem (n + 1) 8)) (c + 1)
                    (next_step_range n ltac:(lia)) ltac:(lia) ltac:(lia)).
      destruct (skipDisabled fuel q _ _) as [n' c'].
      destruct IH as (Hn' & Hc' & Hstop & Hpos & Hrun).
      rewrite next_step_mod in Hpos, Hrun by lia.
      split; [lia|]. split; [lia|]. split; [auto|].
      split.
      * rewrite Hpos. rewrite Zplus_mod_idemp_l. f_equal. lia.
      * intros j Hj. destruct (Z.eq_dec j 0) as [-> | Hj0].
        -- rewrite Z.add_0_r, Z.mod_small by lia. exact He.
        -- specialize (Hrun (j - 1) ltac:(lia)).
           rewrite Zplus_mod_idemp_l in Hrun.
           replace (n + 1 + (j - 1)) with (n + j) in Hrun by lia. exact Hrun.
Qed.

Lemma advanceStep_enabled t q i : enabled (advanceStep t q) i = enabled q i.
Proof.
  unfold advanceStep. destruct (skipDisabled _ _ _ _) as [n c].
  destruct (enabled q n); reflexivity.
Qed.

(** With some step enabled, an advance lands on an enabled step and starts
    its note. *)
Lemma advanceStep_lands t q i :
  0 <= Sequencer.currentStep q -> 0 <= i < 8 -> enabled q i = true ->
  enabled q (Sequencer.currentStep (advanceStep t q)) = true
  /\ Sequencer.noteActive (advanceStep t q) = true
  /\ Sequencer.noteStartTime (advanceStep t q) = t.
Proof.
  intros Hcur Hi Hen. unfold advanceStep.
  pose proof (skipDisabled_spec q 8 (u8 (Z.rem (Sequencer.currentStep q + 1) 8))
                0 (next_step_range _ Hcur) ltac:(lia) ltac:(lia)) as Hspec.
  destruct (skipDisabled _ _ _ _) as [n c].
  destruct Hspec as (Hn & Hc & Hstop & _ & Hrun).
  destruct (enabled q n) eqn:He; [simpl; auto|].
  destruct Hstop as [? | ->]; [congruence|].
  set (n0 := u8 (Z.rem (Sequencer.currentStep q + 1) 8)) in *.
  specialize (Hrun ((i - n0) mod 8) ltac:(Z.div_mod_to_equations; lia)).
  rewrite Zplus_mod_idemp_r in Hrun.
  replace (n0 + (i - n0)) with i in Hrun by lia.
  rewrite Z.mod_small in Hrun by lia. congruence.
Qed.

(** With every step disabled, an advance leaves no note active. *)
Lemma advanceStep_starved t q :
  0 <= Sequencer.currentStep q ->
  (forall i, 0 <= i < 8 -> enabled q i = false) ->
  Sequencer.noteActive (advanceStep t q) = false.
Proof.
  intros Hcur Hall. unfold advanceStep.
  pose proof (skipDisabled_spec q 8 (u8 (Z.rem (Sequencer.currentStep q + 1) 8))
                0 (next_step_range _ Hcur) ltac:(lia) ltac:(lia)) as Hspec.
  destruct (skipDisabled _ _ _ _) as [n c].
  destruct Hspec as (Hn & _).
  rewrite (Hall n Hn). reflexivity.
Qed.

(** A disabled current step is silent, and the stage does not touch the
    step switches or the step position. *)
Lemma sequencerStage_disabled t lfo q :
  enabled q (Sequencer.currentStep q) = false ->
  (sequencerStage t lfo q).2 = 0
  /\ Sequencer.stepEnabled (sequencerStage t lfo q).1 = Sequencer.stepEnabled q
  /\ Sequencer.currentStep (sequencerStage t lfo q).1 = Sequencer.currentStep q.
Proof.
  intros He. unfold sequencerStage.
  destruct (_ <=? _); unfold enabled in *; simpl; rewrite He; simpl; auto.
Qed.

Lemma sequencerStage_inactive t lfo q :
  Sequencer.noteActive q = false ->
  (sequencerStage t lfo q).2 = 0
  /\ Sequencer.noteActive (sequencerStage t lfo q).1 = false.
Proof.
  intros He. unfold sequencerStage.
  destruct (_ <=? _); simpl; rewrite ?He, andb_false_r; simpl; auto.
Qed.

Lemma sequencerOutputs_disabled lfo times q :
  enabled q (Sequencer.currentStep q) = false ->
  Forall (fun sample => sample = 0) (sequencerOutputs lfo times q).
Proof.
  revert q. induction times as [|t times IH]; intros q He; simpl.
  - constructor.
  - destruct (sequencerStage_disabled t lfo q He) as (Hout & Hsw & Hcur).
    destruct (sequencerStage t lfo q) as [q' sample]. simpl in *.
    constructor; [exact Hout|]. apply IH.
    unfold enabled in *. rewrite Hsw, Hcur. exact He.
Qed.

Lemma advanceStep_step_range t q :
  0 <= Sequencer.currentStep q < 8 ->
  0 <= Sequencer.currentStep (advanceStep t q) < 8.
Proof.
  intros Hcur. unfold advanceStep.
  pose proof (skipDisabled_spec q 8 (u8 (Z.rem (Sequencer.currentStep q + 1) 8))
                0 (next_step_range (Sequencer.currentStep q) ltac:(lia))
                ltac:(lia) ltac:(lia)) as Hspec.
  destruct (skipDisabled _ _ _ _) as [n c].
  destruct Hspec as (Hn & _).
  destruct (enabled q n); simpl; lia.
Qed.

Lemma skipDisabled_ext q1 q2 fuel n c :
  (forall i, enabled q1 i = enabled q2 i) ->
  skipDisabled fuel q1 n c = skipDisabled fuel q2 n c.
Proof.
  intros Hext. revert n c. induction fuel as [|fuel IH]; intros n c; simpl;
    rewrite Hext; [reflexivity|].
  destruct (negb (enabled q2 n) && (c <? 8)); [apply IH | reflexivity].
Qed.

Lemma advanceDue_spec sync edge t q :
  advanceDue sync edge t q = true <->
  (sync = true /\ edge = true)
  \/ (sync = false
      /\ Sequencer.stepInterval q <= u32 (t - Sequencer.lastStepTime q)).
Proof.
  unfold advanceDue.
  destruct sync, edge; simpl;
    try destruct (Z.leb_spec (Sequencer.stepInterval q)
                    (u32 (t - Sequencer.lastStepTime q)));
    intuition (try congruence; try lia).
Qed.

(** C5.  The running sequencer advances on a sync rising edge when sync is
    connected, else on the internal [stepInterval] timer, and not otherwise.
    An advance stamps the step timer and probes at most 8 successor steps,
    skipping disabled ones: the skip loop ends through its own condition
    after [stepsChecked] skipped steps, all of them disabled, on the step
    [(currentStep + 1 + stepsChecked) mod 8].  If that step is enabled the
    sequencer moves to it and starts its note at the clock value of the
    advance; if not it stays on its step with no note.  So after the advance
    either the current step is enabled and a note is active, or, when all 8
    steps are disabled, no note is active and the sequencer's output is 0 on
    every tick. *)
Theorem sequencer_advance_invariant
    (syncConnected syncRisingEdge : bool) (t : Z) (q : Sequencer.t) :
  0 <= Sequencer.currentStep q < 8 ->
  Sequencer.running q = true ->
  let q' := sequencerAdvance syncConnected syncRisingEdge t q in
  (advanceDue syncConnected syncRisingEdge t q = true <->
     (syncConnected = true /\ syncRisingEdge = true)
     \/ (syncConnected = false
         /\ Sequencer.stepInterval q
            <= u32 (t - Sequencer.lastStepTime q))) /\
  (advanceDue syncConnected syncRisingEdge t q = false -> q' = q) /\
  0 <= Sequencer.currentStep q' < 8 /\
  (advanceDue syncConnected syncRisingEdge t q = true ->
     (let '(nextStep, stepsChecked) :=
        skipDisabled 8 q (u8 (Z.rem (Sequencer.currentStep q + 1) 8)) 0 in
      0 <= stepsChecked <= 8
      /\ (enabled q nextStep = true \/ stepsChecked = 8)
      /\ nextStep = (Sequencer.currentStep q + 1 + stepsChecked) mod 8
      /\ (forall j, 0 <= j < stepsChecked ->
            enabled q ((Sequencer.currentStep q + 1 + j) mod 8) = false)
      /\ Sequencer.currentStep q'
         = (if enabled q nextStep then nextStep
            else Sequencer.currentStep q)
      /\ Sequencer.noteActive q'
         = (if enabled q nextStep then true else false)
      /\ Sequencer.noteStartTime q'
         = (if enabled q nextStep then t else Sequencer.noteStartTime q)) /\
     Sequencer.lastStepTime q' = t /\
     Sequencer.stepEnabled q' = Sequencer.stepEnabled q /\
     ((exists i, 0 <= i < 8 /\ enabled q i = true) ->
        enabled q' (Sequencer.currentStep q') = true
        /\ Sequencer.noteActive q' = true
        /\ Sequencer.noteStartTime q' = t
        /\ exists k,
             0 <= k < 8
             /\ Sequencer.currentStep q'
                = (Sequencer.currentStep q + 1 + k) mod 8
             /\ forall j, 0 <= j < k ->
                  enabled q ((Sequencer.currentStep q + 1 + j) mod 8)
                  = false) /\
     ((forall i, 0 <= i < 8 -> enabled q i = false) ->
        Sequencer.currentStep q' = Sequencer.currentStep q
        /\ Sequencer.noteActive q' = false
        /\ forall lfo2Modulation times,
             Forall (fun sample => sample = 0)
                    (sequencerOutputs lfo2Modulation times q'))).
Proof.
  intros Hcur Hrun q'.
  split; [apply advanceDue_spec|].
  unfold q', sequencerAdvance. rewrite Hrun.
  split; [intros ->; reflexivity|].
  split.
  { destruct (advanceDue _ _ _ _); [|lia].
    apply advanceStep_step_range. simpl. lia. }
  intros ->. unfold advanceStep.
  set (q1 := Sequencer.with_lastStepTime t q).
  change (Sequencer.currentStep q1) with (Sequencer.currentStep q).
  rewrite (skipDisabled_ext q1 q) by reflexivity.
  change (enabled q1) with (enabled q).
  set (n0 := u8 (Z.rem (Sequencer.currentStep q + 1) 8)).
  assert (n0 = (Sequencer.currentStep q + 1) mod 8) as Hn0
    by (apply next_step_mod; lia).
  pose proof (skipDisabled_spec q 8 n0 0
                (next_step_range (Sequencer.currentStep q) ltac:(lia))
                ltac:(lia) ltac:(lia)) as Hs.
  destruct (skipDisabled 8 q n0 0) as [n c].
  destruct Hs as (Hn & Hc & Hstop & Hpos & Hskip).
  rewrite Z.sub_0_r in Hpos, Hskip.
  assert (n = (Sequencer.currentStep q + 1 + c) mod 8) as Hland
    by (rewrite Hpos, Hn0, Zplus_mod_idemp_l; reflexivity).
  assert (forall j, 0 <= j < c ->
            enabled q ((Sequencer.currentStep q + 1 + j) mod 8) = false)
    as Hskipped.
  { intros j Hj. specialize (Hskip j Hj).
    rewrite Hn0, Zplus_mod_idemp_l in Hskip. exact Hskip. }
  split.
  { split; [lia|]. split; [exact Hstop|]. split; [exact Hland|].
    split; [exact Hskipped|].
    destruct (enabled q n); repeat split; reflexivity. }
  split; [destruct (enabled q n); reflexivity|].
  split; [destruct (enabled q n); reflexivity|].
  split.
  - intros (i & Hi & Hen).
    assert (enabled q n = true /\ c < 8) as [Henn Hc8].
    { destruct (Z.eq_dec c 8) as [-> | Hne].
      - exfalso. specialize (Hskip ((i - n0) mod 8)
                               ltac:(Z.div_mod_to_equations; lia)).
        rewrite Zplus_mod_idemp_r in Hskip.
        replace (n0 + (i - n0)) with i in Hskip by lia.
        rewrite Z.mod_small in Hskip by lia. congruence.
      - destruct Hstop as [? | ?]; [split; [assumption | lia] | lia]. }
    rewrite Henn.
    cbn [Sequencer.currentStep Sequencer.startNote Sequencer.noteActive
         Sequencer.noteStartTime].
    split; [exact Henn|]. split; [reflexivity|]. split; [reflexivity|].
    exists c. split; [lia|]. split; [exact Hland | exact Hskipped].
  - intros Hall. rewrite (Hall n Hn).
    split; [reflexivity|]. split; [reflexivity|].
    intros lfo times. apply sequencerOutputs_disabled.
    apply (Hall (Sequencer.currentStep q) Hcur).
Qed.

Lemma sequencer_advance_invariant_witness :
  let q := toggleRunning 0 Sequencer.init in
  let q' := sequencerAdvance false false 250 q in
  0 <= Sequencer.currentStep q < 8 /\ Sequencer.running q = true /\
  advanceDue false false 250 q = true /\
  (exists i, 0 <= i < 8 /\ enabled q i = true) /\
  enabled q' (Sequencer.currentStep q') = true /\
  Sequencer.noteActive q' = true /\
  Sequencer.lastStepTime q' = 250.
Proof.
  intros q q'.
  assert (0 <= Sequencer.currentStep q < 8) as Hcur by (simpl; lia).
  assert (Sequencer.running q = true) as Hrun by reflexivity.
  assert (advanceDue false false 250 q = true) as Hdue by reflexivity.
  assert (exists i, 0 <= i < 8 /\ enabled q i = true) as Hen
    by (exists 3; split; [lia | reflexivity]).
  split; [exact Hcur|]. split; [exact Hrun|]. split; [exact Hdue|].
  split; [exact Hen|].
  destruct (sequencer_advance_invariant false false 250 q Hcur Hrun)
    as (_ & _ & _ & Hadv).
  destruct (Hadv Hdue) as (_ & Htime & _ & Hland & _).
  destruct (Hland Hen) as (He & Hnote & _).
  split; [exact He|]. split; [exact Hnote | exact Htime].
Defined.

(** ** Recorder *)

Lemma playbackStage_idle r :
  Recorder.playing r = false -> playbackStage r = (r, 0, false).
Proof. intros H. unfold playbackStage. now rewrite H. Qed.

(** One tick while recording, below capacity. *)
Lemma recorderTick_recording r x :
  Recorder.recording r = true -> Recorder.playing r = false ->
  0 <= Recorder.recordPosition r < MAX_RECORD_SAMPLES ->
  let r' := recorderTick r x in
  Recorder.buffer r'
  = <[Z.to_nat (Recorder.recordPosition r) := x]> (Recorder.buffer r)
  /\ Recorder.recordPosition r' = Recorder.recordPosition r + 1
  /\ Recorder.playing r' = false
  /\ (Recorder.recordPosition r + 1 < MAX_RECORD_SAMPLES ->
        Recorder.recording r' = true
        /\ Recorder.hasRecording r' = Recorder.hasRecording r
        /\ Recorder.recordLength r' = Recorder.recordLength r)
  /\ (Recorder.recordPosition r + 1 = MAX_RECORD_SAMPLES ->
        Recorder.recording r' = false
        /\ Recorder.hasRecording r' = true
        /\ Recorder.recordLength r' = MAX_RECORD_SAMPLES).
Proof.
  intros Hrec Hplay Hpos. unfold recorderTick.
  rewrite playbackStage_idle by assumption. simpl.
  unfold recordStage. rewrite Hrec.
  destruct (Z.ltb_spec (Recorder.recordPosition r) MAX_RECORD_SAMPLES); [|lia].
  simpl.
  rewrite u32_id by (unfold is_u32, MAX_RECORD_SAMPLES in *; lia).
  destruct (Z.leb_spec MAX_RECORD_SAMPLES (Recorder.recordPosition r + 1));
    simpl; repeat split; auto; lia.
Qed.

(** A tick of a recorder that neither records nor plays changes nothing. *)
Lemma recorderTick_stopped r x :
  Recorder.recording r = false -> Recorder.playing r = false ->
  recorderTick r x = r.
Proof.
  intros Hrec Hplay. unfold recorderTick.
  rewrite playbackStage_idle by assumption. simpl.
  unfold recordStage. now rewrite Hrec.
Qed.

Lemma recorderRun_stopped xs r :
  Recorder.recording r = false -> Recorder.playing r = false ->
  recorderRun xs r = r.
Proof.
  intros Hrec Hplay. induction xs as [|x xs IH]; simpl; [reflexivity|].
  unfold recorderRun in *. simpl. rewrite recorderTick_stopped; auto.
Qed.

Lemma recorderRun_app xs ys r :
  recorderRun (xs ++ ys) r = recorderRun ys (recorderRun xs r).
Proof. unfold recorderRun. apply foldl_app. Qed.

(** While it records, the recorder appends the samples one per tick. *)
Lemma recorderRun_fill xs r :
  Recorder.recording r = true -> Recorder.playing r = false ->
  0 <= Recorder.recordPosition r < MAX_RECORD_SAMPLES ->
  Recorder.recordPosition r + Z.of_nat (length xs) <= MAX_RECORD_SAMPLES ->
  Z.of_nat (length (Recorder.buffer r)) = MAX_RECORD_SAMPLES ->
  let r' := recorderRun xs r in
  Recorder.recordPosition r'
  = Recorder.recordPosition r + Z.of_nat (length xs)
  /\ length (Recorder.buffer r') = length (Recorder.buffer r)
  /\ (forall k x, xs !! k = Some x ->
        Recorder.buffer r' !! (Z.to_nat (Recorder.recordPosition r) + k)%nat
        = Some x)
  /\ (forall j, (j < Z.to_nat (Recorder.recordPosition r))%nat ->
        Recorder.buffer r' !! j = Recorder.buffer r !! j)
  /\ Recorder.playing r' = false
  /\ (Recorder.recordPosition r + Z.of_nat (length xs) < MAX_RECORD_SAMPLES ->
        Recorder.recording r' = true
        /\ Recorder.hasRecording r' = Recorder.hasRecording r
        /\ Recorder.recordLength r' = Recorder.recordLength r)
  /\ (Recorder.recordPosition r + Z.of_nat (length xs) = MAX_RECORD_SAMPLES ->
        Recorder.recording r' = false
        /\ Recorder.hasRecording r' = true
        /\ Recorder.recordLength r' = MAX_RECORD_SAMPLES).
Proof.
  revert r. induction xs as [|x xs IH]; intros r Hrec Hplay Hpos Hfit Hlen.
  - simpl. repeat split; auto; try lia. intros k x Hk. discriminate Hk.
  - simpl in Hfit. 
    destruct (recorderTick_recording r x Hrec Hplay Hpos)
      as (Hbuf & Hp & Hpl & Hgo & Hstop).
    change (recorderRun (x :: xs) r) with (recorderRun xs (recorderTick r x)).
    set (r1 := recorderTick r x) in *.
    assert (length (Recorder.buffer r1) = length (Recorder.buffer r)) as Hlen1
      by (rewrite Hbuf; apply length_insert).
    assert (Recorder.buffer r1 !! Z.to_nat (Recorder.recordPosition r) = Some x)
      as Hx by (rewrite Hbuf; apply list_lookup_insert_eq; lia).
    destruct (Z_lt_ge_dec (Recorder.recordPosition r + 1) MAX_RECORD_SAMPLES)
      as [Hlt | Hge].
    + destruct (Hgo Hlt) as (Hrec1 & Hhas1 & Hlen1').
      specialize (IH r1 Hrec1 Hpl ltac:(lia) ltac:(lia) ltac:(lia)).
      cbv zeta in IH. destruct IH as (IHp & IHl & IHx & IHj & IHpl & IHgo & IHstop).
      split; [rewrite IHp, Hp; simpl length; lia|].
      split; [congruence|].
      split.
      { intros [|k] y Hk; simpl in Hk.
        - injection Hk as <-. rewrite Nat.add_0_r, IHj by lia. exact Hx.
        - rewrite <- (IHx k y Hk). f_equal. lia. }
      split.
      { intros j Hj. rewrite IHj by lia. rewrite Hbuf.
        apply list_lookup_insert_ne. lia. }
      split; [exact IHpl|].
      split.
      { intros H. destruct (IHgo ltac:(simpl length in H; lia)) as (? & ? & ?).
        repeat split; congruence. }
      { intros H. apply IHstop. simpl length in H. lia. }
    + assert (xs = []) as -> by (destruct xs; [reflexivity | simpl in Hfit; lia]).
      destruct (Hstop ltac:(lia)) as (Hrec1 & Hhas1 & Hl1).
      change (recorderRun [] r1) with r1.
      split; [simpl length; lia|]. split; [exact Hlen1|].
      split.
      { intros [|k] y Hk; simpl in Hk; [|discriminate Hk].
        injection Hk as <-. rewrite Nat.add_0_r. exact Hx. }
      split.
      { intros j Hj. rewrite Hbuf. apply list_lookup_insert_ne. lia. }
      split; [exact Hpl|].
      split; [simpl length; lia|]. auto.
Qed.

Lemma startRecording_idle r0 :
  Recorder.recording r0 = false -> Recorder.playing r0 = false ->
  Recorder.hasRecording r0 = false ->
  let r := startRecording r0 in
  Recorder.recording r = true /\ Recorder.playing r = false
  /\ Recorder.recordPosition r = 0
  /\ Recorder.buffer r = Recorder.buffer r0.
Proof.
  intros H1 H2 H3. unfold startRecording. rewrite H1, H2, H3. simpl. auto.
Qed.

(** C6.  From the start of a recording, each audio tick appends exactly one
    sample of the final mixed signal at the write position and moves the
    position by one; the tick that brings the position to 110,250 stops the
    recording with [hasRecording = true] and [recordLength = 110250], the
    buffer then holds the 110,250 samples, and ticks after that write
    nothing. *)
Theorem recorder_fills_and_stops (r0 : Recorder.t) (xs ys : list Z) :
  Recorder.recording r0 = false -> Recorder.playing r0 = false ->
  Recorder.hasRecording r0 = false ->
  Z.of_nat (length (Recorder.buffer r0)) = MAX_RECORD_SAMPLES ->
  Z.of_nat (length xs) = MAX_RECORD_SAMPLES ->
  let r := startRecording r0 in
  (forall n x, xs !! n = Some x ->
     let rn := recorderRun (take n xs) r in
     Recorder.recording rn = true
     /\ Recorder.recordPosition rn = Z.of_nat n
     /\ Recorder.buffer (recorderTick rn x)
        = <[n := x]> (Recorder.buffer rn)
     /\ Recorder.recordPosition (recorderTick rn x) = Z.of_nat n + 1) /\
  let r' := recorderRun xs r in
  Recorder.recording r' = false /\ Recorder.hasRecording r' = true /\
  Recorder.recordLength r' = 110250 /\ Recorder.recordPosition r' = 110250 /\
  Recorder.buffer r' = xs /\
  recorderRun (xs ++ ys) r = r'.
Proof.
  intros Hrec0 Hplay0 Hhas0 Hlen Hxs r.
  destruct (startRecording_idle r0 Hrec0 Hplay0 Hhas0)
    as (Hrec & Hplay & Hpos & Hbuf).
  fold r in Hrec, Hplay, Hpos, Hbuf.
  assert (0 <= Recorder.recordPosition r < MAX_RECORD_SAMPLES) as Hrange
    by (rewrite Hpos; unfold MAX_RECORD_SAMPLES; lia).
  assert (Z.of_nat (length (Recorder.buffer r)) = MAX_RECORD_SAMPLES) as Hlen'
    by (rewrite Hbuf; exact Hlen).
  split.
  - intros n x Hn rn.
    pose proof (lookup_lt_Some _ _ _ Hn) as Hlt.
    destruct (recorderRun_fill (take n xs) r Hrec Hplay Hrange
                ltac:(rewrite length_take; lia) Hlen')
      as (Hp & _ & _ & _ & Hpl & Hgo & _).
    rewrite length_take, Hpos in Hp, Hgo. fold rn in Hp, Hpl, Hgo.
    destruct (Hgo ltac:(lia)) as (Hrecn & _).
    assert (Recorder.recordPosition rn = Z.of_nat n) as Hpn by lia.
    destruct (recorderTick_recording rn x Hrecn Hpl ltac:(lia))
      as (Hb & Hp' & _).
    rewrite Hpn, Nat2Z.id in Hb. rewrite Hpn in Hp'. auto.
  - intros r'.
    destruct (recorderRun_fill xs r Hrec Hplay Hrange ltac:(lia) Hlen')
      as (Hp & Hl & Hx & _ & Hpl & _ & Hstop).
    fold r' in Hp, Hl, Hx, Hpl, Hstop.
    destruct (Hstop ltac:(lia)) as (Hrec' & Hhas' & Hlen'').
    rewrite Hpos in Hp, Hx. simpl in Hx.
    split; [exact Hrec'|]. split; [exact Hhas'|].
    split; [exact Hlen''|].
    split; [rewrite Hp; unfold MAX_RECORD_SAMPLES in Hxs; lia|].
    split.
    + apply list_eq. intros k.
      destruct (xs !! k) as [x|] eqn:Hk; [apply Hx; exact Hk|].
      apply lookup_ge_None. apply lookup_ge_None in Hk. lia.
    + rewrite recorderRun_app. apply recorderRun_stopped; assumption.
Qed.

Lemma recorder_fills_and_stops_witness :
  let xs := replicate (Z.to_nat MAX_RECORD_SAMPLES) 7 in
  Recorder.recording Recorder.init = false /\
  Recorder.playing Recorder.init = false /\
  Recorder.hasRecording Recorder.init = false /\
  Z.of_nat (length (Recorder.buffer Recorder.init)) = MAX_RECORD_SAMPLES /\
  Z.of_nat (length xs) = MAX_RECORD_SAMPLES /\
  Recorder.recordLength (recorderRun xs (startRecording Recorder.init))
  = 110250 /\
  recorderRun (xs ++ [9]) (startRecording Recorder.init)
  = recorderRun xs (startRecording Recorder.init).
Proof.
  intros xs.
  assert (Z.of_nat (length (Recorder.buffer Recorder.init))
          = MAX_RECORD_SAMPLES) as Hbuf
    by (unfold Recorder.init; cbn [Recorder.buffer];
        rewrite length_replicate, Z2Nat.id by lia; reflexivity).
  assert (Z.of_nat (length xs) = MAX_RECORD_SAMPLES) as Hxs
    by (unfold xs; rewrite length_replicate, Z2Nat.id
          by (unfold MAX_RECORD_SAMPLES; lia); reflexivity).
  split; [reflexivity|]. split; [reflexivity|]. split; [reflexivity|].
  split; [exact Hbuf|]. split; [exact Hxs|].
  destruct (recorder_fills_and_stops Recorder.init xs [9]
              eq_refl eq_refl eq_refl Hbuf Hxs)
    as (_ & _ & _ & Hlen & _ & _ & Hstop).
  split; [exact Hlen | exact Hstop].
Defined.

(** ** Scale quantizer *)

Lemma allZ_spec f lo n :
  allZ f lo n = true -> forall i, lo <= i < lo + Z.of_nat n -> f i = true.
Proof.
  unfold allZ. rewrite forallb_forall. intros H i Hi.
  apply H. apply list_elem_of_In, elem_of_seqZ. lia.
Qed.

Lemma same_eq x y : F32.same x y = true -> x = y.
Proof.
  destruct x as [s1|s1| |s1 m1 e1], y as [s2|s2| |s2 m2 e2]; simpl;
    try discriminate; try reflexivity.
  - intros H. apply Bool.eqb_prop in H. congruence.
  - intros H. apply Bool.eqb_prop in H. congruence.
  - rewrite !andb_true_iff. intros [[Hs Hm] He].
    apply Bool.eqb_prop in Hs. apply Pos.eqb_eq in Hm.
    apply Z.eqb_eq in He. congruence.
Qed.

(** What the computed check of a scale says, step by step. *)
Lemma scaleStepOk_spec scale size s :
  scaleStepOk scale size s = true ->
  (s + 1 <= 255 -> s / size <= 30 -> s / size = (s + 1) / size ->
     F32.leb (scaleNoteFrequency scale size s)
             (scaleNoteFrequency scale size (s + 1)) = true) /\
  (s + size <= 255 -> (s + size) / size <= 30 ->
     scaleNoteFrequency scale size (s + size)
     = F32.mul (F32.of_int 2) (scaleNoteFrequency scale size s)
     /\ F32.doubles (scaleNoteFrequency scale size s)
                    (scaleNoteFrequency scale size (s + size)) = true).
Proof.
  unfold scaleStepOk. rewrite andb_true_iff. intros [Hmono Hdouble]. split.
  - intros H1 H2 H3.
    destruct (Z.leb_spec (s + 1) 255); [|lia].
    destruct (Z.leb_spec (s / size) 30); [|lia].
    destruct (Z.eqb_spec (s / size) ((s + 1) / size)); [|lia].
    exact Hmono.
  - intros H1 H2.
    destruct (Z.leb_spec (s + size) 255); [|lia].
    destruct (Z.leb_spec ((s + size) / size) 30); [|lia].
    simpl in Hdouble. apply andb_true_iff in Hdouble as [Hsame Hd].
    split; [apply same_eq, Hsame | exact Hd].
Qed.

Lemma minorPentatonic_ok : allZ (scaleStepOk minorPentatonic 6) 0 256 = true.
Proof. vm_compute. reflexivity. Qed.

Lemma majorScale_ok : allZ (scaleStepOk majorScale 8) 0 256 = true.
Proof. vm_compute. reflexivity. Qed.

Lemma bluesScale_ok : allZ (scaleStepOk bluesScale 7) 0 256 = true.
Proof. vm_compute. reflexivity. Qed.

Lemma minorScale_ok : allZ (scaleStepOk minorScale 8) 0 256 = true.
Proof. vm_compute. reflexivity. Qed.

Lemma chromaticScale_ok : allZ (scaleStepOk chromaticScale 13) 0 256 = true.
Proof. vm_compute. reflexivity. Qed.

Lemma selected_scale_ok c :
  allZ (scaleStepOk (scaleTable c) (scaleSizeOf c)) 0 256 = true.
Proof.
  unfold scaleTable, scaleSizeOf.
  destruct (c =? SCALE_MINOR_PENT); [apply minorPentatonic_ok|].
  destruct (c =? SCALE_MAJOR); [apply majorScale_ok|].
  destruct (c =? SCALE_BLUES); [apply bluesScale_ok|].
  destruct (c =? SCALE_MINOR); [apply minorScale_ok|].
  destruct (c =? SCALE_CHROMATIC); [apply chromaticScale_ok|].
  apply minorPentatonic_ok.
Qed.

(** C4, amended.  For every selected scale and every step [s >= 0] up to
    octave 30: within one octave ([s] and [s + 1] have the same quotient by
    the scale size) the frequency does not decrease from [s] to [s + 1], and
    at step [s + scaleSize <= 255] it is exactly twice the frequency at
    [s]. *)
Theorem quantizePitchToScale_monotone_doubling
    (mutate : Mutate.t) (baseFreq : F32.float) (s : Z) :
  let size := scaleSizeOf (Mutate.currentScale mutate) in
  let f := quantizePitchToScale mutate baseFreq in
  0 <= s ->
  (s + 1 <= 255 -> s / size <= 30 -> s / size = (s + 1) / size ->
     F32.leb (f s) (f (s + 1)) = true) /\
  (s + size <= 255 -> (s + size) / size <= 30 ->
     f (s + size) = F32.mul (F32.of_int 2) (f s)
     /\ F32.doubles (f s) (f (s + size)) = true).
Proof.
  intros size f Hs.
  pose proof (scaleSizeOf_cases (Mutate.currentScale mutate)) as Hsize.
  fold size in Hsize.
  assert (s <= 255 -> scaleStepOk (scaleTable (Mutate.currentScale mutate))
                        size s = true) as Hok.
  { intros H. apply (allZ_spec _ 0 256 (selected_scale_ok _)). lia. }
  unfold f, quantizePitchToScale. fold size. split.
  - intros H1 H2 H3.
    apply (proj1 (scaleStepOk_spec _ _ _ (Hok ltac:(lia)))); assumption.
  - intros H1 H2.
    apply (proj2 (scaleStepOk_spec _ _ _ (Hok ltac:(lia)))); assumption.
Qed.

Lemma quantizePitchToScale_monotone_doubling_witness :
  let size := scaleSizeOf (Mutate.currentScale Mutate.init) in
  let f := quantizePitchToScale Mutate.init (F32.of_int 110) in
  0 <= 3 /\ 3 + 1 <= 255 /\ 3 / size <= 30 /\ 3 / size = (3 + 1) / size /\
  3 + size <= 255 /\ (3 + size) / size <= 30 /\
  F32.leb (f 3) (f (3 + 1)) = true /\
  f (3 + size) = F32.mul (F32.of_int 2) (f 3).
Proof.
  intros size f.
  assert (0 <= 3) as H0 by lia.
  assert (3 + 1 <= 255) as H1 by lia.
  assert (3 / size <= 30) as H2 by (vm_compute; congruence).
  assert (3 / size = (3 + 1) / size) as H3 by reflexivity.
  assert (3 + size <= 255) as H4 by (vm_compute; congruence).
  assert ((3 + size) / size <= 30) as H5 by (vm_compute; congruence).
  repeat (split; [assumption|]).
  destruct (quantizePitchToScale_monotone_doubling
              Mutate.init (F32.of_int 110) 3 H0) as [Hmono Hdouble].
  split; [exact (Hmono H1 H2 H3) | exact (proj1 (Hdouble H4 H5))].
Defined.

(** C4 as stated fails for large steps under the minor pentatonic scale
    (6 entries): at octave 31 the factor [1 << 31] is [INT_MIN], so the
    frequency at step 186 is negative, is not twice the frequency at step
    180, and decreases from step 186 to step 187 within the octave. *)
Lemma quantizePitchToScale_breaks_at_octave_31 :
  let size := scaleSizeOf (Mutate.currentScale Mutate.init) in
  let f := quantizePitchToScale Mutate.init (F32.of_int 110) in
  size = 6 /\
  F32.value (f 180) = (118111600640, 1) /\
  F32.value (f (180 + size)) = (-236223201280, 1) /\
  f (180 + size) <> F32.mul (F32.of_int 2) (f 180) /\
  186 / size = (186 + 1) / size /\
  F32.value (f (186 + 1)) = (-280869404672, 1) /\
  F32.leb (f 186) (f (186 + 1)) = false.
Proof.
  intros size f.
  repeat split; try reflexivity.
  vm_compute. discriminate.
Qed.

(** ** Single-precision arithmetic *)

Lemma digits2_pos_size m : digits2_pos m = Pos.size m.
Proof. induction m; simpl; congruence. Qed.

(** The number of binary digits brackets the number. *)
Lemma digits2_bounds m :
  2 ^ (Zpos (digits2_pos m) - 1) <= Zpos m < 2 ^ Zpos (digits2_pos m).
Proof.
  induction m as [m IH | m IH |]; simpl digits2_pos.
  - rewrite Pos2Z.inj_succ. change (Zpos m~1) with (2 * Zpos m + 1).
    replace (Z.succ (Zpos (digits2_pos m)) - 1) with
      (Z.succ (Zpos (digits2_pos m) - 1)) by lia.
    rewrite !Z.pow_succ_r by lia.
    revert IH. generalize (2 ^ (Zpos (digits2_pos m) - 1)),
      (2 ^ Zpos (digits2_pos m)), (Zpos m). intros. lia.
  - rewrite Pos2Z.inj_succ. change (Zpos m~0) with (2 * Zpos m).
    replace (Z.succ (Zpos (digits2_pos m)) - 1) with
      (Z.succ (Zpos (digits2_pos m) - 1)) by lia.
    rewrite !Z.pow_succ_r by lia.
    revert IH. generalize (2 ^ (Zpos (digits2_pos m) - 1)),
      (2 ^ Zpos (digits2_pos m)), (Zpos m). intros. lia.
  - simpl. lia.
Qed.

Lemma digits2_unique m d :
  2 ^ (d - 1) <= Zpos m < 2 ^ d -> Zpos (digits2_pos m) = d.
Proof.
  intros [Hlo Hhi]. pose proof (digits2_bounds m) as [Hlo' Hhi'].
  assert (0 < d) as Hd.
  { destruct (Z_lt_le_dec 0 d); [lia|].
    assert (2 ^ d <= 2 ^ 0) by (apply Z.pow_le_mono_r; lia).
    simpl in *. lia. }
  destruct (Z.lt_trichotomy (Zpos (digits2_pos m)) d) as [H | [H | H]];
    [exfalso | exact H | exfalso].
  - assert (2 ^ Zpos (digits2_pos m) <= 2 ^ (d - 1))
      by (apply Z.pow_le_mono_r; lia). lia.
  - assert (2 ^ d <= 2 ^ (Zpos (digits2_pos m) - 1))
      by (apply Z.pow_le_mono_r; lia). lia.
Qed.

Lemma iter_xO m k : Zpos (Pos.iter xO m k) = Zpos m * 2 ^ Zpos k.
Proof.
  induction k as [|k IH] using Pos.peano_ind.
  - simpl. lia.
  - rewrite Pos.iter_succ.
    change (Zpos (Pos.iter xO m k)~0) with (2 * Zpos (Pos.iter xO m k)).
    rewrite IH, Pos2Z.inj_succ, Z.pow_succ_r by lia. ring.
Qed.

(** A mantissa of [d <= 24] digits at an exponent in the normal range is
    stored with 24 digits, and with the same value. *)
Lemma binary_round_exact s m e :
  Zpos (digits2_pos m) <= 24 ->
  -149 <= e + Zpos (digits2_pos m) - 24 <= 104 ->
  exists m',
    binary_round F32.prec F32.emax s m e
    = S754_finite s m' (e + Zpos (digits2_pos m) - 24)
    /\ Zpos m' = Zpos m * 2 ^ (24 - Zpos (digits2_pos m))
    /\ Zpos (digits2_pos m') = 24.
Proof.
  intros Hd He. set (d := Zpos (digits2_pos m)) in *.
  unfold binary_round.
  assert (fexp F32.prec F32.emax (d + e) = e + d - 24) as Hfexp.
  { unfold fexp, emin, F32.prec, F32.emax. lia. }
  fold d. rewrite Hfexp.
  assert (exists m', shl_align m e (e + d - 24) = (m', e + d - 24)
                     /\ Zpos m' = Zpos m * 2 ^ (24 - d)) as (m' & Hal & Hm').
  { unfold shl_align.
    destruct (e + d - 24 - e) as [|p|p] eqn:Hp.
    - exists m. assert (d = 24) as Hd24 by lia.
      rewrite Hd24. split; [f_equal; lia | simpl; lia].
    - lia.
    - exists (Pos.iter xO m p). split; [reflexivity|].
      rewrite iter_xO. f_equal. f_equal. lia. }
  rewrite Hal. exists m'.
  assert (Zpos (digits2_pos m') = 24) as Hd'.
  { apply digits2_unique. rewrite Hm'.
    pose proof (digits2_bounds m) as [Hlo Hhi]. fold d in Hlo, Hhi.
    assert (0 <= 24 - d) by lia.
    replace (2 ^ (24 - 1)) with (2 ^ (d - 1) * 2 ^ (24 - d)).
    2:{ rewrite <- Z.pow_add_r by (pose proof (Pos2Z.is_pos (digits2_pos m)); lia).
        f_equal. lia. }
    replace (2 ^ 24) with (2 ^ d * 2 ^ (24 - d)).
    2:{ rewrite <- Z.pow_add_r by (pose proof (Pos2Z.is_pos (digits2_pos m)); lia).
        f_equal. lia. }
    assert (0 < 2 ^ (24 - d)) by (apply Z.pow_pos_nonneg; lia).
    nia. }
  split; [|split; [exact Hm' | exact Hd']].
  unfold binary_round_aux, shr_fexp.
  cbn [Zdigits2]. rewrite Hd'.
  assert (fexp F32.prec F32.emax (24 + (e + d - 24)) = e + d - 24) as ->
    by (unfold fexp, emin, F32.prec, F32.emax; lia).
  rewrite Z.sub_diag. cbn [shr shr_record_of_loc shr_m loc_of_shr_record
                            round_nearest_even Zdigits2].
  rewrite Hd'.
  assert (fexp F32.prec F32.emax (24 + (e + d - 24)) = e + d - 24) as ->
    by (unfold fexp, emin, F32.prec, F32.emax; lia).
  rewrite Z.sub_diag. cbn [shr shr_record_of_loc shr_m].
  destruct (Z.leb_spec (e + d - 24) (F32.emax - F32.prec)) as [_|Hbad];
    [reflexivity|].
  unfold F32.emax, F32.prec in Hbad. lia.
Qed.

(** The [float] of a nonzero integer below 2^24 in magnitude: normalised to
    24 digits, with the sign and the value of the integer. *)
Lemma of_int_normal z :
  z <> 0 -> Z.abs z < 2 ^ 24 ->
  exists m e,
    F32.of_int z = S754_finite (z <? 0) m e
    /\ Zpos (digits2_pos m) = 24 /\ -24 < e <= 0
    /\ Zpos m = Z.abs z * 2 ^ (- e).
Proof.
  intros Hz Hlt. unfold F32.of_int, binary_normalize.
  destruct z as [|n|n]; [congruence| |].
  - pose proof (digits2_bounds n) as [Hlo Hhi].
    assert (Zpos (digits2_pos n) <= 24) as Hd.
    { destruct (Z_le_gt_dec (Zpos (digits2_pos n)) 24); [assumption|].
      assert (2 ^ 24 <= 2 ^ (Zpos (digits2_pos n) - 1))
        by (apply Z.pow_le_mono_r; lia).
      simpl Z.abs in Hlt. lia. }
    destruct (binary_round_exact false n 0 Hd ltac:(lia))
      as (m & Hr & Hm & Hd').
    exists m, (0 + Zpos (digits2_pos n) - 24).
    split; [exact Hr|]. split; [exact Hd'|]. split; [lia|].
    rewrite Hm. simpl Z.abs. f_equal. f_equal. lia.
  - pose proof (digits2_bounds n) as [Hlo Hhi].
    assert (Zpos (digits2_pos n) <= 24) as Hd.
    { destruct (Z_le_gt_dec (Zpos (digits2_pos n)) 24); [assumption|].
      assert (2 ^ 24 <= 2 ^ (Zpos (digits2_pos n) - 1))
        by (apply Z.pow_le_mono_r; lia).
      simpl Z.abs in Hlt. lia. }
    destruct (binary_round_exact true n 0 Hd ltac:(lia))
      as (m & Hr & Hm & Hd').
    exists m, (0 + Zpos (digits2_pos n) - 24).
    split; [exact Hr|]. split; [exact Hd'|]. split; [lia|].
    rewrite Hm. simpl Z.abs. f_equal. f_equal. lia.
Qed.

(** Converting an integer below 2^24 in magnitude to [float] and back is
    exact. *)
Lemma to_int_of_int z : Z.abs z < 2 ^ 24 -> F32.to_int (F32.of_int z) = z.
Proof.
  intros Hlt. destruct (Z.eq_dec z 0) as [-> | Hz]; [reflexivity|].
  destruct (of_int_normal z Hz Hlt) as (m & e & Hf & _ & He & Hm).
  rewrite Hf. unfold F32.to_int.
  assert ((match e with
           | 0 => Zpos m
           | Zpos _ => Zpos m * 2 ^ e
           | Zneg _ => Zpos m / 2 ^ (- e)
           end) = Z.abs z) as ->.
  { destruct e as [|p|p]; [simpl in Hm; lia | lia |].
    rewrite Hm. apply Z.div_mul.
    assert (0 < 2 ^ (- Zneg p)) by (apply Z.pow_pos_nonneg; lia). lia. }
  destruct (Z.ltb_spec z 0); lia.
Qed.

Lemma of_int_finite z :
  Z.abs z < 2 ^ 24 -> F32.is_finite (F32.of_int z) = true.
Proof.
  intros Hlt. destruct (Z.eq_dec z 0) as [-> | Hz]; [reflexivity|].
  destruct (of_int_normal z Hz Hlt) as (m & e & -> & _). reflexivity.
Qed.

(** Zero feedback: the product of a finite sample with a zero is a zero, and
    adding it changes nothing. *)
Lemma mul_zero_r x sgn :
  F32.is_finite x = true -> exists s, F32.mul x (S754_zero sgn) = S754_zero s.
Proof. destruct x; simpl; try discriminate; eauto. Qed.

Lemma to_int_zero s : F32.to_int (S754_zero s) = 0.
Proof. reflexivity. Qed.

Lemma add_zero_r z s :
  z <> 0 -> Z.abs z < 2 ^ 24 ->
  F32.add (F32.of_int z) (S754_zero s) = F32.of_int z.
Proof.
  intros Hz Hlt. destruct (of_int_normal z Hz Hlt) as (m & e & -> & _).
  reflexivity.
Qed.

(** ** Echo line *)

Lemma noiseGate_range x : is_s16 x -> is_s16 (noiseGate x).
Proof. unfold noiseGate, is_s16. destruct (_ <? _); lia. Qed.

(** The sample written back at zero feedback. *)
Lemma feedback_write_zero x d sgn :
  is_s16 x -> is_s16 d ->
  let wet := F32.mul (F32.of_int d) (S754_zero sgn) in
  let feedbackSample :=
    if Z.abs x <? 50 then s32 (F32.to_int wet)
    else s32 (F32.to_int (F32.add (F32.of_int x) wet)) in
  let feedbackSample :=
    if 32767 <? feedbackSample then 32767 else feedbackSample in
  let feedbackSample :=
    if feedbackSample <? -32768 then -32768 else feedbackSample in
  s16 feedbackSample = noiseGate x.
Proof.
  intros Hx Hd. unfold is_s16 in *.
  destruct (mul_zero_r (F32.of_int d) sgn
              (of_int_finite d ltac:(simpl; lia))) as [s ->].
  cbv zeta. unfold noiseGate.
  destruct (Z.ltb_spec (Z.abs x) 50) as [Hlow | Hhigh].
  - rewrite to_int_zero. reflexivity.
  - rewrite add_zero_r, to_int_of_int by (simpl; lia).
    rewrite (s32_id x) by (unfold is_s32; lia).
    destruct (Z.ltb_spec 32767 x); [lia|].
    destruct (Z.ltb_spec x (-32768)); [lia|].
    apply s16_id. unfold is_s16. lia.
Qed.

(** One tick of the enabled echo line at zero feedback: the gated dry sample
    goes in at the write position, which moves on by one. *)
Lemma echoStage_zero_feedback siren rev e x sgn :
  0 < Siren.delayIndex siren ->
  Siren.echoFeedback siren = S754_zero sgn ->
  is_s16 x ->
  Forall is_s16 (Echo.echoBuffer e) ->
  0 <= Echo.echoWritePos e < MAX_DELAY_SAMPLES ->
  let e' := (echoStage siren rev e x).1 in
  Echo.echoBuffer e'
  = <[Z.to_nat (Echo.echoWritePos e) := noiseGate x]> (Echo.echoBuffer e)
  /\ Echo.echoWritePos e' = (Echo.echoWritePos e + 1) mod MAX_DELAY_SAMPLES.
Proof.
  intros Hon Hfb Hx Hbuf Hpos. unfold echoStage.
  destruct (Z.ltb_spec 0 (Siren.delayIndex siren)); [|lia].
  rewrite Hfb.
  assert (u16 (Z.rem (Echo.echoWritePos e + 1) MAX_DELAY_SAMPLES)
          = (Echo.echoWritePos e + 1) mod MAX_DELAY_SAMPLES) as Hnext.
  { rewrite Z.rem_mod_nonneg by (unfold MAX_DELAY_SAMPLES in *; lia).
    apply u16_id. unfold is_u16, MAX_DELAY_SAMPLES in *.
    Z.div_mod_to_equations. lia. }
  assert (is_s16 (echoRead siren e)) as Hread.
  { unfold echoRead, sample_get.
    destruct (Echo.echoBuffer e !! _) as [v|] eqn:Hv; simpl.
    - eapply Forall_lookup_1; eauto.
    - unfold is_s16. lia. }
  destruct (Reverse.active rev && Reverse.reversing rev).
  - destruct (pitchTap rev e (echoRead siren e)) as [[counter last] wet].
    cbn [fst Echo.echoBuffer Echo.echoWritePos].
    rewrite feedback_write_zero by (auto; apply s16_range).
    split; [reflexivity | exact Hnext].
  - cbn [fst Echo.echoBuffer Echo.echoWritePos].
    rewrite feedback_write_zero by auto.
    split; [reflexivity | exact Hnext].
Qed.

Lemma echoRun_snoc siren rev xs x e :
  echoRun siren rev (xs ++ [x]) e
  = (echoStage siren rev (echoRun siren rev xs e) x).1.
Proof. unfold echoRun. rewrite foldl_app. reflexivity. Qed.

(** The enabled echo line at zero feedback is a ring of the gated dry
    samples: after the ticks for [xs], each of the last [MAX_DELAY_SAMPLES]
    samples sits where it was written. *)
Lemma echoRun_zero_feedback siren rev sgn xs e :
  0 < Siren.delayIndex siren ->
  Siren.echoFeedback siren = S754_zero sgn ->
  Forall is_s16 xs ->
  Forall is_s16 (Echo.echoBuffer e) ->
  Z.of_nat (length (Echo.echoBuffer e)) = MAX_DELAY_SAMPLES ->
  0 <= Echo.echoWritePos e < MAX_DELAY_SAMPLES ->
  let e' := echoRun siren rev xs e in
  Echo.echoWritePos e'
  = (Echo.echoWritePos e + Z.of_nat (length xs)) mod MAX_DELAY_SAMPLES
  /\ Z.of_nat (length (Echo.echoBuffer e')) = MAX_DELAY_SAMPLES
  /\ Forall is_s16 (Echo.echoBuffer e')
  /\ forall k x,
       xs !! k = Some x ->
       Z.of_nat (length xs) - Z.of_nat k <= MAX_DELAY_SAMPLES ->
       Echo.echoBuffer e'
         !! Z.to_nat ((Echo.echoWritePos e + Z.of_nat k) mod MAX_DELAY_SAMPLES)
       = Some (noiseGate x).
Proof.
  intros Hon Hfb Hxs Hbuf Hlen Hpos.
  induction xs as [|y ys IH] using rev_ind.
  - simpl. split; [rewrite Z.add_0_r, Z.mod_small; lia|].
    split; [exact Hlen|]. split; [exact Hbuf|].
    intros k x Hk. discriminate Hk.
  - apply Forall_app in Hxs as [Hys Hy].
    apply Forall_cons_1 in Hy as [Hy _].
    specialize (IH Hys). cbv zeta in IH.
    destruct IH as (IHpos & IHlen & IHbuf & IHget).
    cbv zeta. rewrite echoRun_snoc.
    set (e1 := echoRun siren rev ys e) in *.
    assert (0 <= Echo.echoWritePos e1 < MAX_DELAY_SAMPLES) as Hpos1.
    { rewrite IHpos. apply Z.mod_pos_bound. reflexivity. }
    destruct (echoStage_zero_feedback siren rev e1 y sgn Hon Hfb Hy IHbuf Hpos1)
      as (Hb & Hp).
    rewrite Hb, Hp, length_app, length_insert. cbn [length].
    split.
    { rewrite IHpos, Zplus_mod_idemp_l. f_equal. lia. }
    split; [exact IHlen|].
    split.
    { apply Forall_insert; [exact IHbuf | apply noiseGate_range, Hy]. }
    intros k x Hk Hrecent.
    destruct (Nat.eq_dec k (length ys)) as [-> | Hne].
    + rewrite lookup_app_r, Nat.sub_diag in Hk by lia.
      injection Hk as <-. rewrite <- IHpos.
      apply list_lookup_insert_eq. lia.
    + assert (k < length ys)%nat as Hklt.
      { apply lookup_lt_Some in Hk. rewrite length_app in Hk.
        cbn [length] in Hk. lia. }
      rewrite lookup_app_l in Hk by lia.
      rewrite list_lookup_insert_ne.
      * apply IHget; [exact Hk | lia].
      * rewrite IHpos. intros Heq.
        apply Z2Nat.inj in Heq;
          try (apply Z.mod_pos_bound; reflexivity).
        unfold MAX_DELAY_SAMPLES in *.
        assert (0 < Z.of_nat (length ys) - Z.of_nat k < 11025) as Hgap by lia.
        assert ((Z.of_nat (length ys) - Z.of_nat k) mod 11025 = 0) as Hz.
        { replace (Z.of_nat (length ys) - Z.of_nat k)
            with ((Echo.echoWritePos e + Z.of_nat (length ys))
                  - (Echo.echoWritePos e + Z.of_nat k)) by lia.
          rewrite Zminus_mod, Heq, Z.sub_diag. reflexivity. }
        rewrite Z.mod_small in Hz by lia. lia.
Qed.

(** The read position is the write position of [echoTime] ticks ago. *)
Lemma echoReadPos_back siren e n :
  1 <= Siren.echoTime siren <= MAX_DELAY_SAMPLES ->
  Echo.echoWritePos e = (n + Siren.echoTime siren) mod MAX_DELAY_SAMPLES ->
  echoReadPos siren e = n mod MAX_DELAY_SAMPLES.
Proof.
  intros HT Hw. unfold echoReadPos. rewrite Hw.
  unfold MAX_DELAY_SAMPLES in *.
  pose proof (Z.mod_pos_bound (n + Siren.echoTime siren) 11025 ltac:(lia)).
  rewrite Z.rem_mod_nonneg by lia.
  rewrite <- Z.add_sub_assoc, Zplus_mod_idemp_l.
  replace (n + Siren.echoTime siren + (11025 - Siren.echoTime siren))
    with (n + 1 * 11025) by lia.
  rewrite Z.mod_add by lia.
  apply u16_id. unfold is_u16.
  pose proof (Z.mod_pos_bound n 11025 ltac:(lia)). lia.
Qed.

(** The delay line at zero feedback, sample by sample: what is read
    [echoTime] ticks after the dry sample [x] went in is the gated [x]. *)
Lemma echo_delay_line siren rev sgn e pre x mid :
  0 < Siren.delayIndex siren ->
  Siren.echoFeedback siren = S754_zero sgn ->
  1 <= Siren.echoTime siren <= MAX_DELAY_SAMPLES ->
  Forall is_s16 (Echo.echoBuffer e) ->
  Z.of_nat (length (Echo.echoBuffer e)) = MAX_DELAY_SAMPLES ->
  0 <= Echo.echoWritePos e < MAX_DELAY_SAMPLES ->
  Forall is_s16 (pre ++ x :: mid) ->
  Z.of_nat (length mid) = Siren.echoTime siren - 1 ->
  echoRead siren (echoRun siren rev (pre ++ x :: mid) e) = noiseGate x.
Proof.
  intros Hon Hfb HT Hbuf Hlen Hpos Hxs Hmid.
  destruct (echoRun_zero_feedback siren rev sgn (pre ++ x :: mid) e
              Hon Hfb Hxs Hbuf Hlen Hpos) as (Hw & _ & _ & Hget).
  unfold echoRead, sample_get.
  rewrite (echoReadPos_back siren _
             (Echo.echoWritePos e + Z.of_nat (length pre)) HT).
  - rewrite (Hget (length pre) x); [reflexivity | |].
    + rewrite lookup_app_r, Nat.sub_diag by lia. reflexivity.
    + rewrite length_app. cbn [length]. lia.
  - rewrite Hw, length_app. cbn [length]. f_equal. lia.
Qed.

(** C2, amended.  With the delay enabled ([delayIndex > 0], offset
    [echoTime] between 1 and the capacity of the line) and echo feedback
    equal to 0, for every sequence of 16-bit input samples the sample read
    from the echo line at tick [n + echoTime] is the dry input sample [x] of
    tick [n] when [|x| >= 50], and 0 when [|x| < 50], where the noise gate
    keeps the dry sample out of the line. *)
Theorem echo_zero_feedback_delay
    (siren : Siren.t) (reverser : Reverse.t) (sgn : bool) (e : Echo.t)
    (pre : list Z) (x : Z) (mid : list Z) :
  0 < Siren.delayIndex siren ->
  Siren.echoFeedback siren = S754_zero sgn ->
  1 <= Siren.echoTime siren <= MAX_DELAY_SAMPLES ->
  Forall is_s16 (Echo.echoBuffer e) ->
  Z.of_nat (length (Echo.echoBuffer e)) = MAX_DELAY_SAMPLES ->
  0 <= Echo.echoWritePos e < MAX_DELAY_SAMPLES ->
  Forall is_s16 (pre ++ x :: mid) ->
  Z.of_nat (length mid) = Siren.echoTime siren - 1 ->
  let delayedSample :=
    echoRead siren (echoRun siren reverser (pre ++ x :: mid) e) in
  (50 <= Z.abs x -> delayedSample = x) /\
  (Z.abs x < 50 -> delayedSample = 0).
Proof.
  intros Hon Hfb HT Hbuf Hlen Hpos Hxs Hmid delayedSample.
  unfold delayedSample.
  rewrite (echo_delay_line siren reverser sgn e pre x mid) by assumption.
  unfold noiseGate.
  destruct (Z.ltb_spec (Z.abs x) 50); split; intros; lia || reflexivity.
Qed.

Lemma echo_test_setup x :
  is_s16 x ->
  let siren := Siren.with_echoFeedback F32.zero (pressDelayButton Siren.init) in
  let mid := replicate (Z.to_nat 1102) x in
  0 < Siren.delayIndex siren /\
  Siren.echoFeedback siren = S754_zero false /\
  1 <= Siren.echoTime siren <= MAX_DELAY_SAMPLES /\
  Forall is_s16 (Echo.echoBuffer Echo.init) /\
  Z.of_nat (length (Echo.echoBuffer Echo.init)) = MAX_DELAY_SAMPLES /\
  0 <= Echo.echoWritePos Echo.init < MAX_DELAY_SAMPLES /\
  Forall is_s16 ([] ++ x :: mid) /\
  Z.of_nat (length mid) = Siren.echoTime siren - 1.
Proof.
  intros Hx siren mid.
  split; [reflexivity|]. split; [reflexivity|].
  split; [split; vm_compute; congruence|].
  split.
  { unfold Echo.init. cbn [Echo.echoBuffer]. apply Forall_replicate.
    unfold is_s16. lia. }
  split.
  { unfold Echo.init. cbn [Echo.echoBuffer].
    rewrite length_replicate, Z2Nat.id by (unfold MAX_DELAY_SAMPLES; lia).
    reflexivity. }
  split; [split; vm_compute; congruence|].
  split.
  { cbn [app]. apply Forall_cons. split; [exact Hx|].
    apply Forall_replicate. exact Hx. }
  unfold mid. rewrite length_replicate, Z2Nat.id by lia. reflexivity.
Qed.

Lemma echo_zero_feedback_delay_witness :
  let siren := Siren.with_echoFeedback F32.zero (pressDelayButton Siren.init) in
  let mid := replicate (Z.to_nat 1102) 1000 in
  0 < Siren.delayIndex siren /\
  Siren.echoFeedback siren = S754_zero false /\
  1 <= Siren.echoTime siren <= MAX_DELAY_SAMPLES /\
  Z.of_nat (length mid) = Siren.echoTime siren - 1 /\
  50 <= Z.abs 1000 /\
  echoRead siren (echoRun siren Reverse.init ([] ++ 1000 :: mid) Echo.init)
  = 1000.
Proof.
  intros siren mid.
  assert (is_s16 1000) as Hx by (unfold is_s16; lia).
  destruct (echo_test_setup 1000 Hx)
    as (H1 & H2 & H3 & H4 & H5 & H6 & H7 & H8).
  assert (50 <= Z.abs 1000) as Hloud by (simpl; lia).
  split; [exact H1|]. split; [exact H2|]. split; [exact H3|].
  split; [exact H8|]. split; [exact Hloud|].
  exact (proj1 (echo_zero_feedback_delay siren Reverse.init false Echo.init
                  [] 1000 mid H1 H2 H3 H4 H5 H6 H7 H8) Hloud).
Defined.

(** C2 as stated fails below the noise gate: with delay time 1103 and zero
    feedback, a constant dry input of 10 is read back as 0 after 1103
    ticks. *)
Lemma echo_noise_gate_drops_quiet_sample :
  let siren := Siren.with_echoFeedback F32.zero (pressDelayButton Siren.init) in
  let mid := replicate (Z.to_nat 1102) 10 in
  0 < Siren.delayIndex siren /\ Siren.echoTime siren = 1103 /\
  Siren.echoFeedback siren = F32.zero /\
  Z.of_nat (length mid) = Siren.echoTime siren - 1 /\
  echoRead siren (echoRun siren Reverse.init ([] ++ 10 :: mid) Echo.init) = 0
  /\ echoRead siren (echoRun siren Reverse.init ([] ++ 10 :: mid) Echo.init)
     <> 10.
Proof.
  intros siren mid.
  assert (is_s16 10) as Hx by (unfold is_s16; lia).
  destruct (echo_test_setup 10 Hx) as (H1 & H2 & H3 & H4 & H5 & H6 & H7 & H8).
  assert (echoRead siren
            (echoRun siren Reverse.init ([] ++ 10 :: mid) Echo.init) = 0) as H.
  { rewrite (echo_delay_line siren Reverse.init false Echo.init [] 10 mid)
      by assumption. reflexivity. }
  split; [exact H1|]. split; [reflexivity|]. split; [reflexivity|].
  split; [exact H8|]. split; [exact H|]. rewrite H. discriminate.
Qed.

(** ** Rounding to nearest in single precision *)

Lemma iter_pos_nat {A} (f : A -> A) p x :
  SpecFloat.iter_pos f p x = Nat.iter (Pos.to_nat p) f x.
Proof.
  revert x. induction p as [p IH | p IH |]; intros x;
    cbn [SpecFloat.iter_pos].
  - rewrite !IH, Pos2Nat.inj_xI.
    replace (S (2 * Pos.to_nat p)) with (Pos.to_nat p + Pos.to_nat p + 1)%nat
      by lia.
    rewrite !Nat.iter_add. reflexivity.
  - rewrite !IH, Pos2Nat.inj_xO.
    replace (2 * Pos.to_nat p)%nat with (Pos.to_nat p + Pos.to_nat p)%nat
      by lia.
    rewrite Nat.iter_add. reflexivity.
  - reflexivity.
Qed.

Lemma pow2_pos i : 0 <= i -> 0 < 2 ^ i.
Proof. intros H. apply Z.pow_pos_nonneg; lia. Qed.

Lemma pow2_succ i : 0 <= i -> 2 ^ (i + 1) = 2 * 2 ^ i.
Proof. intros H. rewrite Z.pow_add_r by lia. simpl. ring. Qed.

(** One more shift moves the grid one step up. *)
Lemma located_shr_1 num den i mrs :
  0 < den -> 0 <= i -> 0 <= shr_m mrs ->
  located num den i mrs ->
  located num den (i + 1) (shr_1 mrs) /\ 0 <= shr_m (shr_1 mrs).
Proof.
  intros Hden Hi Hm. unfold located.
  destruct mrs as [m r s]. cbn [shr_m shr_r shr_s] in *.
  rewrite pow2_succ by assumption.
  pose proof (pow2_pos i Hi) as Hp.
  intros [Hw Hloc].
  assert (0 < 2 ^ i * den) as Hstep by (apply Z.mul_pos_pos; assumption).
  set (step := 2 ^ i * den) in *.
  destruct m as [|p|p]; [| |lia].
  - (* m = 0 *)
    cbn [shr_1 shr_m shr_r shr_s].
    replace (num - 0 * 2 ^ i * den) with num in * by ring.
    replace (num - 0 * (2 * 2 ^ i) * den) with num by ring.
    replace (2 * 2 ^ i * den) with (2 * step) by (unfold step; ring).
    split; [|lia].
    destruct r, s; cbn [orb]; lia.
  - destruct p as [p|p|].
    + (* m = 2p + 1 *)
      cbn [shr_1 shr_m shr_r shr_s].
      change (Zpos p~1) with (2 * Zpos p + 1) in *.
      replace (num - (2 * Zpos p + 1) * 2 ^ i * den)
        with (num - 2 * Zpos p * step - step) in * by (unfold step; ring).
      replace (num - Zpos p * (2 * 2 ^ i) * den)
        with (num - 2 * Zpos p * step) by (unfold step; ring).
      replace (2 * 2 ^ i * den) with (2 * step) by (unfold step; ring).
      split; [|lia].
      destruct r, s; cbn [orb]; lia.
    + (* m = 2p *)
      cbn [shr_1 shr_m shr_r shr_s].
      change (Zpos p~0) with (2 * Zpos p) in *.
      replace (num - 2 * Zpos p * 2 ^ i * den)
        with (num - 2 * Zpos p * step) in * by (unfold step; ring).
      replace (num - Zpos p * (2 * 2 ^ i) * den)
        with (num - 2 * Zpos p * step) by (unfold step; ring).
      replace (2 * 2 ^ i * den) with (2 * step) by (unfold step; ring).
      split; [|lia].
      destruct r, s; cbn [orb]; lia.
    + (* m = 1 *)
      cbn [shr_1 shr_m shr_r shr_s].
      replace (num - 1 * 2 ^ i * den) with (num - step) in *
        by (unfold step; ring).
      replace (num - 0 * (2 * 2 ^ i) * den) with num by ring.
      replace (2 * 2 ^ i * den) with (2 * step) by (unfold step; ring).
      split; [|lia].
      destruct r, s; cbn [orb]; lia.
Qed.

Lemma located_iter num den n mrs :
  0 < den -> 0 <= shr_m mrs ->
  located num den 0 mrs ->
  located num den (Z.of_nat n) (Nat.iter n shr_1 mrs)
  /\ 0 <= shr_m (Nat.iter n shr_1 mrs).
Proof.
  intros Hden Hm Hloc. induction n as [|n [IHloc IHm]].
  - simpl. auto.
  - rewrite Nat2Z.inj_succ, <- Z.add_1_r. cbn [Nat.iter].
    apply located_shr_1; auto; lia.
Qed.

Lemma fexp_normal e : -125 <= e -> fexp F32.prec F32.emax e = e - 24.
Proof. intros H. unfold fexp, emin, F32.prec, F32.emax. lia. Qed.

(** The first shift of the rounding: a mantissa of [d >= 24] digits is cut
    down by [d - 24] digits. *)
Lemma shr_fexp_spec mx ex lx :
  24 <= Zpos (digits2_pos mx) -> -149 <= ex ->
  shr_fexp F32.prec F32.emax (Zpos mx) ex lx
  = (Nat.iter (Z.to_nat (Zpos (digits2_pos mx) - 24)) shr_1
       (shr_record_of_loc (Zpos mx) lx),
     ex + (Zpos (digits2_pos mx) - 24)).
Proof.
  intros Hd He. unfold shr_fexp. cbn [Zdigits2].
  rewrite fexp_normal by lia.
  replace (Zpos (digits2_pos mx) + ex - 24 - ex)
    with (Zpos (digits2_pos mx) - 24) by lia.
  unfold shr.
  destruct (Zpos (digits2_pos mx) - 24) as [|p|p] eqn:Hn.
  - simpl. f_equal. lia.
  - rewrite iter_pos_nat. reflexivity.
  - lia.
Qed.

Lemma round_nearest_even_spec num den i mrs :
  0 < den -> 0 <= i ->
  located num den i mrs ->
  let m := round_nearest_even (shr_m mrs) (loc_of_shr_record mrs) in
  shr_m mrs <= m <= shr_m mrs + 1
  /\ 2 * Z.abs (m * 2 ^ i * den - num) <= 2 ^ i * den.
Proof.
  intros Hden Hi. unfold located.
  destruct mrs as [m r s]. cbn [shr_m shr_r shr_s loc_of_shr_record].
  pose proof (pow2_pos i Hi) as Hp.
  set (step := 2 ^ i * den).
  replace (num - m * 2 ^ i * den) with (num - m * step)
    by (unfold step; ring).
  intros [Hw Hloc].
  assert (forall m', m' * 2 ^ i * den - num = m' * step - num) as Hre
    by (intros; unfold step; ring).
  destruct r, s; cbn [round_nearest_even]; try destruct (Z.even m);
    rewrite Hre; lia.
Qed.

(** Rounding to nearest: from a mantissa of at least 24 digits and the
    location of the exact value [num / den] in units of [2 ^ ex], the result
    is a normal number of 24 digits within half a unit in the last place of
    the exact value. *)
Lemma binary_round_aux_spec s mx ex lx num den :
  0 < den ->
  24 <= Zpos (digits2_pos mx) -> -149 <= ex ->
  ex + (Zpos (digits2_pos mx) - 24) + 1 <= 104 ->
  located num den 0 (shr_record_of_loc (Zpos mx) lx) ->
  exists m k,
    binary_round_aux F32.prec F32.emax s (Zpos mx) ex lx
    = S754_finite s m (ex + k)
    /\ Zpos (digits2_pos m) = 24
    /\ Zpos (digits2_pos mx) - 24 <= k <= Zpos (digits2_pos mx) - 24 + 1
    /\ 2 * Z.abs (Zpos m * 2 ^ k * den - num) <= 2 ^ k * den.
Proof.
  intros Hden Hd He Hmax Hloc0.
  set (n := Zpos (digits2_pos mx) - 24) in *.
  assert (0 <= n) as Hn by lia.
  unfold binary_round_aux. rewrite shr_fexp_spec by assumption. fold n.
  assert (0 <= shr_m (shr_record_of_loc (Zpos mx) lx)) as Hm0.
  { destruct lx as [|[]]; simpl; lia. }
  destruct (located_iter num den (Z.to_nat n) _ Hden Hm0 Hloc0)
    as [Hloc Hmpos].
  rewrite Z2Nat.id in Hloc by assumption.
  set (mrs := Nat.iter (Z.to_nat n) shr_1 (shr_record_of_loc (Zpos mx) lx))
    in *.
  destruct (round_nearest_even_spec num den n mrs Hden Hn Hloc)
    as [Hnear Herr].
  set (m2 := round_nearest_even (shr_m mrs) (loc_of_shr_record mrs)) in *.
  (* the truncated mantissa has exactly 24 digits *)
  pose proof (digits2_bounds mx) as [Hlo Hhi].
  replace (Zpos (digits2_pos mx)) with (24 + n) in Hlo, Hhi by (unfold n; lia).
  replace (24 + n - 1) with (23 + n) in Hlo by lia.
  rewrite Z.pow_add_r in Hlo, Hhi by lia.
  pose proof (pow2_pos n Hn) as Hp.
  assert (2 ^ 23 <= shr_m mrs < 2 ^ 24) as Hm24.
  { unfold located in Hloc, Hloc0.
    destruct Hloc as [[Hw1 Hw2] _]. destruct Hloc0 as [[Hv1 Hv2] _].
    assert (shr_m (shr_record_of_loc (Zpos mx) lx) = Zpos mx) as Hmx
      by (destruct lx as [|[]]; reflexivity).
    rewrite Hmx in Hv1, Hv2. simpl (2 ^ 0) in Hv1, Hv2.
    split.
    - assert (2 ^ 23 * 2 ^ n * den < (shr_m mrs + 1) * 2 ^ n * den) by nia.
      assert (2 ^ 23 * (2 ^ n * den) < (shr_m mrs + 1) * (2 ^ n * den))
        by lia.
      assert (0 < 2 ^ n * den) by nia.
      assert (2 ^ 23 < shr_m mrs + 1) by nia. lia.
    - assert (shr_m mrs * (2 ^ n * den) < 2 ^ 24 * (2 ^ n * den)) by nia.
      assert (0 < 2 ^ n * den) by nia. nia. }
  assert (2 ^ 23 <= m2 <= 2 ^ 24) as Hm2 by lia.
  destruct m2 as [|p2|p2] eqn:Hp2; [lia | | lia].
  destruct (Z.eq_dec (Zpos p2) (2 ^ 24)) as [Hcarry | Hnocarry].
  - (* the rounding carried into a 25th digit *)
    assert (p2 = 16777216%positive) as -> by (simpl in Hcarry; lia).
    unfold shr_fexp. cbn [Zdigits2].
    change (Zpos (digits2_pos 16777216)) with 25.
    rewrite fexp_normal by lia.
    replace (25 + (ex + n) - 24 - (ex + n)) with 1 by lia.
    cbn [shr SpecFloat.iter_pos shr_record_of_loc shr_1 shr_m].
    destruct (Z.leb_spec (ex + n + 1) (F32.emax - F32.prec)) as [_|Hbad];
      [|unfold F32.emax, F32.prec in Hbad; lia].
    exists 8388608%positive, (n + 1).
    split; [f_equal; lia|]. split; [reflexivity|]. split; [lia|].
    rewrite pow2_succ by assumption.
    replace (Zpos 8388608 * (2 * 2 ^ n) * den - num)
      with (Zpos 16777216 * 2 ^ n * den - num) by ring.
    nia.
  - assert (Zpos (digits2_pos p2) = 24) as Hd2
      by (apply digits2_unique; simpl in *; lia).
    unfold shr_fexp. cbn [Zdigits2]. rewrite Hd2.
    rewrite fexp_normal by lia.
    replace (24 + (ex + n) - 24 - (ex + n)) with 0 by lia.
    cbn [shr shr_record_of_loc shr_m].
    destruct (Z.leb_spec (ex + n) (F32.emax - F32.prec)) as [_|Hbad];
      [|unfold F32.emax, F32.prec in Hbad; lia].
    exists p2, n.
    split; [reflexivity|]. split; [exact Hd2|]. split; [lia|]. exact Herr.
Qed.

Lemma new_location_located m' my q r :
  0 < my -> m' = my * q + r -> 0 <= r < my ->
  located m' my 0 (shr_record_of_loc q (new_location my r)).
Proof.
  intros Hmy Hdiv Hr. unfold located. cbv zeta.
  assert (shr_m (shr_record_of_loc q (new_location my r)) = q) as Hm
    by (destruct (new_location my r) as [|[]]; reflexivity).
  rewrite Hm. change (2 ^ 0) with 1.
  replace (m' - q * 1 * my) with r by lia. rewrite Z.mul_1_l.
  split; [lia|].
  unfold new_location.
  destruct (Z.even my) eqn:Hev.
  - unfold new_location_even.
    destruct (Z.eqb_spec r 0) as [-> | Hnz]; [reflexivity|].
    destruct (Z.compare_spec (2 * r) my); cbn [shr_record_of_loc shr_r shr_s];
      lia.
  - unfold new_location_odd.
    destruct (Z.eqb_spec r 0) as [-> | Hnz]; [reflexivity|].
    assert (Z.odd my = true) as Hodd by (rewrite <- Z.negb_even, Hev; reflexivity).
    apply Z.odd_spec in Hodd. destruct Hodd as [u Hu].
    destruct (Z.compare_spec (2 * r + 1) my);
      cbn [shr_record_of_loc shr_r shr_s]; lia.
Qed.

(** The quotient of two integers [0 < r < t < 2^24] as [float]s: a normal
    number [mp * 2^-a] within half a unit in the last place of [r / t]. *)
Lemma div_spec r t :
  0 < r < t -> t < 2 ^ 24 ->
  exists mp a,
    F32.div (F32.of_int r) (F32.of_int t) = S754_finite false mp (- a)
    /\ 22 <= a <= 47
    /\ 2 ^ 23 <= Zpos mp < 2 ^ 24
    /\ 2 * Z.abs (Zpos mp * t - r * 2 ^ a) <= t.
Proof.
  intros Hr Ht.
  destruct (of_int_normal r) as (mx & ex & Hx & Hdx & Hex & Hmx); [lia|lia|].
  destruct (of_int_normal t) as (my & ey & Hy & Hdy & Hey & Hmy); [lia|lia|].
  rewrite Z.abs_eq in Hmx, Hmy by lia.
  replace (r <? 0) with false in Hx by (symmetry; apply Z.ltb_ge; lia).
  replace (t <? 0) with false in Hy by (symmetry; apply Z.ltb_ge; lia).
  rewrite Hx, Hy. unfold F32.div, SFdiv, SFdiv_core_binary.
  cbn [Zdigits2 xorb]. rewrite Hdx, Hdy.
  pose proof (digits2_bounds mx) as Hbx. rewrite Hdx in Hbx.
  pose proof (digits2_bounds my) as Hby. rewrite Hdy in Hby.
  change (2 ^ (24 - 1)) with (2 ^ 23) in Hbx, Hby.
  (* the exponent of the smaller number is not the larger one *)
  assert (ex <= ey) as Hexy.
  { destruct (Z_le_gt_dec ex ey) as [|Hgt]; [assumption|exfalso].
    assert (0 < 2 ^ (- ex)) as Hpx by (apply pow2_pos; lia).
    assert (2 ^ (- ey) = 2 ^ (- ex) * 2 ^ (ex - ey)) as Hsplit
      by (rewrite <- Z.pow_add_r by lia; f_equal; lia).
    assert (2 <= 2 ^ (ex - ey)) as Hge
      by (change 2 with (2 ^ 1) at 1; apply Z.pow_le_mono_r; lia).
    rewrite Hsplit in Hmy.
    assert (2 ^ 23 * 2 <= 2 ^ 23 * 2 ^ (ex - ey)) by lia.
    assert (r * 2 ^ (- ex) * 2 ^ (ex - ey) < t * 2 ^ (- ex) * 2 ^ (ex - ey))
      by (apply Z.mul_lt_mono_pos_r; [lia|apply Z.mul_lt_mono_pos_r; lia]).
    assert (2 ^ 23 * 2 ^ (ex - ey) <= Zpos mx * 2 ^ (ex - ey))
      by (apply Z.mul_le_mono_nonneg_r; lia).
    change (2 ^ 23 * 2) with (2 ^ 24) in *. nia. }
  rewrite fexp_normal by lia.
  replace (Z.min (24 + ex - (24 + ey) - 24) (ex - ey)) with (ex - ey - 24)
    by lia.
  replace (ex - ey - (ex - ey - 24)) with 24 by lia.
  rewrite Z.shiftl_mul_pow2 by lia.
  pose proof (Z_div_mod (Zpos mx * 2 ^ 24) (Zpos my) ltac:(lia)) as Hdm.
  destruct (Z.div_eucl (Zpos mx * 2 ^ 24) (Zpos my)) as [q rem].
  destruct Hdm as [Hdiv Hrem].
  assert (2 ^ 23 <= q < 2 ^ 25) as Hq.
  { change (2 ^ 24) with 16777216 in *. change (2 ^ 23) with 8388608 in *.
    change (2 ^ 25) with 33554432. split.
    - destruct (Z_le_gt_dec 8388608 q); [assumption|exfalso].
      assert (Zpos my * (q + 1) <= Zpos my * 8388608)
        by (apply Z.mul_le_mono_nonneg_l; lia). nia.
    - destruct (Z_lt_le_dec q 33554432); [assumption|exfalso].
      assert (Zpos my * 33554432 <= Zpos my * q)
        by (apply Z.mul_le_mono_nonneg_l; lia). nia. }
  destruct q as [|qp|qp]; [simpl in Hq; lia| |lia].
  assert (24 <= Zpos (digits2_pos qp) <= 25) as Hdq.
  { pose proof (digits2_bounds qp) as [Hlo Hhi]. split.
    - destruct (Z_le_gt_dec 24 (Zpos (digits2_pos qp))); [assumption|].
      assert (2 ^ Zpos (digits2_pos qp) <= 2 ^ 23)
        by (apply Z.pow_le_mono_r; lia). lia.
    - destruct (Z_le_gt_dec (Zpos (digits2_pos qp)) 25); [assumption|].
      assert (2 ^ 25 <= 2 ^ (Zpos (digits2_pos qp) - 1))
        by (apply Z.pow_le_mono_r; lia). lia. }
  assert (0 < Zpos my) as Hmypos by lia.
  pose proof (new_location_located _ _ _ _ Hmypos Hdiv Hrem) as Hloc.
  destruct (binary_round_aux_spec false qp (ex - ey - 24)
              (new_location (Zpos my) rem) (Zpos mx * 2 ^ 24) (Zpos my))
    as (m & k & Hres & Hdm & Hk & Herr); try lia; [exact Hloc|].
  rewrite Hres.
  exists m, (- (ex - ey - 24 + k)).
  split; [f_equal; lia|]. split; [lia|].
  pose proof (digits2_bounds m) as Hbm. rewrite Hdm in Hbm.
  change (2 ^ (24 - 1)) with (2 ^ 23) in Hbm.
  split; [exact Hbm|].
  (* the error bound, scaled back to the integers *)
  set (a := - (ex - ey - 24 + k)).
  set (P := 2 ^ k * 2 ^ (- ey)).
  assert (0 < P) as HP
    by (apply Z.mul_pos_pos; apply pow2_pos; lia).
  assert (2 ^ a * P = 2 ^ (- ex) * 2 ^ 24) as Hscale.
  { unfold P. rewrite <- !Z.pow_add_r by (unfold a; lia).
    f_equal. unfold a. lia. }
  assert (Zpos m * 2 ^ k * Zpos my - Zpos mx * 2 ^ 24
          = (Zpos m * t - r * 2 ^ a) * P) as Hdiff.
  { rewrite Hmx, Hmy. unfold P.
    transitivity (Zpos m * t * (2 ^ k * 2 ^ (- ey))
                  - r * (2 ^ (- ex) * 2 ^ 24)); [ring|].
    rewrite <- Hscale. unfold P. ring. }
  rewrite Hdiff, Z.abs_mul, (Z.abs_eq P) in Herr by lia.
  assert (2 ^ k * Zpos my = t * P) as Hden by (rewrite Hmy; unfold P; ring).
  rewrite Hden in Herr.
  apply Z.mul_le_mono_pos_r with (p := P); [exact HP|]. lia.
Qed.

Lemma of_int_12 : F32.of_int 12 = S754_finite false 12582912 (-20).
Proof. reflexivity. Qed.

Lemma lit_half : F32.lit 5 10 = S754_finite false 8388608 (-24).
Proof. vm_compute. reflexivity. Qed.

(** Twelve times a normal number [mp * 2^-a]: a normal number
    [my * 2^(j-a)] within half a unit in the last place of the product. *)
Lemma mul12_spec mp a :
  2 ^ 23 <= Zpos mp < 2 ^ 24 -> 22 <= a <= 47 ->
  exists my j,
    F32.mul (S754_finite false mp (- a)) (F32.of_int 12)
    = S754_finite false my (j - a)
    /\ 3 <= j <= 5
    /\ 2 ^ 23 <= Zpos my < 2 ^ 24
    /\ 2 * Z.abs (Zpos my * 2 ^ j - 12 * Zpos mp) <= 2 ^ j.
Proof.
  intros Hmp Ha. rewrite of_int_12. unfold F32.mul, SFmul. cbn [xorb].
  change (2 ^ 23) with 8388608 in Hmp. change (2 ^ 24) with 16777216 in Hmp.
  assert (Zpos (mp * 12582912) = Zpos mp * 12582912) as Hprod
    by apply Pos2Z.inj_mul.
  assert (47 <= Zpos (digits2_pos (mp * 12582912)) <= 48) as Hd.
  { destruct (Z_lt_le_dec (Zpos mp * 12582912) (2 ^ 47)) as [Hlt | Hge].
    - rewrite (digits2_unique _ 47); [lia|]. rewrite Hprod.
      change (2 ^ (47 - 1)) with 70368744177664.
      change (2 ^ 47) with 140737488355328 in *. lia.
    - rewrite (digits2_unique _ 48); [lia|]. rewrite Hprod.
      change (2 ^ (48 - 1)) with 140737488355328.
      change (2 ^ 48) with 281474976710656.
      change (2 ^ 47) with 140737488355328 in *. lia. }
  destruct (binary_round_aux_spec false (mp * 12582912) (- a + -20) loc_Exact
              (Zpos (mp * 12582912)) 1)
    as (my & k & Hres & Hdm & Hk & Herr); try lia.
  { unfold located. cbn [shr_record_of_loc shr_m shr_r shr_s].
    change (2 ^ 0) with 1. lia. }
  rewrite Hres. exists my, (k - 20).
  split; [f_equal; lia|]. split; [lia|].
  pose proof (digits2_bounds my) as Hbm. rewrite Hdm in Hbm.
  change (2 ^ (24 - 1)) with (2 ^ 23) in Hbm.
  split; [exact Hbm|].
  assert (2 ^ k = 2 ^ (k - 20) * 2 ^ 20) as Hk20
    by (rewrite <- Z.pow_add_r by lia; f_equal; lia).
  rewrite Hprod, Hk20 in Herr.
  assert (0 < 2 ^ (k - 20)) by (apply pow2_pos; lia).
  change (2 ^ 20) with 1048576 in Herr. lia.
Qed.

Lemma compare_cont_ge (p q : positive) :
  (q <= p)%positive -> Pos.compare_cont Eq p q <> Lt.
Proof.
  intros Hle Hlt. change (Pos.compare p q = Lt) in Hlt.
  rewrite Pos.compare_lt_iff in Hlt. lia.
Qed.

(** The comparison of the fractional part with one half reads off one bit
    of the mantissa. *)
Lemma fmod1_lt_half my E :
  Zpos my < 2 ^ 24 -> 1 <= E <= 100 ->
  F32.ltb (F32.fmod1 (S754_finite false my (- E))) (F32.lit 5 10)
  = (Zpos my mod 2 ^ E <? 2 ^ (E - 1)).
Proof.
  intros Hmy HE. rewrite lit_half.
  destruct E as [|p|p]; try lia.
  change (- Zpos p) with (Zneg p). unfold F32.fmod1.
  change (- Zneg p) with (Zpos p).
  assert (0 < 2 ^ Zpos p) as Hpow by (apply pow2_pos; lia).
  assert (0 < 2 ^ (Zpos p - 1)) as Hpow' by (apply pow2_pos; lia).
  pose proof (Z.mod_pos_bound (Zpos my) (2 ^ Zpos p) Hpow) as Hr.
  assert (Zpos my mod 2 ^ Zpos p <= Zpos my) as Hle
    by (apply Z.mod_le; lia).
  destruct (Zpos my mod 2 ^ Zpos p) as [|rp|rp] eqn:Hrp; [| |lia].
  - cbn [binary_normalize]. symmetry. apply Z.ltb_lt. lia.
  - cbn [binary_normalize].
    pose proof (digits2_bounds rp) as [Hlo Hhi].
    assert (Zpos (digits2_pos rp) <= 24) as Hd.
    { destruct (Z_le_gt_dec (Zpos (digits2_pos rp)) 24); [assumption|].
      assert (2 ^ 24 <= 2 ^ (Zpos (digits2_pos rp) - 1))
        by (apply Z.pow_le_mono_r; lia). lia. }
    destruct (binary_round_exact false rp (Zneg p) Hd) as (m' & Hres & _ & Hd').
    { pose proof (Pos2Z.is_pos (digits2_pos rp)). lia. }
    rewrite Hres. unfold F32.ltb, SFltb, SFcompare.
    pose proof (digits2_bounds m') as [Hlo' _]. rewrite Hd' in Hlo'.
    change (2 ^ (24 - 1)) with 8388608 in Hlo'.
    destruct (Z.compare_spec (Zneg p + Zpos (digits2_pos rp) - 24) (-24))
      as [Heq | Hlt | Hgt].
    + (* as many digits as the modulus: the top bit is set *)
      pose proof (compare_cont_ge m' 8388608 ltac:(lia)) as Hnlt.
      assert ((Zpos rp <? 2 ^ (Zpos p - 1)) = false) as ->.
      { apply Z.ltb_ge.
        replace (Zpos p - 1) with (Zpos (digits2_pos rp) - 1) by lia. lia. }
      generalize dependent (Pos.compare_cont Eq m' 8388608).
      intros c Hc. destruct c; [reflexivity|congruence|reflexivity].
    + symmetry. apply Z.ltb_lt.
      assert (2 ^ Zpos (digits2_pos rp) <= 2 ^ (Zpos p - 1))
        by (apply Z.pow_le_mono_r; lia). lia.
    + symmetry. apply Z.ltb_ge.
      assert (2 ^ (Zpos p - 1) <= 2 ^ (Zpos (digits2_pos rp) - 1))
        by (apply Z.pow_le_mono_r; lia). lia.
Qed.

(** ** Loop patterns *)

Lemma ratchetTiesOk_holds : ratchetTiesOk = true.
Proof. vm_compute. reflexivity. Qed.

(** The exact gate is the parity of the half-sub-cycle index
    [24 r / period]. *)
Lemma ratchetOpen_even r T K rho :
  0 < T -> 24 * r = K * T + rho -> 0 <= rho < T ->
  ratchetOpen r T = Z.even K.
Proof.
  intros HT Hdiv Hrho. unfold ratchetOpen.
  destruct (Z.even K) eqn:Hev.
  - apply Z.even_spec in Hev. destruct Hev as [u ->].
    assert (rho = 2 * (rho / 2)) as Hr2.
    { assert (rho mod 2 = 0); [|Z.div_mod_to_equations; lia].
      assert (rho = 2 * (12 * r - u * T)) as -> by lia.
      rewrite Z.mul_comm. apply Z.mod_mul. lia. }
    assert ((12 * r) mod T = rho / 2) as ->.
    { symmetry. apply (Z.mod_unique_pos _ _ u); [lia|].
      nia. }
    apply Z.ltb_lt. lia.
  - assert (Z.odd K = true) as Hodd
      by (rewrite <- Z.negb_even, Hev; reflexivity).
    apply Z.odd_spec in Hodd. destruct Hodd as [u ->].
    assert ((12 * r) mod T = 12 * r - u * T) as ->.
    { symmetry. apply (Z.mod_unique_pos _ _ u); [nia|]. lia. }
    apply Z.ltb_ge. nia.
Qed.

(** The bit of the mantissa the gate reads is the parity of [K] when the
    mantissa lies in the [K]-th interval of length [B]. *)
Lemma mod_half_even my B K :
  0 < B -> K * B <= my < (K + 1) * B ->
  (my mod (2 * B) <? B) = Z.even K.
Proof.
  intros HB Hmy.
  destruct (Z.even K) eqn:Hev.
  - apply Z.even_spec in Hev. destruct Hev as [u ->].
    assert (my mod (2 * B) = my - u * (2 * B)) as ->.
    { symmetry. apply (Z.mod_unique_pos _ _ u); [nia|]. lia. }
    apply Z.ltb_lt. nia.
  - assert (Z.odd K = true) as Hodd
      by (rewrite <- Z.negb_even, Hev; reflexivity).
    apply Z.odd_spec in Hodd. destruct Hodd as [u ->].
    assert (my mod (2 * B) = my - u * (2 * B)) as ->.
    { symmetry. apply (Z.mod_unique_pos _ _ u); [nia|]. lia. }
    apply Z.ltb_ge. nia.
Qed.

(** Away from the edges of the sub-cycles the two rounding errors cannot
    move the product across an edge. *)
Lemma ratchet_interval r T K rho mp my J B :
  0 < T < 2 ^ 16 -> 0 < J <= 32 -> 2 ^ 22 <= 2 * J * B ->
  2 * Z.abs (mp * T - r * (2 * J * B)) <= T ->
  2 * Z.abs (my * J - 12 * mp) <= J ->
  24 * r = K * T + rho -> 1 <= rho <= T - 1 ->
  K * B <= my < (K + 1) * B.
Proof.
  intros HT HJ HA Hdiv Hmul Hr Hrho.
  change (2 ^ 16) with 65536 in HT. change (2 ^ 22) with 4194304 in HA.
  set (A := 2 * J * B) in *.
  set (X := 2 * my * J - 24 * mp).
  set (Y := 2 * (mp * T - r * A)).
  assert (- J <= X <= J) as HX by (unfold X; lia).
  assert (- T <= Y <= T) as HY by (unfold Y; lia).
  assert (2 * my * J * T = K * T * A + rho * A + T * X + 12 * Y) as Hid.
  { unfold X, Y. replace (K * T) with (24 * r - rho) by lia. ring. }
  assert (- (T * J) <= T * X <= T * J) as HTX by nia.
  assert (T * J <= 65535 * 32) as HTJ by nia.
  assert (A <= rho * A <= (T - 1) * A) as HrA by nia.
  assert (K * T * A <= 2 * my * J * T < K * T * A + T * A) as Hbound by lia.
  assert (0 < J * T) as HJT by nia.
  assert (K * B * (2 * (J * T)) <= my * (2 * (J * T))
          < (K + 1) * B * (2 * (J * T))) as Hscaled.
  { replace (K * B * (2 * (J * T))) with (K * T * A) by (unfold A; ring).
    replace (my * (2 * (J * T))) with (2 * my * J * T) by ring.
    replace ((K + 1) * B * (2 * (J * T))) with (K * T * A + T * A)
      by (unfold A; ring).
    exact Hbound. }
  split.
  - apply Z.mul_le_mono_pos_r with (p := 2 * (J * T)); lia.
  - apply Z.mul_lt_mono_pos_r with (p := 2 * (J * T)); lia.
Qed.

(** On the edge of a half sub-cycle, [24 r = K * period], the quotient is
    one of the two [float]s next to [K / 24]. *)
Lemma ratchet_tie r T K mp a :
  0 < r < T -> 22 <= a <= 47 ->
  2 ^ 23 <= Zpos mp < 2 ^ 24 ->
  2 * Z.abs (Zpos mp * T - r * 2 ^ a) <= T ->
  24 * r = K * T ->
  ratchetGate (S754_finite false mp (- a)) = Z.even K.
Proof.
  intros Hr Ha Hmp Herr HK.
  assert (1 <= K <= 23) as HK23 by nia.
  assert (0 < 2 ^ a) as HA by (apply pow2_pos; lia).
  set (A := 2 ^ a) in *.
  assert (Z.abs (24 * Zpos mp - K * A) <= 12) as Hnear.
  { assert (24 * (Zpos mp * T - r * A) = T * (24 * Zpos mp - K * A)) as Hid.
    { assert (K * T * A = 24 * r * A) as HKA by (rewrite HK; reflexivity).
      lia. }
    assert (2 * Z.abs (T * (24 * Zpos mp - K * A)) <= 24 * T) as Hb.
    { rewrite <- Hid, Z.abs_mul. change (Z.abs 24) with 24. lia. }
    rewrite Z.abs_mul, (Z.abs_eq T) in Hb by lia.
    apply Z.mul_le_mono_pos_l with (p := 2 * T); lia. }
  assert (Zpos mp = K * A / 24 + 0 \/ Zpos mp = K * A / 24 + 1) as Hcand
    by (Z.div_mod_to_equations; lia).
  pose proof (allZ_spec _ _ _ ratchetTiesOk_holds K ltac:(lia)) as HKrow.
  cbv beta in HKrow.
  pose proof (allZ_spec _ _ _ HKrow a ltac:(lia)) as Hcell.
  cbv beta in Hcell. apply andb_prop in Hcell. destruct Hcell as [H0 H1].
  assert (forall d, Zpos mp = K * A / 24 + d -> ratchetTieOk K a d = true ->
            ratchetGate (S754_finite false mp (- a)) = Z.even K) as Huse.
  { intros d Hd Hok. unfold ratchetTieOk in Hok. cbv zeta in Hok.
    fold A in Hok. rewrite <- Hd in Hok.
    replace ((2 ^ 23 <=? Zpos mp) && (Zpos mp <? 2 ^ 24)
             && (Z.abs (24 * Zpos mp - K * A) <=? 12)) with true in Hok.
    - cbn [Z.to_pos] in Hok. apply Bool.eqb_prop in Hok. exact Hok.
    - symmetry. rewrite !andb_true_iff. repeat split.
      + apply Z.leb_le. lia.
      + apply Z.ltb_lt. lia.
      + apply Z.leb_le. exact Hnear. }
  destruct Hcand as [Hc | Hc]; eauto.
Qed.

(** The gate computed in single precision is the gate of exact arithmetic,
    at every millisecond of every period a 16-bit tempo can hold. *)
Lemma ratchetGate_exact r T :
  0 <= r < T -> T < 2 ^ 16 ->
  ratchetGate (loopPosition r T) = ratchetOpen r T.
Proof.
  intros Hr HT. unfold loopPosition. rewrite Z.mod_small by lia.
  assert (T < 2 ^ 24) as HT24
    by (change (2 ^ 16) with 65536 in HT; change (2 ^ 24) with 16777216; lia).
  destruct (Z.eq_dec r 0) as [-> | Hnz].
  - destruct (of_int_normal T) as (m & e & HTf & _); [lia|lia|].
    rewrite HTf. replace (T <? 0) with false by (symmetry; apply Z.ltb_ge; lia).
    unfold ratchetOpen. change (12 * 0) with 0. rewrite Z.mod_0_l by lia.
    replace (2 * 0 <? T) with true by (symmetry; apply Z.ltb_lt; lia).
    reflexivity.
  - destruct (div_spec r T) as (mp & a & Hdiv & Ha & Hmp & Herr);
      [lia|assumption|].
    rewrite Hdiv.
    pose proof (Z.div_mod (24 * r) T ltac:(lia)) as Hdm.
    pose proof (Z.mod_pos_bound (24 * r) T ltac:(lia)) as Hrho.
    set (K := 24 * r / T) in *. set (rho := (24 * r) mod T) in *.
    rewrite (ratchetOpen_even r T K rho) by lia.
    destruct (Z.eq_dec rho 0) as [Hz | Hpos].
    + apply (ratchet_tie r T K mp a); try assumption; lia.
    + destruct (mul12_spec mp a Hmp Ha) as (my & j & Hmul & Hj & Hmy & Herr').
      unfold ratchetGate. rewrite Hmul.
      replace (j - a) with (- (a - j)) by lia.
      rewrite fmod1_lt_half by lia.
      assert (2 ^ (a - j) = 2 * 2 ^ (a - j - 1)) as Hsplit.
      { rewrite <- pow2_succ by lia. f_equal. lia. }
      rewrite Hsplit.
      apply mod_half_even; [apply pow2_pos; lia|].
      apply (ratchet_interval r T K rho (Zpos mp) (Zpos my) (2 ^ j)).
      * lia.
      * split; [apply pow2_pos; lia|].
        change 32 with (2 ^ 5). apply Z.pow_le_mono_r; lia.
      * rewrite <- Z.mul_assoc, (Z.mul_comm (2 ^ j)), Z.mul_assoc, <- Hsplit.
        rewrite <- Z.pow_add_r by lia.
        apply Z.pow_le_mono_r; lia.
      * replace (2 * 2 ^ j * 2 ^ (a - j - 1)) with (2 ^ a); [exact Herr|].
        rewrite <- Z.mul_assoc, (Z.mul_comm (2 ^ j)), Z.mul_assoc, <- Hsplit.
        rewrite <- Z.pow_add_r by lia. f_equal. lia.
      * exact Herr'.
      * lia.
      * lia.
Qed.

Lemma evaluateLoopPattern_ratchet l now :
  Loop.active l = true -> Loop.pattern l = LOOP_RATCHET ->
  evaluateLoopPattern l now
  = ratchetGate (loopPosition (u32 (now - Loop.patternStartTime l))
                   (Loop.patternTempo l)).
Proof.
  intros Hact Hpat. unfold evaluateLoopPattern. rewrite Hact, Hpat.
  reflexivity.
Qed.

Lemma loopPosition_phase e T :
  0 < T -> loopPosition e T = loopPosition (e mod T) T.
Proof.
  intros HT. unfold loopPosition. rewrite Z.mod_mod by lia. reflexivity.
Qed.

Lemma evaluateLoopPattern_ratchetOpen l now :
  Loop.active l = true -> Loop.pattern l = LOOP_RATCHET ->
  0 < Loop.patternTempo l < 2 ^ 16 ->
  evaluateLoopPattern l now = ratchetOpen (loopPhase l now) (Loop.patternTempo l).
Proof.
  intros Hact Hpat HT.
  rewrite evaluateLoopPattern_ratchet by assumption.
  rewrite loopPosition_phase by lia.
  apply ratchetGate_exact; [|lia].
  apply Z.mod_pos_bound. lia.
Qed.

Lemma loopPhase_start l e :
  0 <= e < Loop.patternTempo l -> Loop.patternTempo l < 2 ^ 16 ->
  loopPhase l (Loop.patternStartTime l + e) = e.
Proof.
  intros He HT. unfold loopPhase.
  replace (Loop.patternStartTime l + e - Loop.patternStartTime l) with e
    by lia.
  change (2 ^ 16) with 65536 in HT.
  unfold u32. rewrite (Z.mod_small e) by lia. apply Z.mod_small. lia.
Qed.

(** C8.  The RATCHET gate of [evaluateLoopPattern], for an active loop and
    a period [0 < T < 2^16] (the tempo is a [uint16_t]): the value computed
    in single precision is the threshold function [frac(12 * position) < 1/2]
    of exact arithmetic at the position [(elapsed mod T) / T], so it depends
    on the elapsed time modulo the period only; the instant lies in one of 12
    sub-cycles [k * T <= 12 * phase < (k + 1) * T] and the gate is open
    exactly in the first half of it; and for a period of at least 24 ms each
    of the 12 sub-cycles has an instant with the gate open followed by an
    instant with the gate closed. *)
Theorem ratchet_gate_twelve_subcycles (l : Loop.t) (now : Z) :
  Loop.active l = true -> Loop.pattern l = LOOP_RATCHET ->
  0 < Loop.patternTempo l < 2 ^ 16 ->
  let T := Loop.patternTempo l in
  evaluateLoopPattern l now = ratchetOpen (loopPhase l now) T
  /\ (forall now', loopPhase l now' = loopPhase l now ->
        evaluateLoopPattern l now' = evaluateLoopPattern l now)
  /\ (exists k, 0 <= k < 12
        /\ k * T <= 12 * loopPhase l now < (k + 1) * T
        /\ (evaluateLoopPattern l now = true
            <-> 2 * (12 * loopPhase l now - k * T) < T))
  /\ (24 <= T -> forall k, 0 <= k < 12 ->
        exists on off,
          k * T <= 12 * on /\ on < off /\ 12 * off < (k + 1) * T
          /\ evaluateLoopPattern l (Loop.patternStartTime l + on) = true
          /\ evaluateLoopPattern l (Loop.patternStartTime l + off) = false).
Proof.
  intros Hact Hpat HT T.
  pose proof (evaluateLoopPattern_ratchetOpen l) as Hgate.
  specialize (fun t => Hgate t Hact Hpat HT). fold T in Hgate.
  split; [apply Hgate|]. split.
  { intros now' Hsame. rewrite !Hgate, Hsame. reflexivity. }
  split.
  - assert (0 <= loopPhase l now < T) as Hr
      by (apply Z.mod_pos_bound; unfold T; lia).
    set (r := loopPhase l now) in *.
    exists (12 * r / T).
    pose proof (Z.div_mod (12 * r) T ltac:(lia)) as Hdm.
    pose proof (Z.mod_pos_bound (12 * r) T ltac:(lia)) as Hm.
    assert (0 <= 12 * r / T) by (apply Z.div_pos; lia).
    assert (12 * r / T < 12) by (apply Z.div_lt_upper_bound; lia).
    split; [lia|]. split; [nia|].
    rewrite Hgate. fold r. unfold ratchetOpen. rewrite Z.ltb_lt.
    replace (12 * r - 12 * r / T * T) with ((12 * r) mod T) by lia.
    reflexivity.
  - intros H24 k Hk.
    set (on := (k * T + 11) / 12). set (off := ((2 * k + 1) * T + 23) / 24).
    assert (k * T <= 12 * on < k * T + 12) as Hon
      by (unfold on; Z.div_mod_to_equations; lia).
    assert ((2 * k + 1) * T <= 24 * off < (2 * k + 1) * T + 24) as Hoff
      by (unfold off; Z.div_mod_to_equations; lia).
    assert (0 <= k * T) as HkT by nia.
    assert (k * T + T <= 12 * T) as Hlast by nia.
    exists on, off.
    split; [lia|]. split; [lia|]. split; [lia|].
    rewrite !Hgate, !loopPhase_start by (fold T; lia). fold T.
    split.
    + rewrite (ratchetOpen_even on T (2 * k) (24 * on - 2 * k * T)) by lia.
      rewrite Z.even_mul. reflexivity.
    + rewrite (ratchetOpen_even off T (2 * k + 1)
                 (24 * off - (2 * k + 1) * T)) by lia.
      rewrite Z.even_add, Z.even_mul. reflexivity.
Qed.

Lemma ratchet_gate_twelve_subcycles_witness :
  let l := {| Loop.active := true; Loop.pattern := LOOP_RATCHET;
              Loop.patternStartTime := 1000; Loop.patternTempo := 480;
              Loop.gateState := false |} in
  Loop.active l = true /\ Loop.pattern l = LOOP_RATCHET /\
  0 < Loop.patternTempo l < 2 ^ 16 /\
  evaluateLoopPattern l 1270 = ratchetOpen (loopPhase l 1270) 480.
Proof.
  intros l.
  assert (Loop.active l = true) as Hact by reflexivity.
  assert (Loop.pattern l = LOOP_RATCHET) as Hpat by reflexivity.
  assert (0 < Loop.patternTempo l < 2 ^ 16) as HT by (simpl; lia).
  split; [exact Hact|]. split; [exact Hpat|]. split; [exact HT|].
  exact (proj1 (ratchet_gate_twelve_subcycles l 1270 Hact Hpat HT)).
Defined.

(** ** Output stage, rhythm helper and buttons *)

(** X1.  [fastSin] is a triangle on the top byte [index] of the phase,
    rising by 512 per index from -32768 and falling by 512 per index after
    the middle; but at the middle, [index = 128], the peak value 32768 does
    not fit [int16_t] and comes out as -32768.  The value never exceeds
    32256. *)
Theorem fastSin_triangle_wraps_at_peak (ph : Z) :
  is_u32 ph ->
  let index := ph / 2 ^ 24 in
  (index < 128 -> fastSin ph = 512 * index - 32768) /\
  (128 < index -> fastSin ph = 32768 - 512 * (index - 128)) /\
  (index = 128 -> fastSin ph = -32768) /\
  -32768 <= fastSin ph <= 32256.
Proof.
  intros Hph index. unfold is_u32 in Hph.
  assert (0 <= index < 256) as Hi.
  { unfold index. change (2 ^ 24) with 16777216.
    Z.div_mod_to_equations. lia. }
  assert (fastSin ph
          = if index <? 128 then s16 (index * 512 - 32768)
            else s16 (32768 - (index - 128) * 512)) as Hdef.
  { unfold fastSin. rewrite Z.shiftr_div_pow2 by lia. fold index.
    rewrite u8_id by (unfold is_u8; lia). reflexivity. }
  rewrite Hdef.
  destruct (Z.ltb_spec index 128) as [Hlt | Hge].
  - rewrite s16_id by (unfold is_s16; lia).
    repeat split; intros; lia.
  - destruct (Z.eq_dec index 128) as [-> | Hne].
    + change (s16 (32768 - (128 - 128) * 512)) with (-32768).
      repeat split; intros; lia.
    + rewrite s16_id by (unfold is_s16; lia).
      repeat split; intros; lia.
Qed.

Lemma fastSin_triangle_wraps_at_peak_witness :
  is_u32 2147483648 /\ fastSin 2147483648 = -32768
  /\ fastSin 2164260864 = 32256.
Proof.
  assert (is_u32 2147483648) as H by (unfold is_u32; lia).
  split; [exact H|]. split.
  - exact (proj1 (proj2 (proj2 (fastSin_triangle_wraps_at_peak _ H)))
             eq_refl).
  - reflexivity.
Defined.

(** X2.  The PWM level of a 16-bit sample is [sample / 256 + 128] without
    wrap-around: it lies in [0, 255], silence is the middle level 128, and a
    larger sample never gives a smaller level. *)
Theorem pwmValue_no_wrap (sample sample' : Z) :
  is_s16 sample -> is_s16 sample' ->
  pwmValue sample = sample / 256 + 128
  /\ 0 <= pwmValue sample <= 255
  /\ pwmValue 0 = 128
  /\ (sample <= sample' -> pwmValue sample <= pwmValue sample').
Proof.
  assert (forall s, is_s16 s -> pwmValue s = s / 256 + 128) as Hval.
  { intros s Hs. unfold pwmValue, is_s16 in *.
    rewrite Z.shiftr_div_pow2 by lia. change (2 ^ 8) with 256.
    apply u8_id. unfold is_u8. Z.div_mod_to_equations. lia. }
  intros Hs Hs'. rewrite (Hval sample Hs), (Hval sample' Hs').
  unfold is_s16 in *.
  split; [reflexivity|]. split; [Z.div_mod_to_equations; lia|].
  split; [reflexivity|].
  intros Hle. assert (sample / 256 <= sample' / 256)
    by (apply Z.div_le_mono; lia). lia.
Qed.

Lemma pwmValue_no_wrap_witness :
  is_s16 (-32768) /\ is_s16 32767 /\ pwmValue (-32768) = 0
  /\ pwmValue (-32768) <= pwmValue 32767.
Proof.
  assert (is_s16 (-32768)) as H1 by (unfold is_s16; lia).
  assert (is_s16 32767) as H2 by (unfold is_s16; lia).
  split; [exact H1|]. split; [exact H2|].
  destruct (pwmValue_no_wrap (-32768) 32767 H1 H2) as (Hv & _ & _ & Hm).
  split; [exact Hv|]. apply Hm. lia.
Defined.

Lemma isEuclideanHit_mod step steps pulses :
  0 < pulses < steps -> 0 <= step ->
  isEuclideanHit step steps pulses = ((step * pulses) mod steps <? pulses).
Proof.
  intros Hp Hs. unfold isEuclideanHit.
  destruct (Z.leb_spec steps pulses); [lia|].
  destruct (Z.eqb_spec pulses 0); [lia|].
  rewrite Z.rem_mod_nonneg by nia. reflexivity.
Qed.

(** A step is a hit exactly when the quotient [step * pulses / steps] has
    moved on from the previous step. *)
Lemma euclid_quotient_step n p m :
  0 < p < n -> 1 <= m ->
  (m * p) / n
  = ((m - 1) * p) / n + (if (m * p) mod n <? p then 1 else 0).
Proof.
  intros Hp Hm.
  pose proof (Z.div_mod (m * p) n ltac:(lia)) as Hdm.
  pose proof (Z.mod_pos_bound (m * p) n ltac:(lia)) as Hr.
  set (q := m * p / n) in *. set (r := (m * p) mod n) in *.
  destruct (Z.ltb_spec r p) as [Hlt | Hge].
  - symmetry. assert ((m - 1) * p / n = q - 1) as ->; [|lia].
    symmetry. apply (Z.div_unique_pos _ _ _ (n + r - p)); [lia|]. nia.
  - symmetry. assert ((m - 1) * p / n = q) as ->; [|lia].
    symmetry. apply (Z.div_unique_pos _ _ _ (r - p)); [lia|]. nia.
Qed.

Lemma euclideanHits_prefix n p (k : nat) :
  0 < p < n ->
  length (filter (fun step => isEuclideanHit step n p = true)
            (seqZ 0 (Z.of_nat (S k))))
  = Z.to_nat (1 + (Z.of_nat k * p) / n).
Proof.
  intros Hp. induction k as [|k IH].
  - change (Z.of_nat 1) with 1. change (Z.of_nat 0) with 0.
    rewrite seqZ_cons by lia. rewrite (seqZ_nil _ (Z.pred 1)) by lia.
    rewrite filter_cons, filter_nil, decide_True.
    + rewrite Z.mul_0_l, Z.div_0_l by lia. reflexivity.
    + rewrite isEuclideanHit_mod by lia.
      rewrite Z.mul_0_l, Z.mod_0_l by lia. apply Z.ltb_lt. lia.
  - rewrite seqZ_S, filter_app, length_app, IH. clear IH.
    rewrite Z.add_0_l.
    rewrite (euclid_quotient_step n p (Z.of_nat (S k))) by lia.
    replace (Z.of_nat (S k) - 1) with (Z.of_nat k) by lia.
    assert (0 <= Z.of_nat k * p / n) by (apply Z.div_pos; nia).
    rewrite filter_cons, filter_nil.
    rewrite isEuclideanHit_mod by lia.
    destruct (Z.ltb_spec ((Z.of_nat (S k) * p) mod n) p) as [Hlt | Hge].
    + rewrite decide_True by reflexivity. simpl length. lia.
    + rewrite decide_False by discriminate. simpl length. lia.
Qed.

Lemma euclideanHits_upto n p m :
  0 < p < n -> 1 <= m ->
  length (filter (fun step => isEuclideanHit step n p = true) (seqZ 0 m))
  = Z.to_nat (1 + ((m - 1) * p) / n).
Proof.
  intros Hp Hm.
  pose proof (euclideanHits_prefix n p (Z.to_nat (m - 1)) Hp) as H.
  replace (Z.of_nat (S (Z.to_nat (m - 1)))) with m in H by lia.
  rewrite Z2Nat.id in H by lia. exact H.
Qed.

(** X3.  [isEuclideanHit] spreads [pulses] hits over a cycle of [steps]
    steps: with [pulses < steps] exactly [pulses] of the steps
    [0 .. steps - 1] are hits (none for [pulses = 0], and step 0 is one of
    them otherwise); with [pulses >= steps], which includes [steps = 0],
    every step is a hit and no remainder is taken. *)
Theorem isEuclideanHit_count (steps pulses : Z) :
  is_u8 steps -> is_u8 pulses ->
  (steps <= pulses -> forall step, isEuclideanHit step steps pulses = true)
  /\ (pulses < steps ->
        length (euclideanHits steps pulses) = Z.to_nat pulses)
  /\ (0 < pulses < steps -> isEuclideanHit 0 steps pulses = true).
Proof.
  intros Hs Hp. unfold is_u8 in *. split; [|split].
  - intros Hge step. unfold isEuclideanHit.
    destruct (Z.leb_spec steps pulses); [reflexivity | lia].
  - intros Hlt. unfold euclideanHits.
    destruct (Z.eq_dec pulses 0) as [-> | Hnz].
    + assert (forall l : list Z,
                filter (fun step => isEuclideanHit step steps 0 = true) l
                = []) as Hnone.
      { induction l as [|x l IH]; [reflexivity|].
        rewrite filter_cons, IH, decide_False; [reflexivity|].
        unfold isEuclideanHit.
        destruct (Z.leb_spec steps 0); [lia | discriminate]. }
      rewrite Hnone. reflexivity.
    + rewrite euclideanHits_upto by lia. f_equal.
      assert ((steps - 1) * pulses / steps = pulses - 1) as ->; [|lia].
      symmetry. apply (Z.div_unique_pos _ _ _ (steps - pulses)); [lia|].
      ring.
  - intros Hlt. rewrite isEuclideanHit_mod by lia.
    rewrite Z.mul_0_l, Z.mod_0_l by lia. apply Z.ltb_lt. lia.
Qed.

Lemma isEuclideanHit_count_witness :
  is_u8 8 /\ is_u8 6 /\ length (euclideanHits 8 6) = 6%nat.
Proof.
  assert (is_u8 8) as H8 by (unfold is_u8; lia).
  assert (is_u8 6) as H6 by (unfold is_u8; lia).
  split; [exact H8|]. split; [exact H6|].
  apply (proj1 (proj2 (isEuclideanHit_count 8 6 H8 H6))). lia.
Defined.

Lemma readButton_lastState reading t1 t2 btn :
  Button.lastState (snd (readButton reading t1 t2 btn)) = reading.
Proof.
  unfold readButton.
  destruct (_ && _); reflexivity.
Qed.

(** While the level stays low a settled button stays settled and reports
    nothing. *)
Lemma readButtonRun_held polls btn :
  Forall (fun poll => fst (fst poll) = false) polls ->
  Button.currentState btn = false ->
  Forall (fun pressed => pressed = false) (fst (readButtonRun polls btn))
  /\ Button.currentState (snd (readButtonRun polls btn)) = false.
Proof.
  revert btn. induction polls as [|[[reading t1] t2] polls IH];
    intros btn Hlow Hcur.
  - split; [constructor | exact Hcur].
  - inversion Hlow as [|? ? Hr Hlow']; subst. simpl in Hr. subst reading.
    cbn [readButtonRun].
    assert (readButton false t1 t2 btn
            = (false, snd (readButton false t1 t2 btn))
            /\ Button.currentState (snd (readButton false t1 t2 btn)) = false)
      as [Hres Hcur'].
    { unfold readButton. rewrite Hcur. cbn [Bool.eqb negb].
      rewrite andb_false_r. split; reflexivity. }
    rewrite Hres.
    destruct (IH _ Hlow' Hcur') as [Hall Hend].
    destruct (readButtonRun polls _) as [rest btn''].
    split; [constructor; [reflexivity | exact Hall] | exact Hend].
Qed.

(** X4.  A button held down is reported once: over any run of polls that all
    read the low level, whatever their timing, [readButton] returns [true]
    at most once, only for a button whose settled state was released, and
    never again once it has. *)
Theorem readButton_press_reported_once (polls : list (bool * Z * Z))
    (btn : Button.t) :
  Forall (fun poll => fst (fst poll) = false) polls ->
  (length (filter (fun pressed => pressed = true)
             (fst (readButtonRun polls btn))) <= 1)%nat
  /\ (Button.currentState btn = false ->
      Forall (fun pressed => pressed = false)
        (fst (readButtonRun polls btn))).
Proof.
  intros Hlow. split.
  - revert btn. induction polls as [|[[reading t1] t2] polls IH]; intros btn.
    + simpl. lia.
    + inversion Hlow as [|? ? Hr Hlow']; subst. simpl in Hr. subst reading.
      cbn [readButtonRun].
      destruct (readButton false t1 t2 btn) as [pressed btn'] eqn:Hrb.
      destruct pressed.
      * (* the press is reported: the button is settled as pressed *)
        assert (Button.currentState btn' = false) as Hcur.
        { unfold readButton in Hrb.
          destruct (_ && _) in Hrb; inversion Hrb; reflexivity. }
        destruct (readButtonRun_held polls btn' Hlow' Hcur) as [Hall _].
        destruct (readButtonRun polls btn') as [rest btn''].
        cbn [fst] in *. rewrite filter_cons, decide_True by reflexivity.
        assert (filter (fun pressed => pressed = true) rest = []) as ->.
        { clear -Hall. induction Hall as [|x l Hx _ IHl]; [reflexivity|].
          rewrite filter_cons, decide_False, IHl; [reflexivity|].
          rewrite Hx. discriminate. }
        simpl. lia.
      * specialize (IH Hlow' btn').
        destruct (readButtonRun polls btn') as [rest btn''].
        cbn [fst] in *. rewrite filter_cons, decide_False by discriminate.
        exact IH.
  - intros Hcur. apply (readButtonRun_held polls btn Hlow Hcur).
Qed.

Lemma readButton_press_reported_once_witness :
  let polls := [(false, 0, 0); (false, 60, 60); (false, 120, 120)] in
  Forall (fun poll => fst (fst poll) = false) polls
  /\ fst (readButtonRun polls (Button.init 3)) = [false; true; false]
  /\ (length (filter (fun pressed => pressed = true)
                (fst (readButtonRun polls (Button.init 3)))) <= 1)%nat.
Proof.
  intros polls.
  assert (Forall (fun poll => fst (fst poll) = false) polls) as H
    by (repeat constructor).
  split; [exact H|]. split; [reflexivity|].
  exact (proj1 (readButton_press_reported_once polls (Button.init 3) H)).
Defined.

Lemma readButtonRun_bounce t0 polls btn :
  Forall (bouncing t0) polls ->
  Button.lastState btn = false ->
  Button.lastDebounceTime btn = u32 t0 ->
  Forall (fun pressed => pressed = false) (fst (readButtonRun polls btn))
  /\ Button.currentState (snd (readButtonRun polls btn))
     = Button.currentState btn.
Proof.
  revert btn. induction polls as [|[[reading t1] t2] polls IH];
    intros btn Hb Hlast Htime.
  - split; [constructor | reflexivity].
  - inversion Hb as [|? ? [Hr Ht] Hb']; subst. simpl in Hr, Ht.
    subst reading. cbn [readButtonRun].
    assert (readButton false t1 t2 btn
            = (false,
               {| Button.pin := Button.pin btn; Button.lastState := false;
                  Button.currentState := Button.currentState btn;
                  Button.lastDebounceTime := u32 t0 |})) as ->.
    { unfold readButton. rewrite Hlast, Htime. cbn [Bool.eqb negb].
      destruct (Z.ltb_spec 50 (u32 (u32 t2 - u32 t0))); [lia|].
      reflexivity. }
    set (btn' := {| Button.pin := Button.pin btn; Button.lastState := false;
                    Button.currentState := Button.currentState btn;
                    Button.lastDebounceTime := u32 t0 |}).
    destruct (IH btn' Hb' eq_refl eq_refl) as [Hall Hend].
    destruct (readButtonRun polls btn') as [rest btn''].
    split; [constructor; [reflexivity | exact Hall] | exact Hend].
Qed.

(** X5.  [readButton] debounces a press.  From a released button, when the
    level goes low at the clock value [t0], every poll that still reads low
    within 50 ms of [t0] returns [false] and leaves the settled state
    released; the first poll that reads low more than 50 ms after [t0]
    returns [true] and settles the button as held. *)
Theorem readButton_debounce (btn : Button.t) (t0 t0' : Z)
    (polls : list (bool * Z * Z)) (t1 t2 : Z) :
  Button.lastState btn = true -> Button.currentState btn = true ->
  bouncing t0 (false, t0, t0') ->
  Forall (bouncing t0) polls ->
  50 < u32 (u32 t2 - u32 t0) ->
  let '(early, btn') := readButtonRun ((false, t0, t0') :: polls) btn in
  Forall (fun pressed => pressed = false) early
  /\ isButtonHeld btn' = false
  /\ fst (readButton false t1 t2 btn') = true
  /\ isButtonHeld (snd (readButton false t1 t2 btn')) = true.
Proof.
  intros Hlast Hcur [_ Hfirst] Hpolls Hlate. cbn [snd] in Hfirst.
  cbn [readButtonRun].
  set (btn1 := {| Button.pin := Button.pin btn; Button.lastState := false;
                  Button.currentState := true;
                  Button.lastDebounceTime := u32 t0 |}).
  assert (readButton false t0 t0' btn = (false, btn1)) as ->.
  { unfold readButton. rewrite Hlast, Hcur. cbn [Bool.eqb negb].
    destruct (Z.ltb_spec 50 (u32 (u32 t0' - u32 t0))); [lia|].
    reflexivity. }
  destruct (readButtonRun_bounce t0 polls btn1 Hpolls eq_refl eq_refl)
    as [Hall Hend].
  assert (Button.lastState (snd (readButtonRun polls btn1)) = false
          /\ Button.lastDebounceTime (snd (readButtonRun polls btn1))
             = u32 t0) as [Hlast' Htime'].
  { clear Hall Hend. assert (Button.lastState btn1 = false) as Hl
      by reflexivity.
    assert (Button.lastDebounceTime btn1 = u32 t0) as Ht by reflexivity.
    revert Hl Ht. generalize btn1. clear btn1.
    induction Hpolls as [|[[reading p1] p2] polls [Hr Hp] _ IH];
      intros b Hl Ht; [split; assumption|].
    simpl in Hr, Hp. subst reading. cbn [readButtonRun].
    destruct (readButton false p1 p2 b) as [pressed b'] eqn:Hrb.
    assert (Button.lastState b' = false
            /\ Button.lastDebounceTime b' = u32 t0) as [Hl' Ht'].
    { unfold readButton in Hrb. rewrite Hl, Ht in Hrb.
      cbn [Bool.eqb negb] in Hrb.
      destruct (_ && _) in Hrb; inversion Hrb; split; reflexivity. }
    specialize (IH b' Hl' Ht').
    destruct (readButtonRun polls b') as [rest b'']. exact IH. }
  destruct (readButtonRun polls btn1) as [rest btn'].
  cbn [fst snd] in *.
  split; [constructor; [reflexivity | exact Hall]|].
  assert (Button.currentState btn' = true) as Hcur' by exact Hend.
  split; [unfold isButtonHeld; rewrite Hcur'; reflexivity|].
  unfold readButton. rewrite Hlast', Htime', Hcur'. cbn [Bool.eqb negb].
  destruct (Z.ltb_spec 50 (u32 (u32 t2 - u32 t0))); [|lia].
  split; reflexivity.
Qed.

Lemma readButton_debounce_witness :
  let btn := Button.init 5 in
  Button.lastState btn = true /\ Button.currentState btn = true
  /\ bouncing 1000 (false, 1000, 1000)
  /\ Forall (bouncing 1000) [(false, 1020, 1020); (false, 1040, 1040)]
  /\ 50 < u32 (u32 1060 - u32 1000)
  /\ fst (readButton false 1060 1060
            (snd (readButtonRun
                    [(false, 1000, 1000); (false, 1020, 1020);
                     (false, 1040, 1040)] btn)))
     = true.
Proof.
  intros btn.
  assert (bouncing 1000 (false, 1000, 1000)) as H0
    by (split; [reflexivity | vm_compute; discriminate]).
  assert (Forall (bouncing 1000) [(false, 1020, 1020); (false, 1040, 1040)])
    as Hp by (repeat constructor; vm_compute; discriminate).
  assert (50 < u32 (u32 1060 - u32 1000)) as Hl by reflexivity.
  split; [reflexivity|]. split; [reflexivity|]. split; [exact H0|].
  split; [exact Hp|]. split; [exact Hl|].
  pose proof (readButton_debounce btn 1000 1000 _ 1060 1060
                eq_refl eq_refl H0 Hp Hl) as H.
  exact (proj1 (proj2 (proj2 H))).
Defined.

(** ** The echo line as a ring buffer *)

Lemma echoStage_shape siren rev e x :
  exists v,
    is_s16 v
    /\ Echo.echoBuffer (echoStage siren rev e x).1
       = <[Z.to_nat (Echo.echoWritePos e) := v]> (Echo.echoBuffer e)
    /\ Echo.echoWritePos (echoStage siren rev e x).1
       = u16 (Z.rem (Echo.echoWritePos e + 1) MAX_DELAY_SAMPLES).
Proof.
  unfold echoStage.
  destruct (0 <? Siren.delayIndex siren).
  - destruct (Reverse.active rev && Reverse.reversing rev).
    + destruct (pitchTap rev e (echoRead siren e)) as [[c l] w].
      eexists. split; [apply s16_range|]. split; reflexivity.
    + eexists. split; [apply s16_range|]. split; reflexivity.
  - exists 0. split; [unfold is_s16; lia|]. split; reflexivity.
Qed.

Lemma next_write_pos wp :
  0 <= wp < MAX_DELAY_SAMPLES ->
  u16 (Z.rem (wp + 1) MAX_DELAY_SAMPLES) = (wp + 1) mod MAX_DELAY_SAMPLES.
Proof.
  intros Hwp. unfold MAX_DELAY_SAMPLES in *.
  rewrite Z.rem_mod_nonneg by lia.
  apply u16_id. unfold is_u16. Z.div_mod_to_equations. lia.
Qed.

Lemma echoStage_ok siren rev e x :
  echoLineOk e -> echoLineOk (echoStage siren rev e x).1.
Proof.
  intros (Hlen & Hwp & Hall).
  destruct (echoStage_shape siren rev e x) as (v & Hv & Hbuf & Hpos).
  unfold echoLineOk. rewrite Hbuf, Hpos, length_insert.
  split; [exact Hlen|]. split.
  - rewrite next_write_pos by assumption.
    apply Z.mod_pos_bound. unfold MAX_DELAY_SAMPLES. lia.
  - apply Forall_insert; assumption.
Qed.

Lemma echoRun_ok siren rev xs e :
  echoLineOk e -> echoLineOk (echoRun siren rev xs e).
Proof.
  revert e. induction xs as [|x xs IH]; intros e He; [exact He|].
  apply IH. apply echoStage_ok. exact He.
Qed.

(** X6.  The echo line is used within its bounds: whatever the samples, the
    feedback, the reverse mode and the delay setting, every tick of the echo
    section leaves a buffer of [MAX_DELAY_SAMPLES] 16-bit samples with the
    write position inside it, and for a delay time of at most
    [MAX_DELAY_SAMPLES] the read position is an index of the buffer. *)
Theorem echo_line_in_bounds (siren : Siren.t) (rev : Reverse.t)
    (xs : list Z) (e : Echo.t) :
  echoLineOk e ->
  echoLineOk (echoRun siren rev xs e)
  /\ (0 <= Siren.echoTime siren <= MAX_DELAY_SAMPLES ->
      0 <= echoReadPos siren (echoRun siren rev xs e) < MAX_DELAY_SAMPLES).
Proof.
  intros He. pose proof (echoRun_ok siren rev xs e He) as Hok.
  split; [exact Hok|]. intros Htime.
  destruct Hok as (_ & Hwp & _). unfold echoReadPos.
  set (wp := Echo.echoWritePos (echoRun siren rev xs e)) in *.
  unfold MAX_DELAY_SAMPLES in *.
  rewrite Z.rem_mod_nonneg by lia.
  rewrite u16_id by (unfold is_u16; Z.div_mod_to_equations; lia).
  apply Z.mod_pos_bound. lia.
Qed.

Lemma echoLineOk_init : echoLineOk Echo.init.
Proof.
  unfold echoLineOk, Echo.init, MAX_DELAY_SAMPLES. cbn [Echo.echoBuffer
    Echo.echoWritePos].
  rewrite length_replicate. split; [lia|]. split; [lia|].
  apply Forall_replicate. unfold is_s16. lia.
Qed.

Lemma echo_line_in_bounds_witness :
  echoLineOk Echo.init
  /\ echoLineOk (echoRun (pressDelayButton Siren.init) Reverse.init
                   [1000; -2000; 30] Echo.init).
Proof.
  split; [exact echoLineOk_init|].
  exact (proj1 (echo_line_in_bounds _ _ _ _ echoLineOk_init)).
Defined.

Lemma echoStage_off siren rev e x :
  Siren.delayIndex siren = 0 ->
  Echo.echoBuffer (echoStage siren rev e x).1
  = <[Z.to_nat (Echo.echoWritePos e) := 0]> (Echo.echoBuffer e)
  /\ (echoStage siren rev e x).2 = x.
Proof.
  intros Hoff. unfold echoStage. rewrite Hoff. split; reflexivity.
Qed.

Lemma echoOutputs_off siren rev xs e :
  Siren.delayIndex siren = 0 -> echoOutputs siren rev xs e = xs.
Proof.
  intros Hoff. revert e. induction xs as [|x xs IH]; intros e;
    [reflexivity|].
  cbn [echoOutputs].
  pose proof (echoStage_off siren rev e x Hoff) as [_ Hout].
  destruct (echoStage siren rev e x) as [e' out]. cbn [snd] in Hout.
  rewrite Hout, IH. reflexivity.
Qed.

(** With the delay off, the cells written during the last ticks are 0: the
    cell [i] once the write position has passed it. *)
Lemma echoRun_off_zeroed siren rev xs e :
  Siren.delayIndex siren = 0 -> echoLineOk e ->
  let e' := echoRun siren rev xs e in
  Echo.echoWritePos e'
  = (Echo.echoWritePos e + Z.of_nat (length xs)) mod MAX_DELAY_SAMPLES
  /\ forall i, 0 <= i < MAX_DELAY_SAMPLES ->
       (i - Echo.echoWritePos e) mod MAX_DELAY_SAMPLES
       < Z.of_nat (length xs) ->
       Echo.echoBuffer e' !! Z.to_nat i = Some 0.
Proof.
  intros Hoff He. induction xs as [|x xs IH] using rev_ind.
  - cbv zeta. cbn [length echoRun foldl]. destruct He as (_ & Hwp & _).
    split.
    + rewrite Z.add_0_r, Z.mod_small by assumption. reflexivity.
    + intros i Hi Hlt. exfalso.
      pose proof (Z.mod_pos_bound (i - Echo.echoWritePos e)
                    MAX_DELAY_SAMPLES ltac:(unfold MAX_DELAY_SAMPLES; lia)).
      change (Z.of_nat 0) with 0 in Hlt. lia.
  - cbv zeta in *. rewrite echoRun_snoc, length_app.
    destruct IH as [Hpos Hzero].
    pose proof (echoRun_ok siren rev xs e He) as (Hlen' & Hwp' & _).
    set (e1 := echoRun siren rev xs e) in *.
    destruct (echoStage_shape siren rev e1 x) as (v & _ & _ & Hnext).
    destruct (echoStage_off siren rev e1 x Hoff) as [Hbuf _].
    rewrite Hnext, Hbuf, next_write_pos by assumption.
    cbn [length]. rewrite Nat2Z.inj_add. change (Z.of_nat 1) with 1.
    set (n := Z.of_nat (length xs)) in *.
    set (wp := Echo.echoWritePos e) in *.
    unfold MAX_DELAY_SAMPLES in *.
    split.
    + rewrite Hpos. rewrite Z.add_mod_idemp_l by lia. f_equal. lia.
    + intros i Hi Hlt.
      destruct (Z.eq_dec i (Echo.echoWritePos e1)) as [-> | Hne].
      * apply list_lookup_insert_eq. lia.
      * rewrite list_lookup_insert_ne by lia.
        apply Hzero; [exact Hi|].
        destruct (Z.eq_dec ((i - wp) mod 11025) n) as [Heq | ?]; [|lia].
        exfalso. apply Hne. rewrite Hpos, <- Heq.
        rewrite Z.add_mod_idemp_r by lia.
        replace (wp + (i - wp)) with i by lia.
        symmetry. apply Z.mod_small. lia.
Qed.

(** X7.  With the delay switched off ([delayIndex = 0]) the echo section
    passes the dry signal through unchanged and clears the line behind it:
    once [MAX_DELAY_SAMPLES] ticks have run with the delay off, every cell of
    the echo buffer is 0, so no old echo is left when the delay is switched
    on again. *)
Theorem echo_off_clears_line (siren : Siren.t) (rev : Reverse.t)
    (xs : list Z) (e : Echo.t) :
  Siren.delayIndex siren = 0 -> echoLineOk e ->
  echoOutputs siren rev xs e = xs
  /\ (MAX_DELAY_SAMPLES <= Z.of_nat (length xs) ->
      Echo.echoBuffer (echoRun siren rev xs e)
      = replicate (Z.to_nat MAX_DELAY_SAMPLES) 0).
Proof.
  intros Hoff He. split; [apply echoOutputs_off; exact Hoff|].
  intros Hlong.
  destruct (echoRun_off_zeroed siren rev xs e Hoff He) as [_ Hzero].
  pose proof (echoRun_ok siren rev xs e He) as (Hlen & _ & _).
  apply list_eq. intros i.
  destruct (Nat.lt_ge_cases i (Z.to_nat MAX_DELAY_SAMPLES)) as [Hlt | Hge].
  - rewrite (lookup_replicate_2 _ _ _ Hlt).
    replace i with (Z.to_nat (Z.of_nat i)) by lia.
    apply Hzero; [lia|].
    pose proof (Z.mod_pos_bound (Z.of_nat i - Echo.echoWritePos e)
                  MAX_DELAY_SAMPLES ltac:(unfold MAX_DELAY_SAMPLES; lia)).
    lia.
  - rewrite !lookup_ge_None_2; [reflexivity | |].
    + rewrite length_replicate. lia.
    + lia.
Qed.

Lemma echo_off_clears_line_witness :
  Siren.delayIndex Siren.init = 0 /\ echoLineOk Echo.init
  /\ echoOutputs Siren.init Reverse.init [700; -700; 12] Echo.init
     = [700; -700; 12].
Proof.
  split; [reflexivity|]. split; [exact echoLineOk_init|].
  exact (proj1 (echo_off_clears_line Siren.init Reverse.init _ _
                  eq_refl echoLineOk_init)).
Defined.

Lemma pressDelayButton_index siren :
  is_u8 (Siren.delayIndex siren) ->
  Siren.delayIndex (pressDelayButton siren)
  = (Siren.delayIndex siren + 1) mod 6.
Proof.
  intros Hd. unfold is_u8 in Hd. unfold pressDelayButton.
  cbn [Siren.delayIndex Siren.with_delay].
  rewrite Z.rem_mod_nonneg by lia.
  apply u8_id. unfold is_u8. Z.div_mod_to_equations. lia.
Qed.

Lemma pressDelayButton_time siren :
  Siren.echoTime (pressDelayButton siren)
  = default 0 (delayTimes
                 !! Z.to_nat (Siren.delayIndex (pressDelayButton siren))).
Proof. reflexivity. Qed.

Lemma delayTimes_cases i :
  0 <= i < 6 ->
  let t := default 0 (delayTimes !! Z.to_nat i) in
  delayTimes !! Z.to_nat i = Some t
  /\ 0 <= t < MAX_DELAY_SAMPLES /\ (t = 0 <-> i = 0).
Proof.
  intros Hi.
  assert (i = 0 \/ i = 1 \/ i = 2 \/ i = 3 \/ i = 4 \/ i = 5) as Hc by lia.
  unfold MAX_DELAY_SAMPLES.
  destruct Hc as [-> | [-> | [-> | [-> | [-> | ->]]]]]; cbv zeta;
    (split; [reflexivity|]); simpl; lia.
Qed.

Lemma pressDelayButton_iter siren k :
  is_u8 (Siren.delayIndex siren) ->
  let s := Nat.iter k pressDelayButton (pressDelayButton siren) in
  Siren.delayIndex s = (Siren.delayIndex siren + 1 + Z.of_nat k) mod 6
  /\ delayTimes !! Z.to_nat (Siren.delayIndex s) = Some (Siren.echoTime s).
Proof.
  intros Hd. cbv zeta.
  assert (forall s, delayTimes !! Z.to_nat (Siren.delayIndex (pressDelayButton s))
                    = Some (Siren.echoTime (pressDelayButton s))
                    \/ ~ 0 <= Siren.delayIndex (pressDelayButton s) < 6)
    as Htime.
  { intros s.
    destruct (Z_lt_dec (Siren.delayIndex (pressDelayButton s)) 6) as [Hlt|];
      [|right; lia].
    destruct (Z_le_dec 0 (Siren.delayIndex (pressDelayButton s))) as [Hle|];
      [|right; lia].
    left. rewrite pressDelayButton_time.
    exact (proj1 (delayTimes_cases _ (conj Hle Hlt))). }
  induction k as [|k IH].
  - cbn [Nat.iter].
    assert (Siren.delayIndex (pressDelayButton siren)
            = (Siren.delayIndex siren + 1 + Z.of_nat 0) mod 6) as Hi
      by (rewrite pressDelayButton_index by exact Hd; f_equal; lia).
    split; [exact Hi|].
    destruct (Htime siren) as [H | H]; [exact H|].
    exfalso. apply H. rewrite Hi. apply Z.mod_pos_bound. lia.
  - cbn [Nat.iter]. destruct IH as [IHi _].
    set (s := Nat.iter k pressDelayButton (pressDelayButton siren)) in *.
    assert (Siren.delayIndex (pressDelayButton s)
            = (Siren.delayIndex siren + 1 + Z.of_nat (S k)) mod 6) as Hi.
    { rewrite pressDelayButton_index
        by (rewrite IHi; unfold is_u8; Z.div_mod_to_equations; lia).
      rewrite IHi, Zplus_mod_idemp_l. f_equal. lia. }
    split; [exact Hi|].
    destruct (Htime s) as [H | H]; [exact H|].
    exfalso. apply H. rewrite Hi. apply Z.mod_pos_bound. lia.
Qed.

(** X8.  The delay button steps through the six entries of [delayTimes] and
    wraps: a press moves the index to [(delayIndex + 1) mod 6], and [k]
    further presses to [(delayIndex + 1 + k) mod 6], the delay time being
    the table entry of the index each time, shorter than the echo line and
    0 exactly for index 0 (delay off); six presses bring back the index and
    the delay time of the first, and fewer than six do not. *)
Theorem pressDelayButton_cycle (siren : Siren.t) :
  is_u8 (Siren.delayIndex siren) ->
  let s1 := pressDelayButton siren in
  let s7 := Nat.iter 6 pressDelayButton s1 in
  0 <= Siren.delayIndex s1 < 6
  /\ delayTimes !! Z.to_nat (Siren.delayIndex s1) = Some (Siren.echoTime s1)
  /\ 0 <= Siren.echoTime s1 < MAX_DELAY_SAMPLES
  /\ (Siren.echoTime s1 = 0 <-> Siren.delayIndex s1 = 0)
  /\ Siren.delayIndex s7 = Siren.delayIndex s1
  /\ Siren.echoTime s7 = Siren.echoTime s1
  /\ Siren.delayIndex s1 = (Siren.delayIndex siren + 1) mod 6
  /\ (forall k,
        Siren.delayIndex (Nat.iter k pressDelayButton s1)
        = (Siren.delayIndex siren + 1 + Z.of_nat k) mod 6
        /\ delayTimes
             !! Z.to_nat (Siren.delayIndex (Nat.iter k pressDelayButton s1))
           = Some (Siren.echoTime (Nat.iter k pressDelayButton s1)))
  /\ (forall k, (0 < k < 6)%nat ->
        Siren.delayIndex (Nat.iter k pressDelayButton s1)
        <> Siren.delayIndex s1).
Proof.
  intros Hd s1 s7.
  assert (Siren.delayIndex s1 = (Siren.delayIndex siren + 1) mod 6) as Hs1
    by (apply pressDelayButton_index; exact Hd).
  assert (0 <= Siren.delayIndex s1 < 6) as H1
    by (rewrite Hs1; apply Z.mod_pos_bound; lia).
  destruct (delayTimes_cases _ H1) as (Hlook & Hrange & Hzero).
  cbv zeta in *.
  assert (Siren.echoTime s1
          = default 0 (delayTimes !! Z.to_nat (Siren.delayIndex s1))) as Ht
    by reflexivity.
  rewrite <- Ht in *.
  pose proof (fun k => pressDelayButton_iter siren k Hd) as Hiter.
  cbv zeta in Hiter. fold s1 in Hiter.
  assert (Siren.delayIndex s7 = Siren.delayIndex s1) as H7.
  { unfold s7. rewrite (proj1 (Hiter 6%nat)), Hs1.
    Z.div_mod_to_equations. lia. }
  split; [exact H1|]. split; [exact Hlook|]. split; [exact Hrange|].
  split; [exact Hzero|]. split; [exact H7|].
  split.
  { pose proof (proj2 (Hiter 6%nat)) as H. fold s7 in H.
    rewrite H7, Hlook in H. congruence. }
  split; [exact Hs1|]. split; [exact Hiter|].
  intros k Hk. rewrite (proj1 (Hiter k)), Hs1.
  Z.div_mod_to_equations. lia.
Qed.

Lemma pressDelayButton_cycle_witness :
  is_u8 (Siren.delayIndex Siren.init)
  /\ Siren.echoTime (pressDelayButton Siren.init) = 1103
  /\ Siren.delayIndex (Nat.iter 6 pressDelayButton
                         (pressDelayButton Siren.init)) = 1.
Proof.
  assert (is_u8 (Siren.delayIndex Siren.init)) as H
    by (unfold is_u8; simpl; lia).
  split; [exact H|]. split; [reflexivity|].
  destruct (pressDelayButton_cycle Siren.init H) as (_ & _ & _ & _ & H7 & _).
  rewrite H7. reflexivity.
Defined.

(** ** Record mode keys *)

Lemma recorderTick_loopEnabled r x :
  Recorder.loopEnabled (recorderTick r x) = Recorder.loopEnabled r.
Proof.
  unfold recorderTick, playbackStage, recordStage.
  destruct (Recorder.playing r);
    [destruct (_ <? _); [|destruct (Recorder.loopEnabled r) eqn:Hl]|];
    cbn [fst Recorder.recording Recorder.recordPosition Recorder.loopEnabled];
    destruct (_ && _); try destruct (_ <=? _); cbn; auto.
Qed.

Lemma recorderRun_loopEnabled xs r :
  Recorder.loopEnabled (recorderRun xs r) = Recorder.loopEnabled r.
Proof.
  revert r. induction xs as [|x xs IH]; intros r; [reflexivity|].
  change (recorderRun (x :: xs) r) with (recorderRun xs (recorderTick r x)).
  rewrite IH. apply recorderTick_loopEnabled.
Qed.

(** One tick of playback inside the recording. *)
Lemma playbackStage_reads r :
  Recorder.playing r = true ->
  0 <= Recorder.recordPosition r < Recorder.recordLength r ->
  Recorder.recordLength r <= MAX_RECORD_SAMPLES ->
  playbackStage r
  = ({| Recorder.active := Recorder.active r;
        Recorder.recording := Recorder.recording r;
        Recorder.hasRecording := Recorder.hasRecording r;
        Recorder.buffer := Recorder.buffer r;
        Recorder.recordPosition := Recorder.recordPosition r + 1;
        Recorder.recordLength := Recorder.recordLength r;
        Recorder.playing := true;
        Recorder.loopEnabled := Recorder.loopEnabled r |},
     sample_get (Recorder.buffer r) (Recorder.recordPosition r), true).
Proof.
  intros Hplay Hpos Hlen. unfold playbackStage. rewrite Hplay.
  destruct (Z.ltb_spec (Recorder.recordPosition r) (Recorder.recordLength r));
    [|lia].
  rewrite u32_id by (unfold is_u32, MAX_RECORD_SAMPLES in *; lia).
  reflexivity.
Qed.

Lemma recorderOutputs_playing ys r :
  Recorder.playing r = true -> Recorder.recording r = false ->
  0 <= Recorder.recordPosition r ->
  Recorder.recordPosition r + Z.of_nat (length ys)
  <= Recorder.recordLength r ->
  Recorder.recordLength r <= MAX_RECORD_SAMPLES ->
  recorderOutputs ys r
  = map (fun k => (sample_get (Recorder.buffer r)
                     (Recorder.recordPosition r + Z.of_nat k), true))
        (seq 0 (length ys))
  /\ let r' := recorderRun ys r in
     Recorder.playing r' = true /\ Recorder.recording r' = false
     /\ Recorder.recordPosition r'
        = Recorder.recordPosition r + Z.of_nat (length ys)
     /\ Recorder.buffer r' = Recorder.buffer r
     /\ Recorder.recordLength r' = Recorder.recordLength r.
Proof.
  revert r. induction ys as [|y ys IH]; intros r Hplay Hrec Hpos Hfit Hlen.
  - cbv zeta. cbn [length recorderOutputs seq map].
    change (recorderRun [] r) with r. change (Z.of_nat 0) with 0.
    rewrite Z.add_0_r. repeat split; auto.
  - cbn [length] in Hfit. cbn [recorderOutputs].
    change (recorderRun (y :: ys) r) with (recorderRun ys (recorderTick r y)).
    unfold recorderTick.
    rewrite playbackStage_reads by (auto; lia). cbn [fst].
    set (r1 := {| Recorder.active := Recorder.active r;
                  Recorder.recording := Recorder.recording r;
                  Recorder.hasRecording := Recorder.hasRecording r;
                  Recorder.buffer := Recorder.buffer r;
                  Recorder.recordPosition := Recorder.recordPosition r + 1;
                  Recorder.recordLength := Recorder.recordLength r;
                  Recorder.playing := true;
                  Recorder.loopEnabled := Recorder.loopEnabled r |}).
    assert (recordStage r1 y = r1) as ->.
    { unfold recordStage. cbn [Recorder.recording r1]. rewrite Hrec.
      reflexivity. }
    destruct (IH r1 eq_refl Hrec) as [Hout Hstate].
    { cbn [Recorder.recordPosition r1]. lia. }
    { cbn [Recorder.recordPosition Recorder.recordLength r1]. lia. }
    { exact Hlen. }
    cbv zeta in Hstate. destruct Hstate as (Hp & Hr & Hposn & Hbuf & Hl).
    assert (Recorder.recordPosition r1 = Recorder.recordPosition r + 1)
      as Hpos1 by reflexivity.
    assert (Recorder.buffer r1 = Recorder.buffer r) as Hbuf1 by reflexivity.
    assert (Recorder.recordLength r1 = Recorder.recordLength r) as Hlen1
      by reflexivity.
    rewrite Hpos1 in Hposn, Hout. rewrite Hbuf1 in Hbuf, Hout.
    rewrite Hlen1 in Hl. clearbody r1.
    split.
    + rewrite Hout. cbn [length seq map]. rewrite Z.add_0_r. f_equal.
      rewrite <- seq_shift, map_map. apply map_ext. intros k.
      cbn [compose]. do 2 f_equal. lia.
    + cbv zeta. cbn [length]. repeat split; auto. rewrite Hposn. lia.
Qed.

(** X9.  Record, stop, play gives back what was recorded.  From a recorder
    that holds no recording, key 3 starts a recording; the following ticks
    store their mixed samples [xs] (fewer than the capacity); key 3 again
    stops with [recordLength] the number of samples; a third press starts
    the playback, whose next ticks hand exactly [xs], in order and marked as
    playing, to the mixer.  The tick after the last sample ends the playback
    with silence when the loop is off, and starts again from the first
    sample when it is on. *)
Theorem recorder_round_trip (r0 : Recorder.t) (xs ys : list Z) :
  Recorder.recording r0 = false -> Recorder.playing r0 = false ->
  Recorder.hasRecording r0 = false ->
  Z.of_nat (length (Recorder.buffer r0)) = MAX_RECORD_SAMPLES ->
  Z.of_nat (length xs) < MAX_RECORD_SAMPLES ->
  length ys = length xs ->
  let recorded := pressRecordKey (recorderRun xs (pressRecordKey r0)) in
  let playing := pressRecordKey recorded in
  let finished := recorderRun ys playing in
  Recorder.hasRecording recorded = true
  /\ Recorder.recordLength recorded = Z.of_nat (length xs)
  /\ recorderOutputs ys playing = map (fun x => (x, true)) xs
  /\ (Recorder.loopEnabled r0 = false ->
      (playbackStage finished).1.2 = 0
      /\ (playbackStage finished).2 = false
      /\ Recorder.playing (playbackStage finished).1.1 = false)
  /\ (Recorder.loopEnabled r0 = true ->
      forall x xs', xs = x :: xs' ->
        (playbackStage finished).1.2 = x
        /\ (playbackStage finished).2 = true).
Proof.
  intros Hrec0 Hplay0 Hhas0 Hlen0 Hn Hys.
  (* key 3: start *)
  set (rA := pressRecordKey r0).
  assert (Recorder.recording rA = true /\ Recorder.playing rA = false
          /\ Recorder.recordPosition rA = 0
          /\ Recorder.buffer rA = Recorder.buffer r0
          /\ Recorder.hasRecording rA = false
          /\ Recorder.loopEnabled rA = Recorder.loopEnabled r0)
    as (HrecA & HplayA & HposA & HbufA & HhasA & HloopA).
  { unfold rA, pressRecordKey. rewrite Hrec0, Hplay0, Hhas0.
    cbn [negb andb]. repeat split; assumption || reflexivity. }
  (* the ticks of the recording *)
  destruct (recorderRun_fill xs rA HrecA HplayA)
    as (HposB & HlenB & HxsB & _ & HplayB & HgoB & _).
  { rewrite HposA. unfold MAX_RECORD_SAMPLES. lia. }
  { rewrite HposA. lia. }
  { rewrite HbufA. exact Hlen0. }
  destruct (HgoB ltac:(rewrite HposA; lia)) as (HrecB & HhasB & _).
  set (rB := recorderRun xs rA) in *.
  rewrite HposA in HposB, HxsB. rewrite Z.add_0_l in HposB.
  (* key 3: stop *)
  intros recorded.
  assert (recorded
          = {| Recorder.active := Recorder.active rB;
               Recorder.recording := false;
               Recorder.hasRecording := true;
               Recorder.buffer := Recorder.buffer rB;
               Recorder.recordPosition := Recorder.recordPosition rB;
               Recorder.recordLength := Recorder.recordPosition rB;
               Recorder.playing := Recorder.playing rB;
               Recorder.loopEnabled := Recorder.loopEnabled rB |}) as HC.
  { change recorded with (pressRecordKey rB). unfold pressRecordKey.
    rewrite HrecB. reflexivity. }
  (* key 3: play *)
  intros playing.
  assert (playing
          = {| Recorder.active := Recorder.active rB;
               Recorder.recording := false;
               Recorder.hasRecording := true;
               Recorder.buffer := Recorder.buffer rB;
               Recorder.recordPosition := 0;
               Recorder.recordLength := Z.of_nat (length xs);
               Recorder.playing := true;
               Recorder.loopEnabled := Recorder.loopEnabled r0 |}) as HD.
  { unfold playing. rewrite HC. unfold pressRecordKey.
    cbn [Recorder.recording Recorder.playing Recorder.hasRecording negb andb
         Recorder.active Recorder.buffer Recorder.recordLength
         Recorder.loopEnabled].
    rewrite HplayB. cbn [negb andb]. rewrite HposB.
    unfold rB. rewrite recorderRun_loopEnabled, HloopA. reflexivity. }
  intros finished.
  split; [rewrite HC; reflexivity|].
  split; [rewrite HC; cbn [Recorder.recordLength]; exact HposB|].
  destruct (recorderOutputs_playing ys playing) as [Hout Hstate];
    try (rewrite HD; cbn; unfold MAX_RECORD_SAMPLES in *; lia);
    try (rewrite HD; reflexivity).
  cbv zeta in Hstate. fold finished in Hstate.
  destruct Hstate as (HplayE & HrecE & HposE & HbufE & HlenE).
  assert (Recorder.buffer playing = Recorder.buffer rB) as HbufD
    by (rewrite HD; reflexivity).
  assert (Recorder.recordPosition playing = 0) as HposD
    by (rewrite HD; reflexivity).
  assert (Recorder.recordLength playing = Z.of_nat (length xs)) as HlenD
    by (rewrite HD; reflexivity).
  rewrite HbufD, HposD in Hout. rewrite HposD in HposE.
  rewrite HbufD in HbufE. rewrite HlenD in HlenE.
  assert (forall k x, xs !! k = Some x ->
            sample_get (Recorder.buffer rB) (Z.of_nat k) = x) as Hget.
  { intros k x Hk. unfold sample_get. rewrite Nat2Z.id.
    specialize (HxsB k x Hk). change (Z.to_nat 0) with 0%nat in HxsB.
    rewrite Nat.add_0_l in HxsB. rewrite HxsB. reflexivity. }
  split.
  { rewrite Hout, Hys. apply list_eq. intros k.
    rewrite !list_lookup_fmap.
    destruct (xs !! k) as [x|] eqn:Hk.
    - assert (k < length xs)%nat as Hlt by (eapply lookup_lt_Some; eauto).
      rewrite lookup_seq_lt by exact Hlt. cbn [fmap option_fmap option_map].
      rewrite Z.add_0_l, Nat.add_0_l, (Hget k x Hk). reflexivity.
    - assert (length xs <= k)%nat as Hge by (apply lookup_ge_None; exact Hk).
      rewrite lookup_seq_ge by exact Hge. reflexivity. }
  assert (Recorder.loopEnabled finished = Recorder.loopEnabled r0) as HloopE.
  { unfold finished. rewrite recorderRun_loopEnabled, HD. reflexivity. }
  assert ((Recorder.recordPosition finished
           <? Recorder.recordLength finished) = false) as Hend
    by (apply Z.ltb_ge; lia).
  split.
  - intros Hoff. unfold playbackStage.
    rewrite HplayE, Hend, HloopE, Hoff. cbn. auto.
  - intros Hon x xs' Hx. unfold playbackStage.
    rewrite HplayE, Hend, HloopE, Hon. cbn [fst snd].
    split; [|reflexivity]. rewrite HbufE.
    apply (Hget 0%nat x). rewrite Hx. reflexivity.
Qed.

Lemma recorder_round_trip_witness :
  let r0 := Recorder.init in
  Recorder.recording r0 = false /\ Recorder.playing r0 = false
  /\ Recorder.hasRecording r0 = false
  /\ Z.of_nat (length (Recorder.buffer r0)) = MAX_RECORD_SAMPLES
  /\ Z.of_nat (length [5; -7; 9]) < MAX_RECORD_SAMPLES
  /\ recorderOutputs [0; 0; 0]
       (pressRecordKey
          (pressRecordKey (recorderRun [5; -7; 9] (pressRecordKey r0))))
     = [(5, true); (-7, true); (9, true)].
Proof.
  intros r0.
  assert (Z.of_nat (length (Recorder.buffer r0)) = MAX_RECORD_SAMPLES) as Hlen.
  { unfold r0, Recorder.init. cbn [Recorder.buffer].
    rewrite length_replicate, Z2Nat.id by lia. reflexivity. }
  assert (Z.of_nat (length [5; -7; 9]) < MAX_RECORD_SAMPLES) as Hn
    by (unfold MAX_RECORD_SAMPLES; simpl; lia).
  split; [reflexivity|]. split; [reflexivity|]. split; [reflexivity|].
  split; [exact Hlen|]. split; [exact Hn|].
  exact (proj1 (proj2 (proj2
           (recorder_round_trip r0 [5; -7; 9] [0; 0; 0]
              eq_refl eq_refl eq_refl Hlen Hn eq_refl)))).
Defined.

(** ** Sequencer: order of the steps and gate length *)

Lemma enabled_with_lastStepTime t q i :
  enabled (Sequencer.with_lastStepTime t q) i = enabled q i.
Proof. reflexivity. Qed.

(** X10.  An advance of the running sequencer moves to the nearest enabled
    successor: with some step enabled, the new current step is
    [(currentStep + 1 + k) mod 8] for the least [k < 8] whose step is
    enabled (the current step itself for [k = 7]), no enabled step in
    between is jumped over, and the note and the step timer start at the
    clock value of the advance. *)
Theorem sequencerAdvance_next_enabled
    (syncConnected syncRisingEdge : bool) (t : Z) (q : Sequencer.t) :
  0 <= Sequencer.currentStep q < 8 ->
  Sequencer.running q = true ->
  advanceDue syncConnected syncRisingEdge t q = true ->
  (exists i, 0 <= i < 8 /\ enabled q i = true) ->
  let q' := sequencerAdvance syncConnected syncRisingEdge t q in
  exists k,
    0 <= k < 8
    /\ Sequencer.currentStep q' = (Sequencer.currentStep q + 1 + k) mod 8
    /\ enabled q (Sequencer.currentStep q') = true
    /\ (forall j, 0 <= j < k ->
          enabled q ((Sequencer.currentStep q + 1 + j) mod 8) = false)
    /\ Sequencer.noteActive q' = true
    /\ Sequencer.noteStartTime q' = t
    /\ Sequencer.lastStepTime q' = t.
Proof.
  intros Hcur Hrun Hdue (i & Hi & Hen) q'.
  unfold q', sequencerAdvance. rewrite Hrun, Hdue. unfold advanceStep.
  set (q1 := Sequencer.with_lastStepTime t q).
  change (Sequencer.currentStep q1) with (Sequencer.currentStep q).
  rewrite (skipDisabled_ext q1 q) by reflexivity.
  change (enabled q1) with (enabled q).
  set (n0 := u8 (Z.rem (Sequencer.currentStep q + 1) 8)).
  assert (n0 = (Sequencer.currentStep q + 1) mod 8) as Hn0
    by (apply next_step_mod; lia).
  pose proof (skipDisabled_spec q 8 n0 0
                (next_step_range (Sequencer.currentStep q) ltac:(lia))
                ltac:(lia) ltac:(lia)) as Hs.
  destruct (skipDisabled 8 q n0 0) as [n c].
  destruct Hs as (Hn & Hc & Hstop & Hpos & Hskip).
  rewrite Z.sub_0_r in Hpos, Hskip.
  assert (enabled q n = true /\ c < 8) as [Henn Hc8].
  { destruct (Z.eq_dec c 8) as [-> | Hne].
    - (* eight probes would have met the enabled step [i] *)
      exfalso. specialize (Hskip ((i - n0) mod 8)
                             ltac:(Z.div_mod_to_equations; lia)).
      rewrite Zplus_mod_idemp_r in Hskip.
      replace (n0 + (i - n0)) with i in Hskip by lia.
      rewrite Z.mod_small in Hskip by lia. congruence.
    - destruct Hstop as [? | ?]; [split; [assumption | lia] | lia]. }
  rewrite Henn. exists c.
  cbn [Sequencer.currentStep Sequencer.startNote Sequencer.noteActive
       Sequencer.noteStartTime Sequencer.lastStepTime].
  split; [lia|]. split.
  { rewrite Hpos, Hn0, Zplus_mod_idemp_l. reflexivity. }
  split; [exact Henn|]. split.
  { intros j Hj. specialize (Hskip j Hj).
    rewrite Hn0, Zplus_mod_idemp_l in Hskip. exact Hskip. }
  repeat split; reflexivity.
Qed.

Lemma sequencerAdvance_next_enabled_witness :
  let q := toggleRunning 0 Sequencer.init in
  0 <= Sequencer.currentStep q < 8 /\ Sequencer.running q = true
  /\ advanceDue false false 250 q = true
  /\ Sequencer.currentStep (sequencerAdvance false false 250 q) = 1.
Proof.
  intros q.
  assert (0 <= Sequencer.currentStep q < 8) as Hcur by (simpl; lia).
  assert (exists i, 0 <= i < 8 /\ enabled q i = true) as Hen
    by (exists 1; split; [lia | reflexivity]).
  split; [exact Hcur|]. split; [reflexivity|]. split; [reflexivity|].
  destruct (sequencerAdvance_next_enabled false false 250 q Hcur eq_refl
              eq_refl Hen) as (k & Hk & Hstep & _ & Hskip & _).
  destruct (Z.eq_dec k 0) as [-> | Hne]; [exact Hstep|].
  specialize (Hskip 0 ltac:(lia)). discriminate Hskip.
Defined.

Lemma sequencerOutputs_inactive lfo times q :
  Sequencer.noteActive q = false ->
  Forall (fun sample => sample = 0) (sequencerOutputs lfo times q).
Proof.
  revert q. induction times as [|t times IH]; intros q Hq;
    cbn [sequencerOutputs]; [constructor|].
  destruct (sequencerStage_inactive t lfo q Hq) as [Hout Hoff].
  destruct (sequencerStage t lfo q) as [q' sample]. cbn [fst snd] in *.
  constructor; [exact Hout | apply IH; exact Hoff].
Qed.

(** X11.  The gate length ends the note: at the first audio tick at which
    the time since the note start has reached
    [stepInterval * gateLength / 100] ms the sequencer's output is 0, the
    note is marked inactive and the oscillator phase is reset, and the output
    stays 0 on every later tick, whatever the clock, until the next step
    advance. *)
Theorem sequencer_gate_ends_note (lfo2Modulation : F32.float) (t : Z)
    (times : list Z) (q : Sequencer.t) :
  u32 (Z.quot (Sequencer.stepInterval q * Sequencer.gateLength q) 100)
  <= u32 (t - Sequencer.noteStartTime q) ->
  Sequencer.noteActive (sequencerStage t lfo2Modulation q).1 = false
  /\ Sequencer.sequencerPhase (sequencerStage t lfo2Modulation q).1 = 0
  /\ Forall (fun sample => sample = 0)
       (sequencerOutputs lfo2Modulation (t :: times) q).
Proof.
  intros Hgate.
  assert (sequencerStage t lfo2Modulation q
          = (Sequencer.with_sequencerPhase 0
               (Sequencer.with_noteActive false q), 0)) as Hstage.
  { unfold sequencerStage.
    destruct (Z.leb_spec
                (u32 (Z.quot (Sequencer.stepInterval q
                              * Sequencer.gateLength q) 100))
                (u32 (t - Sequencer.noteStartTime q))); [|lia].
    cbn [Sequencer.noteActive Sequencer.with_noteActive].
    rewrite andb_false_r. reflexivity. }
  cbn [sequencerOutputs]. rewrite Hstage. cbn [fst].
  split; [reflexivity|]. split; [reflexivity|].
  constructor; [reflexivity|].
  apply sequencerOutputs_inactive. reflexivity.
Qed.

Lemma sequencer_gate_ends_note_witness :
  let q := Sequencer.startNote 0 1000 Sequencer.init in
  u32 (Z.quot (Sequencer.stepInterval q * Sequencer.gateLength q) 100)
  <= u32 (1200 - Sequencer.noteStartTime q)
  /\ Forall (fun sample => sample = 0)
       (sequencerOutputs F32.one [1200; 1201; 1300] q).
Proof.
  intros q.
  assert (u32 (Z.quot (Sequencer.stepInterval q * Sequencer.gateLength q)
                 100)
          <= u32 (1200 - Sequencer.noteStartTime q)) as H
    by (vm_compute; discriminate).
  split; [exact H|].
  exact (proj2 (proj2 (sequencer_gate_ends_note F32.one 1200 [1201; 1300]
                         q H))).
Defined.

(** ** Speed mutation *)

(** The step interval of the lead sequence for each of the nine speed
    steps, as the single-precision expression computes it. *)
Lemma leadStepInterval_table k :
  0 <= k <= 8 ->
  u16 (60 + u16 (F32.to_int
                   (F32.mul (F32.div (F32.of_int k) (F32.of_int tempoStepCount))
                            (F32.of_int 420))))
  = 60 + 420 * k / 9.
Proof.
  intros Hk.
  assert (k = 0 \/ k = 1 \/ k = 2 \/ k = 3 \/ k = 4 \/ k = 5 \/ k = 6
          \/ k = 7 \/ k = 8) as Hc by lia.
  destruct Hc as [-> | [-> | [-> | [-> | [-> | [-> | [-> | [-> | ->]]]]]]]];
    vm_compute; reflexivity.
Qed.

Lemma mutateSpeed_result w :
  is_u8 (Mutate.speedStep (mutate w)) ->
  let step' :=
    Z.max 0 (Z.min 8 (Mutate.speedStep (mutate w)
                      + entropy w (drawn w) mod 3 - 1)) in
  exec mutateSpeed w
  = with_siren
      (if Siren.instrumentType (siren w) =? INST_LEAD_SYNTH
       then Siren.with_stepInterval (60 + 420 * step' / 9)
       else Siren.with_lfoRate (table_get tempoSteps step'))
      (with_mutate (Mutate.with_speedStep step')
         (with_drawn (S (drawn w)) w)).
Proof.
  intros Hu8 step'. unfold is_u8 in Hu8.
  pose proof (Z.mod_pos_bound (entropy w (drawn w)) 3 ltac:(lia)) as Hr.
  unfold mutateSpeed, exec, mbind, M_bind, gets, modify, random, mret, M_ret.
  simpl. unfold tempoStepCount.
  set (x := Mutate.speedStep (mutate w) + (entropy w (drawn w) mod 3 - 1)).
  assert (u8 (if 9 <=? (if x <? 0 then 0 else x) then 9 - 1
              else if x <? 0 then 0 else x) = step') as ->.
  { unfold step'.
    replace (Mutate.speedStep (mutate w) + entropy w (drawn w) mod 3 - 1)
      with x by (unfold x; lia).
    destruct (Z.ltb_spec x 0);
      [destruct (Z.leb_spec 9 0); [lia|] | destruct (Z.leb_spec 9 x)];
      rewrite u8_id by (unfold is_u8; lia); lia. }
  assert (0 <= step' <= 8) as Hs by (unfold step'; lia).
  destruct (Siren.instrumentType (siren w) =? INST_LEAD_SYNTH);
    cbn [snd]; [|reflexivity].
  pose proof (leadStepInterval_table step' Hs) as Ht.
  unfold tempoStepCount in Ht. rewrite Ht. reflexivity.
Qed.

(** X12.  [mutateSpeed] is a clamped random walk over the nine speed steps:
    one draw [r] in [0, 3) moves the step by [r - 1] and the result is kept
    in [0, 8]; a lead synth gets the step interval [60 + 420 * step / 9] ms,
    which lies in [60, 433], and keeps its LFO rate; every other instrument
    gets the LFO rate [tempoSteps[step]] and keeps its step interval. *)
Theorem mutateSpeed_walk (w : Machine) :
  is_u8 (Mutate.speedStep (mutate w)) ->
  let r := entropy w (drawn w) mod 3 in
  let w' := exec mutateSpeed w in
  let step' := Mutate.speedStep (mutate w') in
  0 <= r < 3
  /\ step' = Z.max 0 (Z.min 8 (Mutate.speedStep (mutate w) + r - 1))
  /\ 0 <= step' <= 8
  /\ (Mutate.speedStep (mutate w) <= 8 ->
      Z.abs (step' - Mutate.speedStep (mutate w)) <= 1)
  /\ drawn w' = S (drawn w)
  /\ (Siren.instrumentType (siren w) = INST_LEAD_SYNTH ->
      Siren.stepInterval (siren w') = 60 + 420 * step' / 9
      /\ 60 <= Siren.stepInterval (siren w') <= 433
      /\ Siren.lfoRate (siren w') = Siren.lfoRate (siren w))
  /\ (Siren.instrumentType (siren w) <> INST_LEAD_SYNTH ->
      tempoSteps !! Z.to_nat step' = Some (Siren.lfoRate (siren w'))
      /\ Siren.stepInterval (siren w') = Siren.stepInterval (siren w)).
Proof.
  intros Hu8 r w' step'.
  pose proof (mutateSpeed_result w Hu8) as Hres. cbv zeta in Hres.
  fold r in Hres. fold w' in Hres.
  set (s := Z.max 0 (Z.min 8 (Mutate.speedStep (mutate w) + r - 1))) in *.
  assert (step' = s) as Hstep by (unfold step'; rewrite Hres; reflexivity).
  assert (0 <= r < 3) as Hr by (apply Z.mod_pos_bound; lia).
  assert (0 <= s <= 8) as Hs by (unfold s; lia).
  unfold is_u8 in Hu8.
  split; [exact Hr|]. split; [exact Hstep|]. split; [lia|].
  split; [intros Hle; rewrite Hstep; unfold s; lia|].
  split; [rewrite Hres; reflexivity|].
  split.
  - intros Hlead. rewrite Hres.
    destruct (Z.eqb_spec (Siren.instrumentType (siren w)) INST_LEAD_SYNTH);
      [|contradiction].
    cbn [siren with_siren with_mutate with_drawn Siren.stepInterval
         Siren.with_stepInterval Siren.lfoRate].
    rewrite Hstep. split; [reflexivity|]. split; [|reflexivity].
    Z.div_mod_to_equations. lia.
  - intros Hother. rewrite Hres.
    destruct (Z.eqb_spec (Siren.instrumentType (siren w)) INST_LEAD_SYNTH);
      [contradiction|].
    cbn [siren with_siren with_mutate with_drawn Siren.stepInterval
         Siren.with_lfoRate Siren.lfoRate].
    split; [|reflexivity]. rewrite Hstep.
    assert (s = 0 \/ s = 1 \/ s = 2 \/ s = 3 \/ s = 4 \/ s = 5 \/ s = 6
            \/ s = 7 \/ s = 8) as Hc by lia.
    destruct Hc as [-> | [-> | [-> | [-> | [-> | [-> | [-> | [-> | ->]]]]]]]];
      reflexivity.
Qed.

Lemma mutateSpeed_walk_witness :
  let w := bootMachine (fun _ => 2) 0 in
  is_u8 (Mutate.speedStep (mutate w))
  /\ Mutate.speedStep (mutate (exec mutateSpeed w)) = 3.
Proof.
  intros w.
  assert (is_u8 (Mutate.speedStep (mutate w))) as H
    by (unfold is_u8; simpl; lia).
  split; [exact H|].
  destruct (mutateSpeed_walk w H) as (_ & Hstep & _).
  rewrite Hstep. reflexivity.
Defined.

(** ** Order and sums of single-precision numbers *)

Lemma compare_cont_antisym (p q : positive) :
  Pos.compare_cont Eq q p = CompOpp (Pos.compare_cont Eq p q).
Proof.
  change (Pos.compare q p = CompOpp (Pos.compare p q)).
  apply Pos.compare_antisym.
Qed.

Lemma SFcompare_antisym x y :
  SFcompare y x = option_map CompOpp (SFcompare x y).
Proof.
  destruct x as [sx | sx | | sx mx ex], y as [sy | sy | | sy my ey];
    try reflexivity;
    try (destruct sx; reflexivity); try (destruct sy; reflexivity);
    try (destruct sx, sy; reflexivity).
  unfold SFcompare. rewrite (Z.compare_antisym ex ey).
  rewrite (compare_cont_antisym mx my).
  destruct sx, sy; try reflexivity;
    destruct (ex ?= ey); cbn [CompOpp option_map]; reflexivity.
Qed.

Lemma SFcompare_number x y :
  is_number x = true -> is_number y = true ->
  exists c, SFcompare x y = Some c.
Proof.
  destruct x, y; cbn [is_number]; intros Hx Hy; try discriminate;
    unfold SFcompare; eauto.
Qed.

(** On numbers, "not less than" is "at least". *)
Lemma ltb_false_leb x y :
  is_number x = true -> is_number y = true ->
  F32.ltb x y = false -> F32.leb y x = true.
Proof.
  intros Hx Hy. unfold F32.ltb, F32.leb, SFltb, SFleb.
  rewrite (SFcompare_antisym x y).
  destruct (SFcompare_number x y Hx Hy) as [c ->].
  destruct c; cbn [option_map CompOpp]; congruence.
Qed.

Lemma shr_1_nonneg mrs : 0 <= shr_m mrs -> 0 <= shr_m (shr_1 mrs).
Proof.
  destruct mrs as [m r s]. cbn [shr_m]. intros Hm.
  destruct m as [|[p|p|]|p]; cbn; lia.
Qed.

Lemma shr_fexp_nonneg m e l :
  0 <= m -> 0 <= shr_m (fst (shr_fexp F32.prec F32.emax m e l)).
Proof.
  intros Hm. unfold shr_fexp, shr.
  assert (0 <= shr_m (shr_record_of_loc m l)) as H0
    by (destruct l as [|[]]; exact Hm).
  destruct (fexp F32.prec F32.emax (Zdigits2 m + e) - e) as [|p|p];
    cbn [fst]; try exact H0.
  rewrite iter_pos_nat.
  induction (Pos.to_nat p) as [|n IH]; [exact H0|].
  cbn [Nat.iter]. apply shr_1_nonneg. exact IH.
Qed.

Lemma round_nearest_even_nonneg m l :
  0 <= m -> 0 <= round_nearest_even m l.
Proof.
  intros Hm. destruct l as [|[]]; cbn [round_nearest_even];
    try destruct (Z.even m); lia.
Qed.

(** Rounding a mantissa never gives a NaN. *)
Lemma binary_round_aux_number s m e l :
  0 <= m -> is_number (binary_round_aux F32.prec F32.emax s m e l) = true.
Proof.
  intros Hm. unfold binary_round_aux.
  pose proof (shr_fexp_nonneg m e l Hm) as H1.
  destruct (shr_fexp F32.prec F32.emax m e l) as [mrs' e']. cbn [fst] in H1.
  pose proof (shr_fexp_nonneg
                (round_nearest_even (shr_m mrs') (loc_of_shr_record mrs'))
                e' loc_Exact
                (round_nearest_even_nonneg _ _ H1)) as H2.
  destruct (shr_fexp F32.prec F32.emax _ e' loc_Exact) as [mrs'' e''].
  cbn [fst] in H2.
  destruct (shr_m mrs'') as [|p|p]; [reflexivity | | lia].
  destruct (e'' <=? F32.emax - F32.prec); reflexivity.
Qed.

Lemma binary_normalize_number m e s :
  is_number (binary_normalize F32.prec F32.emax m e s) = true.
Proof.
  destruct m as [|p|p]; cbn [binary_normalize]; [reflexivity| |];
    unfold binary_round;
    destruct (shl_align _ _ _) as [mz ez];
    apply binary_round_aux_number; lia.
Qed.

(** The sum of a number and a finite number is a number. *)
Lemma add_number x y :
  is_number x = true -> F32.is_finite y = true ->
  is_number (F32.add x y) = true.
Proof.
  intros Hx Hy. unfold F32.add.
  destruct x as [sx | sx | | sx mx ex], y as [sy | sy | | sy my ey];
    try discriminate; try reflexivity.
  - destruct sx, sy; reflexivity.
  - unfold SFadd. apply binary_normalize_number.
Qed.

(** A clamp [if (x < lo) x = lo; if (x > hi) x = hi;] puts a number
    between the bounds. *)
Lemma clamp_number lo hi x :
  is_number lo = true -> is_number hi = true -> is_number x = true ->
  F32.leb lo hi = true ->
  let y := if F32.ltb x lo then lo else x in
  let z := if F32.gtb y hi then hi else y in
  F32.leb lo z = true /\ F32.leb z hi = true.
Proof.
  intros Hlo Hhi Hx Hle. cbv zeta.
  assert (F32.leb lo lo = true) as Hrefl_lo.
  { apply ltb_false_leb; try assumption.
    unfold F32.ltb, SFltb.
    pose proof (SFcompare_antisym lo lo) as Ha.
    destruct (SFcompare lo lo) as [[]|]; try reflexivity;
      discriminate Ha. }
  assert (F32.leb hi hi = true) as Hrefl_hi.
  { apply ltb_false_leb; try assumption.
    unfold F32.ltb, SFltb.
    pose proof (SFcompare_antisym hi hi) as Ha.
    destruct (SFcompare hi hi) as [[]|]; try reflexivity;
      discriminate Ha. }
  destruct (F32.ltb x lo) eqn:Hxlo.
  - (* below: the lower bound, which is not above the upper one *)
    assert (F32.gtb lo hi = false) as ->.
    { unfold F32.gtb, F32.leb, SFltb, SFleb in *.
      rewrite (SFcompare_antisym lo hi).
      destruct (SFcompare lo hi) as [[]|]; try discriminate; reflexivity. }
    split; assumption.
  - destruct (F32.gtb x hi) eqn:Hxhi.
    + split; [exact Hle | exact Hrefl_hi].
    + split; [apply ltb_false_leb; assumption|].
      apply ltb_false_leb; assumption.
Qed.

(** ** Modulation mutation *)

Lemma modulationChange_finite r :
  0 <= r < 41 ->
  F32.is_finite (modulationChange r) = true
  /\ F32.is_finite (F32.mul (modulationChange r) F32.half) = true.
Proof.
  intros Hr.
  assert (allZ (fun r => F32.is_finite (modulationChange r)
                         && F32.is_finite
                              (F32.mul (modulationChange r) F32.half))
               0 41 = true) as Hall by (vm_compute; reflexivity).
  pose proof (allZ_spec _ _ _ Hall r ltac:(lia)) as H. cbv beta in H.
  apply andb_prop in H. exact H.
Qed.

Lemma mutateModulation_result w :
  let change := modulationChange (entropy w (drawn w) mod 41) in
  let w1 := with_drawn (S (drawn w)) w in
  exec mutateModulation w
  = if Siren.instrumentType (siren w) =? INST_DUB_SIREN then
      let depth := F32.add (Siren.lfoDepth (siren w)) change in
      let depth := if F32.ltb depth F32.zero then F32.zero else depth in
      let depth := if F32.gtb depth F32.one then F32.one else depth in
      with_siren (Siren.with_lfoDepth depth) w1
    else if Siren.instrumentType (siren w) =? INST_RAY_GUN then
      let res := F32.add (Siren.resonance (siren w))
                         (F32.mul change F32.half) in
      let res := if F32.ltb res (F32.lit 3 10) then F32.lit 3 10 else res in
      let res := if F32.gtb res (F32.lit 95 100) then F32.lit 95 100
                 else res in
      with_siren (Siren.with_resonance res) w1
    else w1.
Proof.
  unfold mutateModulation, exec, mbind, M_bind, gets, modify, random, mret,
    M_ret, modulationChange.
  simpl. destruct (_ =? INST_DUB_SIREN); [reflexivity|].
  destruct (_ =? INST_RAY_GUN); reflexivity.
Qed.

(** X13.  [mutateModulation] keeps the modulation inside its range.  One
    draw is consumed and the mutation state is left alone.  On the dub siren
    an LFO depth that is a number comes out between 0 and 1; on the ray gun
    a resonance that is a number comes out between 0.3 and 0.95; in both
    cases no other field of the sound changes, and on every other instrument
    the sound is not touched at all. *)
Theorem mutateModulation_keeps_range (w : Machine) :
  let w' := exec mutateModulation w in
  let inst := Siren.instrumentType (siren w) in
  mutate w' = mutate w /\ drawn w' = S (drawn w)
  /\ (inst = INST_DUB_SIREN ->
      (is_number (Siren.lfoDepth (siren w)) = true ->
       F32.leb F32.zero (Siren.lfoDepth (siren w')) = true
       /\ F32.leb (Siren.lfoDepth (siren w')) F32.one = true)
      /\ siren w'
         = Siren.with_lfoDepth (Siren.lfoDepth (siren w')) (siren w))
  /\ (inst = INST_RAY_GUN ->
      (is_number (Siren.resonance (siren w)) = true ->
       F32.leb (F32.lit 3 10) (Siren.resonance (siren w')) = true
       /\ F32.leb (Siren.resonance (siren w')) (F32.lit 95 100) = true)
      /\ siren w'
         = Siren.with_resonance (Siren.resonance (siren w')) (siren w))
  /\ (inst <> INST_DUB_SIREN -> inst <> INST_RAY_GUN -> siren w' = siren w).
Proof.
  intros w' inst.
  pose proof (mutateModulation_result w) as Hres. cbv zeta in Hres.
  fold w' in Hres. fold inst in Hres.
  pose proof (Z.mod_pos_bound (entropy w (drawn w)) 41 ltac:(lia)) as Hr.
  destruct (modulationChange_finite _ Hr) as [Hfin Hfin'].
  set (change := modulationChange (entropy w (drawn w) mod 41)) in *.
  split; [rewrite Hres; repeat destruct (_ =? _); reflexivity|].
  split; [rewrite Hres; repeat destruct (_ =? _); reflexivity|].
  split; [|split].
  - intros Hdub. rewrite Hres.
    destruct (Z.eqb_spec inst INST_DUB_SIREN); [|contradiction].
    cbv zeta. cbn [siren with_siren with_drawn Siren.lfoDepth
                   Siren.with_lfoDepth].
    split; [|reflexivity].
    intros Hnum.
    assert (F32.leb F32.zero F32.one = true) as Hle
      by (vm_compute; reflexivity).
    apply (clamp_number F32.zero F32.one _ eq_refl eq_refl); [|exact Hle].
    apply add_number; assumption.
  - intros Hray. rewrite Hres.
    destruct (Z.eqb_spec inst INST_DUB_SIREN) as [Hd | _];
      [rewrite Hd in Hray; discriminate Hray|].
    destruct (Z.eqb_spec inst INST_RAY_GUN); [|contradiction].
    cbv zeta. cbn [siren with_siren with_drawn Siren.resonance
                   Siren.with_resonance].
    split; [|reflexivity].
    intros Hnum.
    assert (is_number (F32.lit 3 10) = true) as Hlo
      by (vm_compute; reflexivity).
    assert (is_number (F32.lit 95 100) = true) as Hhi
      by (vm_compute; reflexivity).
    assert (F32.leb (F32.lit 3 10) (F32.lit 95 100) = true) as Hle
      by (vm_compute; reflexivity).
    apply (clamp_number (F32.lit 3 10) (F32.lit 95 100) _ Hlo Hhi);
      [|exact Hle].
    apply add_number; assumption.
  - intros Hnd Hnr. rewrite Hres.
    destruct (Z.eqb_spec inst INST_DUB_SIREN); [contradiction|].
    destruct (Z.eqb_spec inst INST_RAY_GUN); [contradiction|].
    reflexivity.
Qed.

(** ** The frequency a pitch mutation stores *)

Lemma mutatedPitchesOk_holds : mutatedPitchesOk = true.
Proof. vm_compute. reflexivity. Qed.

(** The scale and the instrument enter only through the cases of their
    [switch]. *)
Lemma scale_cases c :
  exists c', 0 <= c' < 5 /\ scaleTable c = scaleTable c'
             /\ scaleSizeOf c = scaleSizeOf c'.
Proof.
  unfold scaleTable, scaleSizeOf.
  destruct (Z.eqb_spec c SCALE_MINOR_PENT) as [-> | ?];
    [exists 0; split; [lia | split; reflexivity]|].
  destruct (Z.eqb_spec c SCALE_MAJOR) as [-> | ?];
    [exists 1; split; [lia | split; reflexivity]|].
  destruct (Z.eqb_spec c SCALE_BLUES) as [-> | ?];
    [exists 2; split; [lia | split; reflexivity]|].
  destruct (Z.eqb_spec c SCALE_MINOR) as [-> | ?];
    [exists 3; split; [lia | split; reflexivity]|].
  destruct (Z.eqb_spec c SCALE_CHROMATIC) as [-> | ?];
    [exists 4; split; [lia | split; reflexivity]|].
  exists 0. split; [lia | split; reflexivity].
Qed.

Lemma instrument_cases inst :
  exists i, 0 <= i < 3 /\ instrumentClamp inst = instrumentClamp i
            /\ (inst =? INST_DUB_SIREN) = (i =? INST_DUB_SIREN).
Proof.
  unfold instrumentClamp.
  destruct (Z.eqb_spec inst INST_DUB_SIREN) as [-> | ?];
    [exists 0; split; [lia | split; reflexivity]|].
  destruct (Z.eqb_spec inst INST_RAY_GUN) as [-> | ?];
    [exists 1; split; [lia | split; reflexivity]|].
  exists 2. split; [lia | split; reflexivity].
Qed.

Lemma mutatedPitchOk_all scale inst note :
  0 <= note < scaleSizeOf scale -> mutatedPitchOk scale inst note = true.
Proof.
  intros Hnote.
  destruct (scale_cases scale) as (c & Hc & Htab & Hsize).
  destruct (instrument_cases inst) as (i & Hi & Hclamp & Hdub).
  assert (scaleSizeOf c <= 13) as Hmax.
  { pose proof (scaleSizeOf_cases c). lia. }
  pose proof (allZ_spec _ _ _ mutatedPitchesOk_holds c ltac:(lia)) as H1.
  cbv beta in H1.
  pose proof (allZ_spec _ _ _ H1 i ltac:(lia)) as H2. cbv beta in H2.
  pose proof (allZ_spec _ _ _ H2 note ltac:(lia)) as H3. cbv beta in H3.
  destruct (Z.leb_spec (scaleSizeOf c) note) as [Hbad | _]; [lia|].
  cbn [orb] in H3.
  unfold mutatedPitchOk in *. rewrite Htab, Hsize, Hclamp, Hdub. exact H3.
Qed.

(** What [mutatePitch] stores, in terms of the step it leaves. *)
Lemma mutatePitch_frequency w :
  let w' := exec mutatePitch w in
  let scale := Mutate.currentScale (mutate w) in
  let note := Mutate.pitchStep (mutate w') mod scaleSizeOf scale in
  Siren.baseFreq (siren w')
  = octaveShifted (octaveShift w)
      (instrumentClamp (Siren.instrumentType (siren w))
         (scaleNoteFrequency (scaleTable scale) (scaleSizeOf scale) note))
  /\ Siren.frequency (siren w') = Siren.baseFreq (siren w')
  /\ 0 <= note < scaleSizeOf scale.
Proof.
  intros w' scale note.
  pose proof (scaleSizeOf_pos scale) as Hsize.
  pose proof (scaleSizeOf_cases scale) as Hcases.
  assert (0 <= note < scaleSizeOf scale) as Hnote
    by (apply Z.mod_pos_bound; exact Hsize).
  assert (Mutate.pitchStep (mutate w') = u8 (pitchStepAfter w)) as Hstep
    by (unfold w'; rewrite mutatePitch_mutate; reflexivity).
  assert (u8 note = note) as Hu8 by (apply u8_id; unfold is_u8; lia).
  split; [|split; [|exact Hnote]].
  - unfold note. rewrite Hstep. clear Hstep Hu8 Hnote note.
    unfold w', mutatePitch, exec, mbind, M_bind, gets. cbn [fst snd].
    fold scale.
    pose proof (pitchWalk_result (scaleSizeOf scale) w Hsize) as Hwalk.
    destruct (pitchWalk (scaleSizeOf scale) w) as [[] w1].
    cbn [snd] in Hwalk. subst w1.
    set (w1 := with_mutate _ _).
    assert (Mutate.pitchStep (mutate w1) = u8 (pitchStepAfter w)) as Hp
      by reflexivity.
    assert (Mutate.currentScale (mutate w1) = scale) as Hc by reflexivity.
    assert (Siren.instrumentType (siren w1)
            = Siren.instrumentType (siren w)) as Hi by reflexivity.
    assert (octaveShift w1 = octaveShift w) as Ho by reflexivity.
    clearbody w1.
    unfold pitchRetune, mbind, M_bind, gets, modify, mret, M_ret.
    cbn [fst snd]. unfold quantizePitchToScale.
    rewrite Hp, Hc, Hi.
    set (p := u8 (pitchStepAfter w)).
    assert (u8 (p mod scaleSizeOf scale) = p mod scaleSizeOf scale) as ->.
    { apply u8_id. unfold is_u8.
      pose proof (Z.mod_pos_bound p (scaleSizeOf scale) Hsize). lia. }
    unfold instrumentClamp, octaveShifted.
    destruct (_ =? INST_DUB_SIREN); [rewrite Ho; reflexivity|].
    destruct (_ =? INST_RAY_GUN); [rewrite Ho; reflexivity|].
    destruct (generateMelody_frame w1) as (_ & Ho1 & _).
    destruct (generateMelody w1) as [[] w2]. cbn [fst snd] in *.
    rewrite Ho1, Ho. reflexivity.
  - unfold w', mutatePitch, exec, mbind, M_bind, gets. cbn [fst snd].
    destruct (pitchWalk _ w) as [[] w1].
    unfold pitchRetune, mbind, M_bind, gets, modify, mret, M_ret.
    cbn [fst snd].
    destruct (_ =? INST_DUB_SIREN); [reflexivity|].
    destruct (_ =? INST_RAY_GUN); [reflexivity|].
    destruct (generateMelody w1) as [[] w2]. reflexivity.
Qed.

(** X14.  A pitch mutation never leaves the bottom octave: [mutatePitch]
    stores in [baseFreq] and [frequency] the note [pitchStep mod scaleSize]
    of the scale above 110 Hz, clamped to the instrument's range and then
    shifted by [octaveShift]; the octave [pitchStep / scaleSize] of the step
    does not enter.  With no octave shift the stored frequency lies between
    110 Hz and 220 Hz, and at or above 200 Hz on every instrument but the
    dub siren. *)
Theorem mutatePitch_one_octave (w : Machine) :
  let w' := exec mutatePitch w in
  let scale := Mutate.currentScale (mutate w) in
  let inst := Siren.instrumentType (siren w) in
  let note := Mutate.pitchStep (mutate w') mod scaleSizeOf scale in
  Siren.baseFreq (siren w')
  = octaveShifted (octaveShift w)
      (instrumentClamp inst
         (scaleNoteFrequency (scaleTable scale) (scaleSizeOf scale) note))
  /\ Siren.frequency (siren w') = Siren.baseFreq (siren w')
  /\ (octaveShift w = 0 ->
      F32.leb (F32.of_int 110) (Siren.baseFreq (siren w')) = true
      /\ F32.leb (Siren.baseFreq (siren w')) (F32.of_int 220) = true
      /\ (inst <> INST_DUB_SIREN ->
          F32.leb (F32.of_int 200) (Siren.baseFreq (siren w')) = true)).
Proof.
  intros w' scale inst note.
  destruct (mutatePitch_frequency w) as (Hfreq & Hsame & Hnote).
  cbv zeta in Hfreq, Hsame, Hnote.
  fold w' in Hfreq, Hsame, Hnote. fold scale in Hfreq, Hnote.
  fold note in Hfreq, Hnote. fold inst in Hfreq.
  split; [exact Hfreq|]. split; [exact Hsame|].
  intros Hshift. rewrite Hfreq, Hshift.
  change (octaveShifted 0 ?f) with f.
  pose proof (mutatedPitchOk_all scale inst note Hnote) as Hok.
  unfold mutatedPitchOk in Hok. cbv zeta in Hok.
  apply andb_prop in Hok. destruct Hok as [Hok H200].
  apply andb_prop in Hok. destruct Hok as [H110 H220].
  split; [exact H110|]. split; [exact H220|].
  intros Hnd. destruct (Z.eqb_spec inst INST_DUB_SIREN); [contradiction|].
  exact H200.
Qed.

(** ** The other loop patterns *)

(** The product of two normal numbers: a normal number within half a unit
    in the last place of the exact product. *)
Lemma mul_normal_spec mp a mc ec :
  2 ^ 23 <= Zpos mp < 2 ^ 24 -> 2 ^ 23 <= Zpos mc < 2 ^ 24 ->
  22 <= a <= 47 -> -24 < ec <= 0 ->
  exists my k,
    F32.mul (S754_finite false mp (- a)) (S754_finite false mc ec)
    = S754_finite false my (- a + ec + k)
    /\ 23 <= k <= 25
    /\ 2 ^ 23 <= Zpos my < 2 ^ 24
    /\ 2 * Z.abs (Zpos my * 2 ^ k - Zpos mp * Zpos mc) <= 2 ^ k.
Proof.
  intros Hmp Hmc Ha Hec. unfold F32.mul, SFmul. cbn [xorb].
  change (2 ^ 23) with 8388608 in Hmp, Hmc.
  change (2 ^ 24) with 16777216 in Hmp, Hmc.
  assert (Zpos (mp * mc) = Zpos mp * Zpos mc) as Hprod
    by apply Pos2Z.inj_mul.
  assert (2 ^ 46 <= Zpos mp * Zpos mc < 2 ^ 48) as Hrange.
  { change (2 ^ 46) with (8388608 * 8388608).
    change (2 ^ 48) with (16777216 * 16777216). split.
    - apply Z.mul_le_mono_nonneg; lia.
    - apply Z.mul_lt_mono_nonneg; lia. }
  assert (47 <= Zpos (digits2_pos (mp * mc)) <= 48) as Hd.
  { destruct (Z_lt_le_dec (Zpos mp * Zpos mc) (2 ^ 47)) as [Hlt | Hge].
    - rewrite (digits2_unique _ 47); [lia|]. rewrite Hprod.
      change (47 - 1) with 46. lia.
    - rewrite (digits2_unique _ 48); [lia|]. rewrite Hprod.
      change (48 - 1) with 47. lia. }
  destruct (binary_round_aux_spec false (mp * mc) (- a + ec) loc_Exact
              (Zpos (mp * mc)) 1)
    as (my & k & Hres & Hdm & Hk & Herr); try lia.
  { unfold located. cbn [shr_record_of_loc shr_m shr_r shr_s].
    change (2 ^ 0) with 1. lia. }
  rewrite Hres. exists my, k.
  split; [reflexivity|]. split; [lia|].
  pose proof (digits2_bounds my) as Hbm. rewrite Hdm in Hbm.
  change (2 ^ (24 - 1)) with (2 ^ 23) in Hbm.
  split; [exact Hbm|].
  rewrite Hprod in Herr. rewrite !Z.mul_1_r in Herr. exact Herr.
Qed.

(** Multiplication by a small integer constant [c], whose [float] is
    [mc * 2^ec]. *)
Lemma mul_const_spec c mc ec mp a :
  F32.of_int c = S754_finite false mc ec ->
  2 ^ 23 <= Zpos mc < 2 ^ 24 -> -24 < ec <= 0 ->
  Zpos mc = c * 2 ^ (- ec) ->
  2 ^ 23 <= Zpos mp < 2 ^ 24 -> 22 <= a <= 47 ->
  exists my j,
    F32.mul (S754_finite false mp (- a)) (F32.of_int c)
    = S754_finite false my (j - a)
    /\ ec + 23 <= j <= ec + 25
    /\ 2 ^ 23 <= Zpos my < 2 ^ 24
    /\ 2 * Z.abs (Zpos my * 2 ^ j - c * Zpos mp) <= 2 ^ j.
Proof.
  intros Hc Hmc Hec Hval Hmp Ha. rewrite Hc.
  destruct (mul_normal_spec mp a mc ec Hmp Hmc Ha Hec)
    as (my & k & Hres & Hk & Hmy & Herr).
  rewrite Hres. exists my, (ec + k).
  split; [f_equal; lia|]. split; [lia|]. split; [exact Hmy|].
  assert (0 < 2 ^ (- ec)) as Hpe by (apply pow2_pos; lia).
  assert (2 ^ k = 2 ^ (ec + k) * 2 ^ (- ec)) as Hsplit
    by (rewrite <- Z.pow_add_r by lia; f_equal; lia).
  rewrite Hsplit, Hval in Herr.
  replace (Zpos my * (2 ^ (ec + k) * 2 ^ (- ec)) - Zpos mp * (c * 2 ^ (- ec)))
    with ((Zpos my * 2 ^ (ec + k) - c * Zpos mp) * 2 ^ (- ec)) in Herr
    by ring.
  rewrite Z.abs_mul, (Z.abs_eq (2 ^ (- ec))) in Herr by lia.
  apply Z.mul_le_mono_pos_r with (p := 2 ^ (- ec)); [exact Hpe|]. lia.
Qed.

(** The comparison of the fractional part with the power of two [2^-d]
    reads off the top [d] bits of the fraction. *)
Lemma fmod1_lt_pow2 my E d :
  Zpos my < 2 ^ 24 -> 1 <= d <= E -> E <= 100 ->
  F32.ltb (F32.fmod1 (S754_finite false my (- E)))
          (S754_finite false 8388608 (- 23 - d))
  = (Zpos my mod 2 ^ E <? 2 ^ (E - d)).
Proof.
  intros Hmy Hd HE.
  destruct E as [|p|p]; try lia.
  change (- Zpos p) with (Zneg p). unfold F32.fmod1.
  change (- Zneg p) with (Zpos p).
  assert (0 < 2 ^ Zpos p) as Hpow by (apply pow2_pos; lia).
  assert (0 < 2 ^ (Zpos p - d)) as Hpow' by (apply pow2_pos; lia).
  pose proof (Z.mod_pos_bound (Zpos my) (2 ^ Zpos p) Hpow) as Hr.
  assert (Zpos my mod 2 ^ Zpos p <= Zpos my) as Hle
    by (apply Z.mod_le; lia).
  destruct (Zpos my mod 2 ^ Zpos p) as [|rp|rp] eqn:Hrp; [| |lia].
  - cbn [binary_normalize]. symmetry. apply Z.ltb_lt. lia.
  - cbn [binary_normalize].
    pose proof (digits2_bounds rp) as [Hlo Hhi].
    assert (Zpos (digits2_pos rp) <= 24) as Hdig.
    { destruct (Z_le_gt_dec (Zpos (digits2_pos rp)) 24); [assumption|].
      assert (2 ^ 24 <= 2 ^ (Zpos (digits2_pos rp) - 1))
        by (apply Z.pow_le_mono_r; lia). lia. }
    destruct (binary_round_exact false rp (Zneg p) Hdig)
      as (m' & Hres & _ & Hd').
    { pose proof (Pos2Z.is_pos (digits2_pos rp)). lia. }
    rewrite Hres. unfold F32.ltb, SFltb, SFcompare.
    pose proof (digits2_bounds m') as [Hlo' _]. rewrite Hd' in Hlo'.
    change (2 ^ (24 - 1)) with 8388608 in Hlo'.
    destruct (Z.compare_spec (Zneg p + Zpos (digits2_pos rp) - 24)
                (- 23 - d)) as [Heq | Hlt | Hgt].
    + pose proof (compare_cont_ge m' 8388608 ltac:(lia)) as Hnlt.
      assert ((Zpos rp <? 2 ^ (Zpos p - d)) = false) as ->.
      { apply Z.ltb_ge.
        replace (Zpos p - d) with (Zpos (digits2_pos rp) - 1) by lia. lia. }
      generalize dependent (Pos.compare_cont Eq m' 8388608).
      intros c Hc. destruct c; [reflexivity|congruence|reflexivity].
    + symmetry. apply Z.ltb_lt.
      assert (2 ^ Zpos (digits2_pos rp) <= 2 ^ (Zpos p - d))
        by (apply Z.pow_le_mono_r; lia). lia.
    + symmetry. apply Z.ltb_ge.
      assert (2 ^ (Zpos p - d) <= 2 ^ (Zpos (digits2_pos rp) - 1))
        by (apply Z.pow_le_mono_r; lia). lia.
Qed.

(** The exact gate is decided by the index [K = q n r / period] of the
    [1 / q] part of a sub-cycle the instant lies in. *)
Lemma subCycleOpen_index n q r T K rho :
  0 < T -> 0 < q -> 0 <= n * r ->
  q * n * r = K * T + rho -> 0 <= rho < T ->
  subCycleOpen n q r T = (K mod q =? 0).
Proof.
  intros HT Hq Hnr Hdiv Hrho. unfold subCycleOpen.
  pose proof (Z.div_mod (n * r) T ltac:(lia)) as Hdm.
  pose proof (Z.mod_pos_bound (n * r) T HT) as Hv.
  set (u := n * r / T) in *. set (v := (n * r) mod T) in *.
  pose proof (Z.div_mod (q * v) T ltac:(lia)) as Hdm2.
  pose proof (Z.mod_pos_bound (q * v) T HT) as Hv2.
  set (w := q * v / T) in *. set (v2 := (q * v) mod T) in *.
  assert (0 <= w < q) as Hw.
  { split; [apply Z.div_pos; nia|].
    apply Z.div_lt_upper_bound; [lia|]. nia. }
  assert (K = q * u + w) as HK.
  { assert (q * n * r = (q * u + w) * T + v2) as Halt.
    { replace (q * n * r) with (q * (n * r)) by ring. rewrite Hdm.
      replace (q * (T * u + v)) with (q * u * T + q * v) by ring.
      rewrite Hdm2. ring. }
    assert (K * T + rho = (q * u + w) * T + v2) as Heq by lia.
    assert (K = q * n * r / T) as ->
      by (apply (Z.div_unique_pos _ _ _ rho); lia).
    symmetry. apply (Z.div_unique_pos _ _ _ v2); lia. }
  assert (K mod q = w) as ->.
  { symmetry. apply (Z.mod_unique_pos _ _ u); [lia|]. lia. }
  destruct (Z.eqb_spec w 0) as [Hw0 | Hw0].
  - apply Z.ltb_lt. rewrite Hw0 in Hdm2. lia.
  - apply Z.ltb_ge. assert (T * 1 <= T * w) by (apply Z.mul_le_mono_nonneg_l; lia).
    lia.
Qed.

(** The bits of the mantissa the gate reads give the same index when the
    mantissa lies in the [K]-th interval of length [B]. *)
Lemma mod_part_index my B q K :
  0 < B -> 0 < q -> K * B <= my < (K + 1) * B ->
  (my mod (q * B) <? B) = (K mod q =? 0).
Proof.
  intros HB Hq Hmy.
  pose proof (Z.div_mod K q ltac:(lia)) as Hdm.
  pose proof (Z.mod_pos_bound K q Hq) as Hw.
  set (u := K / q) in *. set (w := K mod q) in *.
  assert (my mod (q * B) = my - u * (q * B)) as ->.
  { symmetry. apply (Z.mod_unique_pos _ _ u); [|lia].
    assert (0 <= w * B) by nia.
    assert (w * B + B <= q * B) by nia.
    assert (K * B = u * (q * B) + w * B) by (rewrite Hdm; ring).
    assert ((K + 1) * B = K * B + B) by ring. lia. }
  assert (K * B = u * (q * B) + w * B) as HKB by (rewrite Hdm; ring).
  assert ((K + 1) * B = K * B + B) as HK1 by ring.
  destruct (Z.eqb_spec w 0) as [Hw0 | Hw0].
  - apply Z.ltb_lt. rewrite Hw0 in HKB. lia.
  - apply Z.ltb_ge. assert (1 * B <= w * B)
      by (apply Z.mul_le_mono_nonneg_r; lia). lia.
Qed.

(** Away from the edges the two rounding errors cannot move the product
    across an edge. *)
Lemma subCycle_interval r T K rho mp my J B n q :
  0 < T -> 0 < J -> 0 < q -> 0 <= n ->
  q * T * (J + n) < 2 * (q * J * B) ->
  2 * Z.abs (mp * T - r * (q * J * B)) <= T ->
  2 * Z.abs (my * J - n * mp) <= J ->
  q * n * r = K * T + rho -> 1 <= rho <= T - 1 ->
  K * B <= my < (K + 1) * B.
Proof.
  intros HT HJ Hq Hn Hmargin Hdiv Hmul Hr Hrho.
  set (A := q * J * B) in *.
  set (X := 2 * my * J - 2 * n * mp).
  set (Y := 2 * (mp * T - r * A)).
  assert (- J <= X <= J) as HX by (unfold X; lia).
  assert (- T <= Y <= T) as HY by (unfold Y; lia).
  assert (2 * q * my * J * T
          = q * T * X + q * n * Y + 2 * (K * T + rho) * A) as Hid0
    by (unfold X, Y; rewrite <- Hr; ring).
  assert (2 * q * my * J * T
          = q * T * X + q * n * Y + 2 * K * T * A + 2 * rho * A) as Hid
    by (rewrite Hid0; ring).
  assert (0 < q * T) as HqT by nia.
  assert (0 <= q * n) as Hqn by nia.
  assert (- (q * T * J) <= q * T * X <= q * T * J) as HTX by nia.
  assert (- (q * n * T) <= q * n * Y <= q * n * T) as HnY by nia.
  assert (q * T * (J + n) = q * T * J + q * n * T) as Hexp by ring.
  assert (0 < A) as HA by lia.
  assert (A <= rho * A <= (T - 1) * A) as HrA by nia.
  assert (2 * K * T * A < 2 * q * my * J * T
          < 2 * K * T * A + 2 * T * A) as Hbound by lia.
  assert (0 < q * J * T) as HJT by nia.
  assert (K * B * (q * J * T) <= my * (q * J * T)
          < (K + 1) * B * (q * J * T)) as Hscaled.
  { replace (K * B * (q * J * T)) with (K * T * A) by (unfold A; ring).
    replace (my * (q * J * T)) with (q * my * J * T) by ring.
    replace ((K + 1) * B * (q * J * T)) with (K * T * A + T * A)
      by (unfold A; ring).
    lia. }
  split.
  - apply Z.mul_le_mono_pos_r with (p := q * J * T); lia.
  - apply Z.mul_lt_mono_pos_r with (p := q * J * T); lia.
Qed.

Section SubCycleGate.

(** A pattern with [n] sub-cycles, open for the first [1 / q] of each, with
    [q = 2 ^ d]; [mc * 2 ^ ec] is the [float] of [n]. *)
Variables (n q d : Z) (mc : positive) (ec : Z) (threshold : F32.float).
Hypothesis n_float : F32.of_int n = S754_finite false mc ec.
Hypothesis mc_normal : 2 ^ 23 <= Zpos mc < 2 ^ 24.
Hypothesis ec_range : -21 <= ec <= -20.
Hypothesis mc_value : Zpos mc = n * 2 ^ (- ec).
Hypothesis n_pos : 0 < n.
Hypothesis d_range : 1 <= d <= 2.
Hypothesis q_pow : q = 2 ^ d.
Hypothesis threshold_float :
  threshold = S754_finite false 8388608 (- 23 - d).
Hypothesis margin : q * 65536 * (2 ^ (ec + 25) + n) <= 2 * 2 ^ 22.
Hypothesis ties : subCycleTiesOk n q threshold = true.

Lemma q_cases : q = 2 \/ q = 4.
Proof.
  assert (d = 1 \/ d = 2) as [-> | ->] by lia; rewrite q_pow; auto.
Qed.

Lemma subCycle_tie r T K mp a :
  0 < r < T -> 22 <= a <= 47 ->
  2 ^ 23 <= Zpos mp < 2 ^ 24 ->
  2 * Z.abs (Zpos mp * T - r * 2 ^ a) <= T ->
  q * n * r = K * T ->
  subCycleGate n threshold (S754_finite false mp (- a)) = (K mod q =? 0).
Proof.
  intros Hr Ha Hmp Herr HK.
  pose proof q_cases as Hq.
  assert (0 < q * n) as HN by nia.
  set (N := q * n) in *.
  assert (1 <= K <= N - 1) as HKr.
  { assert (0 < K * T) by nia. assert (K * T < N * T) by nia.
    split.
    - destruct (Z_le_gt_dec 1 K); [assumption|]. nia.
    - destruct (Z_le_gt_dec K (N - 1)); [assumption|]. nia. }
  assert (0 < 2 ^ a) as HA by (apply pow2_pos; lia).
  set (A := 2 ^ a) in *.
  assert (2 * Z.abs (N * Zpos mp - K * A) <= N) as Hnear.
  { assert (N * (Zpos mp * T - r * A) = T * (N * Zpos mp - K * A)) as Hid.
    { assert (K * T * A = N * r * A) as HKA by (rewrite <- HK; reflexivity).
      lia. }
    assert (2 * Z.abs (T * (N * Zpos mp - K * A)) <= N * T) as Hb.
    { rewrite <- Hid, Z.abs_mul, (Z.abs_eq N) by lia.
      assert (N * (2 * Z.abs (Zpos mp * T - r * A)) <= N * T)
        by (apply Z.mul_le_mono_nonneg_l; lia). lia. }
    rewrite Z.abs_mul, (Z.abs_eq T) in Hb by lia.
    apply Z.mul_le_mono_pos_l with (p := T); lia. }
  assert (Zpos mp = K * A / N + 0 \/ Zpos mp = K * A / N + 1) as Hcand.
  { pose proof (Z.div_mod (K * A) N ltac:(lia)) as Hdm.
    pose proof (Z.mod_pos_bound (K * A) N HN) as Hm.
    set (c := K * A / N) in *. set (m := (K * A) mod N) in *.
    destruct (Z_le_gt_dec (Zpos mp) (c - 1)) as [Hlow | Hlow'].
    { assert (N * Zpos mp <= N * (c - 1))
        by (apply Z.mul_le_mono_nonneg_l; lia). lia. }
    destruct (Z_le_gt_dec (c + 2) (Zpos mp)) as [Hhigh | Hhigh'].
    { assert (N * (c + 2) <= N * Zpos mp)
        by (apply Z.mul_le_mono_nonneg_l; lia). lia. }
    lia. }
  pose proof (allZ_spec _ _ _ ties K ltac:(fold N; lia)) as HKrow.
  cbv beta in HKrow.
  pose proof (allZ_spec _ _ _ HKrow a ltac:(lia)) as Hcell.
  cbv beta in Hcell. apply andb_prop in Hcell. destruct Hcell as [H0 H1].
  assert (forall dd, Zpos mp = K * A / N + dd ->
            subCycleTieOk n q threshold K a dd = true ->
            subCycleGate n threshold (S754_finite false mp (- a))
            = (K mod q =? 0)) as Huse.
  { intros dd Hd Hok. unfold subCycleTieOk in Hok. cbv zeta in Hok.
    fold A in Hok. fold N in Hok. rewrite <- Hd in Hok.
    replace ((2 ^ 23 <=? Zpos mp) && (Zpos mp <? 2 ^ 24)
             && (2 * Z.abs (N * Zpos mp - K * A) <=? N)) with true in Hok.
    - cbn [Z.to_pos] in Hok. apply Bool.eqb_prop in Hok. exact Hok.
    - symmetry. rewrite !andb_true_iff. repeat split.
      + apply Z.leb_le. lia.
      + apply Z.ltb_lt. lia.
      + apply Z.leb_le. exact Hnear. }
  destruct Hcand as [Hc | Hc]; eauto.
Qed.

(** The gate computed in single precision is the gate of exact arithmetic,
    at every millisecond of every period a 16-bit tempo can hold. *)
Lemma subCycleGate_exact r T :
  0 <= r < T -> T < 2 ^ 16 ->
  subCycleGate n threshold (loopPosition r T) = subCycleOpen n q r T.
Proof.
  intros Hr HT. unfold loopPosition. rewrite Z.mod_small by lia.
  pose proof q_cases as Hq.
  assert (T < 2 ^ 24) as HT24
    by (change (2 ^ 16) with 65536 in HT; change (2 ^ 24) with 16777216; lia).
  destruct (Z.eq_dec r 0) as [-> | Hnz].
  - destruct (of_int_normal T) as (m & e & HTf & _); [lia|lia|].
    rewrite HTf. replace (T <? 0) with false by (symmetry; apply Z.ltb_ge; lia).
    unfold subCycleOpen. rewrite Z.mul_0_r, Z.mod_0_l, Z.mul_0_r by lia.
    replace (0 <? T) with true by (symmetry; apply Z.ltb_lt; lia).
    unfold subCycleGate. rewrite n_float, threshold_float. reflexivity.
  - destruct (div_spec r T) as (mp & a & Hdiv & Ha & Hmp & Herr);
      [lia|assumption|].
    rewrite Hdiv.
    pose proof (Z.div_mod (q * n * r) T ltac:(lia)) as Hdm.
    pose proof (Z.mod_pos_bound (q * n * r) T ltac:(lia)) as Hrho.
    set (K := q * n * r / T) in *. set (rho := (q * n * r) mod T) in *.
    assert (q * n * r = K * T + rho) as Hdm' by lia.
    assert (0 <= n * r) as Hnr by (apply Z.mul_nonneg_nonneg; lia).
    rewrite (subCycleOpen_index n q r T K rho) by (assumption || lia).
    destruct (Z.eq_dec rho 0) as [Hz | Hpos].
    + apply (subCycle_tie r T K mp a); try assumption; lia.
    + destruct (mul_const_spec n mc ec mp a n_float mc_normal
                  ltac:(lia) mc_value Hmp Ha)
        as (my & j & Hmul & Hj & Hmy & Herr').
      unfold subCycleGate. rewrite Hmul, threshold_float.
      replace (j - a) with (- (a - j)) by lia.
      rewrite fmod1_lt_pow2 by lia.
      assert (2 ^ (a - j) = q * 2 ^ (a - j - d)) as Hsplit.
      { rewrite q_pow, <- Z.pow_add_r by lia. f_equal. lia. }
      rewrite Hsplit.
      assert (0 < 2 ^ (a - j - d)) as HB by (apply pow2_pos; lia).
      assert (0 < 2 ^ j) as HJ by (apply pow2_pos; lia).
      assert (2 ^ a = q * 2 ^ j * 2 ^ (a - j - d)) as HA.
      { rewrite q_pow, <- !Z.pow_add_r by lia. f_equal. lia. }
      apply mod_part_index; [exact HB | lia |].
      assert (q * T * (2 ^ j + n) < 2 * 2 ^ a) as Hmargin.
      { assert (2 ^ 22 <= 2 ^ a) by (apply Z.pow_le_mono_r; lia).
        assert (2 ^ j <= 2 ^ (ec + 25)) by (apply Z.pow_le_mono_r; lia).
        change (2 ^ 16) with 65536 in HT.
        assert (0 < q) by lia.
        assert (q * T <= q * 65536)
          by (apply Z.mul_le_mono_nonneg_l; lia).
        assert (q * T * (2 ^ j + n) <= q * T * (2 ^ (ec + 25) + n))
          by (apply Z.mul_le_mono_nonneg_l; lia).
        assert (q * T * (2 ^ (ec + 25) + n)
                < q * 65536 * (2 ^ (ec + 25) + n)).
        { apply Z.mul_lt_mono_pos_r; [lia|].
          apply Z.mul_lt_mono_pos_l; lia. }
        lia. }
      rewrite HA in Hmargin, Herr.
      apply (subCycle_interval r T K rho (Zpos mp) (Zpos my) (2 ^ j)
               (2 ^ (a - j - d)) n q).
      * lia.
      * exact HJ.
      * lia.
      * lia.
      * exact Hmargin.
      * exact Herr.
      * exact Herr'.
      * exact Hdm'.
      * lia.
Qed.

End SubCycleGate.

Lemma of_int_6 : F32.of_int 6 = S754_finite false 12582912 (-21).
Proof. reflexivity. Qed.

Lemma of_int_4 : F32.of_int 4 = S754_finite false 8388608 (-21).
Proof. reflexivity. Qed.

Lemma lit_quarter : F32.lit 25 100 = S754_finite false 8388608 (-25).
Proof. vm_compute. reflexivity. Qed.

Lemma tripletTiesOk : subCycleTiesOk 6 2 (F32.lit 5 10) = true.
Proof. vm_compute. reflexivity. Qed.

Lemma staccatoTiesOk : subCycleTiesOk 4 4 (F32.lit 25 100) = true.
Proof. vm_compute. reflexivity. Qed.

Lemma tripletGate_exact r T :
  0 <= r < T -> T < 2 ^ 16 ->
  subCycleGate 6 (F32.lit 5 10) (loopPosition r T) = subCycleOpen 6 2 r T.
Proof.
  refine (subCycleGate_exact 6 2 1 12582912 (-21) (F32.lit 5 10)
            of_int_6 _ _ _ _ _ _ lit_half _ tripletTiesOk r T);
    first [reflexivity | simpl; lia].
Qed.

Lemma staccatoGate_exact r T :
  0 <= r < T -> T < 2 ^ 16 ->
  subCycleGate 4 (F32.lit 25 100) (loopPosition r T) = subCycleOpen 4 4 r T.
Proof.
  refine (subCycleGate_exact 4 4 2 8388608 (-21) (F32.lit 25 100)
            of_int_4 _ _ _ _ _ _ lit_quarter _ staccatoTiesOk r T);
    first [reflexivity | simpl; lia].
Qed.

(** A normal number [mp * 2^-a] is below one half exactly when its exponent
    is. *)
Lemma ltb_half_normal mp a :
  2 ^ 23 <= Zpos mp ->
  F32.ltb (S754_finite false mp (- a)) (F32.lit 5 10) = (24 <? a).
Proof.
  intros Hmp. rewrite lit_half. unfold F32.ltb, SFltb, SFcompare.
  change (2 ^ 23) with 8388608 in Hmp.
  destruct (Z.compare_spec (- a) (-24)) as [Heq | Hlt | Hgt].
  - pose proof (compare_cont_ge mp 8388608 ltac:(lia)) as Hnlt.
    assert ((24 <? a) = false) as -> by (apply Z.ltb_ge; lia).
    generalize dependent (Pos.compare_cont Eq mp 8388608).
    intros c Hc. destruct c; [reflexivity|congruence|reflexivity].
  - symmetry. apply Z.ltb_lt. lia.
  - symmetry. apply Z.ltb_ge. lia.
Qed.

(** The GATE pattern in single precision is the comparison [2 r < T] of
    exact arithmetic. *)
Lemma gatePattern_exact r T :
  0 <= r < T -> T < 2 ^ 16 ->
  F32.ltb (loopPosition r T) (F32.lit 5 10) = (2 * r <? T).
Proof.
  intros Hr HT. unfold loopPosition. rewrite Z.mod_small by lia.
  assert (T < 2 ^ 24) as HT24
    by (change (2 ^ 16) with 65536 in HT; change (2 ^ 24) with 16777216; lia).
  destruct (Z.eq_dec r 0) as [-> | Hnz].
  - destruct (of_int_normal T) as (m & e & HTf & _); [lia|lia|].
    rewrite HTf. replace (T <? 0) with false by (symmetry; apply Z.ltb_ge; lia).
    replace (2 * 0 <? T) with true by (symmetry; apply Z.ltb_lt; lia).
    reflexivity.
  - destruct (div_spec r T) as (mp & a & Hdiv & Ha & Hmp & Herr);
      [lia|assumption|].
    rewrite Hdiv, ltb_half_normal by lia.
    change (2 ^ 16) with 65536 in HT.
    change (2 ^ 23) with 8388608 in Hmp. change (2 ^ 24) with 16777216 in Hmp.
    destruct (Z.ltb_spec (2 * r) T) as [Hopen | Hclosed].
    + (* before the middle: an exponent of -24 or more is too large *)
      apply Z.ltb_lt.
      destruct (Z_lt_le_dec 24 a) as [|Hle]; [assumption|exfalso].
      assert (2 ^ a <= 2 ^ 24) as HA by (apply Z.pow_le_mono_r; lia).
      change (2 ^ 24) with 16777216 in HA.
      assert (0 < 2 ^ a) as HApos by (apply pow2_pos; lia).
      assert (8388608 * T <= Zpos mp * T)
        by (apply Z.mul_le_mono_nonneg_r; lia).
      assert (r * 2 ^ a <= r * 16777216)
        by (apply Z.mul_le_mono_nonneg_l; lia).
      lia.
    + (* from the middle on: an exponent below -24 is too small *)
      apply Z.ltb_ge.
      destruct (Z_le_gt_dec a 24) as [|Hgt]; [assumption|exfalso].
      assert (2 ^ 25 <= 2 ^ a) as HA by (apply Z.pow_le_mono_r; lia).
      change (2 ^ 25) with 33554432 in HA.
      assert (Zpos mp * T <= 16777215 * T)
        by (apply Z.mul_le_mono_nonneg_r; lia).
      assert (T * 33554432 <= 2 * r * 2 ^ a).
      { assert (T * 33554432 <= T * 2 ^ a)
          by (apply Z.mul_le_mono_nonneg_l; lia).
        assert (T * 2 ^ a <= 2 * r * 2 ^ a)
          by (apply Z.mul_le_mono_nonneg_r; lia).
        lia. }
      lia.
Qed.

Lemma evaluateLoopPattern_branches l now :
  Loop.active l = true ->
  let position := loopPosition (u32 (now - Loop.patternStartTime l))
                    (Loop.patternTempo l) in
  (Loop.pattern l = LOOP_TRIPLET ->
   evaluateLoopPattern l now = subCycleGate 6 (F32.lit 5 10) position)
  /\ (Loop.pattern l = LOOP_STACCATO ->
      evaluateLoopPattern l now = subCycleGate 4 (F32.lit 25 100) position)
  /\ (Loop.pattern l = LOOP_GATE ->
      evaluateLoopPattern l now = F32.ltb position (F32.lit 5 10)).
Proof.
  intros Hact position. unfold evaluateLoopPattern. rewrite Hact.
  repeat split; intros ->; reflexivity.
Qed.

(** The sub-cycle of an instant, and the part of it in which a pattern of
    [n] sub-cycles open for the first [1 / q] of each is open. *)
Lemma subCycleOpen_spec n q r T :
  0 < n -> 0 < q -> 0 <= r < T ->
  exists k, 0 <= k < n /\ k * T <= n * r < (k + 1) * T
            /\ (subCycleOpen n q r T = true <-> q * (n * r - k * T) < T).
Proof.
  intros Hn Hq Hr. exists (n * r / T).
  pose proof (Z.div_mod (n * r) T ltac:(lia)) as Hdm.
  pose proof (Z.mod_pos_bound (n * r) T ltac:(lia)) as Hm.
  assert (0 <= n * r) by nia.
  assert (0 <= n * r / T) by (apply Z.div_pos; lia).
  assert (n * r / T < n) by (apply Z.div_lt_upper_bound; nia).
  split; [lia|]. split; [nia|].
  unfold subCycleOpen. rewrite Z.ltb_lt.
  replace (n * r - n * r / T * T) with ((n * r) mod T) by lia.
  reflexivity.
Qed.

(** X15.  The TRIPLET gate of [evaluateLoopPattern], for an active loop and
    a period [0 < T < 2^16]: the value computed in single precision,
    [fmod(position * 6.0f, 1.0f) < 0.5f], is the threshold function of exact
    arithmetic at the position [(elapsed mod T) / T]; the instant lies in one
    of 6 sub-cycles and the gate is open exactly in the first half of it. *)
Theorem triplet_gate_six_subcycles (l : Loop.t) (now : Z) :
  Loop.active l = true -> Loop.pattern l = LOOP_TRIPLET ->
  0 < Loop.patternTempo l < 2 ^ 16 ->
  let T := Loop.patternTempo l in
  evaluateLoopPattern l now = subCycleOpen 6 2 (loopPhase l now) T
  /\ exists k, 0 <= k < 6
       /\ k * T <= 6 * loopPhase l now < (k + 1) * T
       /\ (evaluateLoopPattern l now = true
           <-> 2 * (6 * loopPhase l now - k * T) < T).
Proof.
  intros Hact Hpat HT T.
  assert (0 <= loopPhase l now < T) as Hr
    by (apply Z.mod_pos_bound; unfold T; lia).
  assert (evaluateLoopPattern l now = subCycleOpen 6 2 (loopPhase l now) T)
    as Hgate.
  { rewrite (proj1 (evaluateLoopPattern_branches l now Hact) Hpat).
    rewrite loopPosition_phase by lia.
    apply tripletGate_exact; [exact Hr | unfold T; lia]. }
  split; [exact Hgate|]. rewrite Hgate.
  apply subCycleOpen_spec; lia.
Qed.

Lemma triplet_gate_six_subcycles_witness :
  let l := {| Loop.active := true; Loop.pattern := LOOP_TRIPLET;
              Loop.patternStartTime := 1000; Loop.patternTempo := 480;
              Loop.gateState := false |} in
  Loop.active l = true /\ Loop.pattern l = LOOP_TRIPLET /\
  0 < Loop.patternTempo l < 2 ^ 16 /\
  evaluateLoopPattern l 1270 = subCycleOpen 6 2 (loopPhase l 1270) 480.
Proof.
  intros l.
  assert (0 < Loop.patternTempo l < 2 ^ 16) as HT by (simpl; lia).
  split; [reflexivity|]. split; [reflexivity|]. split; [exact HT|].
  exact (proj1 (triplet_gate_six_subcycles l 1270 eq_refl eq_refl HT)).
Defined.

(** X16.  The STACCATO gate of [evaluateLoopPattern], for an active loop and
    a period [0 < T < 2^16]: the value computed in single precision,
    [fmod(position * 4.0f, 1.0f) < 0.25f], is the threshold function of
    exact arithmetic; the instant lies in one of 4 sub-cycles and the gate is
    open exactly in the first quarter of it. *)
Theorem staccato_gate_four_stabs (l : Loop.t) (now : Z) :
  Loop.active l = true -> Loop.pattern l = LOOP_STACCATO ->
  0 < Loop.patternTempo l < 2 ^ 16 ->
  let T := Loop.patternTempo l in
  evaluateLoopPattern l now = subCycleOpen 4 4 (loopPhase l now) T
  /\ exists k, 0 <= k < 4
       /\ k * T <= 4 * loopPhase l now < (k + 1) * T
       /\ (evaluateLoopPattern l now = true
           <-> 4 * (4 * loopPhase l now - k * T) < T).
Proof.
  intros Hact Hpat HT T.
  assert (0 <= loopPhase l now < T) as Hr
    by (apply Z.mod_pos_bound; unfold T; lia).
  assert (evaluateLoopPattern l now = subCycleOpen 4 4 (loopPhase l now) T)
    as Hgate.
  { rewrite (proj1 (proj2 (evaluateLoopPattern_branches l now Hact)) Hpat).
    rewrite loopPosition_phase by lia.
    apply staccatoGate_exact; [exact Hr | unfold T; lia]. }
  split; [exact Hgate|]. rewrite Hgate.
  apply subCycleOpen_spec; lia.
Qed.

Lemma staccato_gate_four_stabs_witness :
  let l := {| Loop.active := true; Loop.pattern := LOOP_STACCATO;
              Loop.patternStartTime := 1000; Loop.patternTempo := 480;
              Loop.gateState := false |} in
  Loop.active l = true /\ Loop.pattern l = LOOP_STACCATO /\
  0 < Loop.patternTempo l < 2 ^ 16 /\
  evaluateLoopPattern l 1270 = subCycleOpen 4 4 (loopPhase l 1270) 480.
Proof.
  intros l.
  assert (0 < Loop.patternTempo l < 2 ^ 16) as HT by (simpl; lia).
  split; [reflexivity|]. split; [reflexivity|]. split; [exact HT|].
  exact (proj1 (staccato_gate_four_stabs l 1270 eq_refl eq_refl HT)).
Defined.

(** X17.  The GATE pattern of [evaluateLoopPattern], for an active loop and
    a period [0 < T < 2^16]: the comparison [position < 0.5f] computed in
    single precision is open exactly in the first half of the period,
    [2 * (elapsed mod T) < T], and so depends on the elapsed time modulo the
    period only. *)
Theorem gate_pattern_first_half (l : Loop.t) (now : Z) :
  Loop.active l = true -> Loop.pattern l = LOOP_GATE ->
  0 < Loop.patternTempo l < 2 ^ 16 ->
  (evaluateLoopPattern l now = true
   <-> 2 * loopPhase l now < Loop.patternTempo l)
  /\ forall now', loopPhase l now' = loopPhase l now ->
       evaluateLoopPattern l now' = evaluateLoopPattern l now.
Proof.
  intros Hact Hpat HT.
  assert (forall t, evaluateLoopPattern l t
                    = (2 * loopPhase l t <? Loop.patternTempo l)) as Hgate.
  { intros t.
    rewrite (proj2 (proj2 (evaluateLoopPattern_branches l t Hact)) Hpat).
    rewrite loopPosition_phase by lia.
    apply gatePattern_exact; [|lia].
    apply Z.mod_pos_bound. lia. }
  split.
  - rewrite Hgate. apply Z.ltb_lt.
  - intros now' Hsame. rewrite !Hgate, Hsame. reflexivity.
Qed.

Lemma gate_pattern_first_half_witness :
  let l := {| Loop.active := true; Loop.pattern := LOOP_GATE;
              Loop.patternStartTime := 1000; Loop.patternTempo := 480;
              Loop.gateState := false |} in
  Loop.active l = true /\ Loop.pattern l = LOOP_GATE /\
  0 < Loop.patternTempo l < 2 ^ 16 /\
  evaluateLoopPattern l 1239 = true.
Proof.
  intros l.
  assert (0 < Loop.patternTempo l < 2 ^ 16) as HT by (simpl; lia).
  split; [reflexivity|]. split; [reflexivity|]. split; [exact HT|].
  apply (proj1 (gate_pattern_first_half l 1239 eq_refl eq_refl HT)).
  vm_compute. reflexivity.
Defined.

(** ** Loop tempo from the speed pot *)

Lemma loopTempoOk_all : allZ loopTempoOk 0 4096 = true.
Proof. vm_compute. reflexivity. Qed.

Lemma loopTempoFromPot_exact speedRaw :
  0 <= speedRaw <= 4095 ->
  loopTempoFromPot speedRaw = 200 + 800 * speedRaw / 4095.
Proof.
  intros Hs.
  pose proof (allZ_spec _ _ _ loopTempoOk_all speedRaw ltac:(lia)) as H.
  unfold loopTempoOk in H. apply Z.eqb_eq in H. exact H.
Qed.

Lemma potRaw_range a b c d :
  0 <= a <= 4095 -> 0 <= b <= 4095 -> 0 <= c <= 4095 -> 0 <= d <= 4095 ->
  potRaw a b c d = 4095 - (a + b + c + d) / 4
  /\ 0 <= potRaw a b c d <= 4095.
Proof.
  intros Ha Hb Hc Hd. unfold potRaw. cbv zeta.
  rewrite (u32_id (0 + a)) by (unfold is_u32; lia).
  rewrite (u32_id (0 + a + b)) by (unfold is_u32; lia).
  rewrite (u32_id (0 + a + b + c)) by (unfold is_u32; lia).
  rewrite (u32_id (0 + a + b + c + d)) by (unfold is_u32; lia).
  rewrite Z.add_0_l.
  rewrite (Z.quot_div_nonneg (a + b + c + d) 4) by lia.
  rewrite u16_id by (unfold is_u16; Z.div_mod_to_equations; lia).
  split; [reflexivity|]. Z.div_mod_to_equations. lia.
Qed.

Lemma filterSpeed_exact speedRaw p :
  0 <= speedRaw <= 4095 -> 0 <= SpeedPot.speedFiltered p <= 4095 ->
  filterSpeed speedRaw p
  = (if SpeedPot.firstRead p then speedRaw
     else (2 * speedRaw + 8 * SpeedPot.speedFiltered p) / 10)
  /\ 0 <= filterSpeed speedRaw p <= 4095.
Proof.
  intros Hr Hf. unfold filterSpeed.
  destruct (SpeedPot.firstRead p); [split; [reflexivity | exact Hr]|].
  rewrite (s32_id (speedRaw * 2)) by (unfold is_s32; lia).
  rewrite (s32_id (SpeedPot.speedFiltered p * 8)) by (unfold is_s32; lia).
  rewrite s32_id by (unfold is_s32; lia).
  rewrite Z.quot_div_nonneg by lia.
  replace (speedRaw * 2 + SpeedPot.speedFiltered p * 8)
    with (2 * speedRaw + 8 * SpeedPot.speedFiltered p) by lia.
  rewrite u16_id by (unfold is_u16; Z.div_mod_to_equations; lia).
  split; [reflexivity|]. Z.div_mod_to_equations. lia.
Qed.

Lemma stableSpeed_exact f s :
  0 <= f <= 4095 -> 0 <= s <= 4095 ->
  stableSpeed f s = (if 8 <? Z.abs (f - s) then f else s)
  /\ 0 <= stableSpeed f s <= 4095
  /\ Z.abs (f - stableSpeed f s) <= 8.
Proof.
  intros Hf Hs. unfold stableSpeed.
  rewrite s32_id by (unfold is_s32; lia).
  split; [reflexivity|].
  destruct (Z.ltb_spec 8 (Z.abs (f - s))); lia.
Qed.

(** X18.  The loop tempo follows the stabilised speed pot and stays a valid
    period.  A call of [readPotentiometers] with four 12-bit ADC reads turns
    them into the pot value [4095 - (sum / 4)], takes it as the filtered
    value on the first call and moves the filtered value a fifth of the way
    to it afterwards, and lets the stable value follow the filtered one only
    when they are more than 8 counts apart, so that both stay in [0, 4095]
    and within 8 counts of each other.  Outside sequencer mode, with the loop
    active on a pattern and LFO2 off, the tempo the single-precision
    expression gives is [200 + 800 * stable / 4095] ms, in [200, 1000]; in
    sequencer mode, or with the loop or its pattern off, or with LFO2 on, the
    loop state is left as it is; so a tempo in [200, 1000], such as the
    initial 480, stays there and the period by which [evaluateLoopPattern]
    divides is never 0. *)
Theorem loopTempo_follows_stable_pot (read1 read2 read3 read4 : Z)
    (sequencerActive lfo2Active : bool) (p : SpeedPot.t) (l : Loop.t) :
  0 <= read1 <= 4095 -> 0 <= read2 <= 4095 ->
  0 <= read3 <= 4095 -> 0 <= read4 <= 4095 ->
  0 <= SpeedPot.speedFiltered p <= 4095 ->
  0 <= SpeedPot.lastStableSpeed p <= 4095 ->
  let raw := 4095 - (read1 + read2 + read3 + read4) / 4 in
  let result :=
    readPotentiometersLoop sequencerActive lfo2Active
      read1 read2 read3 read4 p l in
  let p' := fst result in
  let l' := snd result in
  SpeedPot.firstRead p' = false
  /\ SpeedPot.speedFiltered p'
     = (if SpeedPot.firstRead p then raw
        else (2 * raw + 8 * SpeedPot.speedFiltered p) / 10)
  /\ SpeedPot.lastStableSpeed p'
     = (if 8 <? Z.abs (SpeedPot.speedFiltered p' - SpeedPot.lastStableSpeed p)
        then SpeedPot.speedFiltered p' else SpeedPot.lastStableSpeed p)
  /\ 0 <= SpeedPot.speedFiltered p' <= 4095
  /\ 0 <= SpeedPot.lastStableSpeed p' <= 4095
  /\ Z.abs (SpeedPot.speedFiltered p' - SpeedPot.lastStableSpeed p') <= 8
  /\ (sequencerActive = false -> Loop.active l = true ->
      Loop.pattern l <> LOOP_OFF -> lfo2Active = false ->
      Loop.patternTempo l'
      = 200 + 800 * SpeedPot.lastStableSpeed p' / 4095
      /\ Loop.active l' = true /\ Loop.pattern l' = Loop.pattern l
      /\ Loop.patternStartTime l' = Loop.patternStartTime l
      /\ Loop.gateState l' = Loop.gateState l)
  /\ (sequencerActive = true \/ Loop.active l = false
      \/ Loop.pattern l = LOOP_OFF \/ lfo2Active = true -> l' = l)
  /\ (200 <= Loop.patternTempo l <= 1000 ->
      200 <= Loop.patternTempo l' <= 1000).
Proof.
  intros H1 H2 H3 H4 Hf Hs raw result p' l'.
  destruct (potRaw_range read1 read2 read3 read4 H1 H2 H3 H4) as [Hpot Hraw].
  fold raw in Hpot. rewrite Hpot in Hraw.
  destruct (filterSpeed_exact raw p Hraw Hf) as [Hfilt Hfr].
  destruct (stableSpeed_exact (filterSpeed raw p) (SpeedPot.lastStableSpeed p)
              Hfr Hs) as (Hstab & Hsr & Hnear).
  assert (p' = {| SpeedPot.speedFiltered := filterSpeed raw p;
                  SpeedPot.firstRead := false;
                  SpeedPot.lastStableSpeed :=
                    stableSpeed (filterSpeed raw p)
                                (SpeedPot.lastStableSpeed p) |}) as Hp'.
  { unfold p', result, readPotentiometersLoop, readSpeedPot. cbv zeta.
    rewrite Hpot. destruct sequencerActive; reflexivity. }
  assert (l' = if sequencerActive then l
               else setLoopTempo lfo2Active (SpeedPot.lastStableSpeed p') l)
    as Hl'.
  { unfold l', p', result, readPotentiometersLoop. cbv zeta.
    destruct sequencerActive; reflexivity. }
  assert (SpeedPot.speedFiltered p' = filterSpeed raw p) as Hpf
    by (rewrite Hp'; reflexivity).
  assert (SpeedPot.lastStableSpeed p'
          = stableSpeed (filterSpeed raw p) (SpeedPot.lastStableSpeed p))
    as Hps by (rewrite Hp'; reflexivity).
  clearbody p' l'. clear result.
  rewrite Hpf, Hps.
  split; [rewrite Hp'; reflexivity|].
  split; [exact Hfilt|]. split; [exact Hstab|]. split; [exact Hfr|].
  split; [exact Hsr|]. split; [exact Hnear|].
  pose proof (loopTempoFromPot_exact _ Hsr) as Htempo.
  assert (200 <= loopTempoFromPot
                   (stableSpeed (filterSpeed raw p)
                                (SpeedPot.lastStableSpeed p)) <= 1000)
    as Hrange by (rewrite Htempo; Z.div_mod_to_equations; lia).
  rewrite Hps in Hl'.
  split; [|split].
  - intros -> Hact Hpat ->. rewrite Hl'. unfold setLoopTempo.
    rewrite Hact. apply Z.eqb_neq in Hpat. rewrite Hpat.
    cbn [andb negb Loop.patternTempo Loop.active Loop.pattern
         Loop.patternStartTime Loop.gateState].
    repeat split. exact Htempo.
  - intros Hoff. rewrite Hl'. unfold setLoopTempo.
    destruct sequencerActive; [reflexivity|].
    destruct Hoff as [Hoff | [Hoff | [Hoff | Hoff]]];
      [discriminate Hoff | rewrite Hoff; reflexivity
       | rewrite Hoff, Z.eqb_refl, andb_false_r; reflexivity
       | rewrite Hoff, andb_false_r; reflexivity].
  - intros Hold. rewrite Hl'. unfold setLoopTempo.
    destruct sequencerActive; [exact Hold|].
    destruct (_ && _); [exact Hrange | exact Hold].
Qed.

Lemma loopTempo_follows_stable_pot_witness :
  let l := {| Loop.active := true; Loop.pattern := LOOP_TRIPLET;
              Loop.patternStartTime := 0; Loop.patternTempo := 480;
              Loop.gateState := false |} in
  0 <= 2048 <= 4095
  /\ 0 <= SpeedPot.speedFiltered SpeedPot.init <= 4095
  /\ 0 <= SpeedPot.lastStableSpeed SpeedPot.init <= 4095
  /\ Loop.active l = true /\ Loop.pattern l <> LOOP_OFF
  /\ Loop.patternTempo
       (snd (readPotentiometersLoop false false 2048 2048 2048 2048
               SpeedPot.init l)) = 600.
Proof.
  intros l.
  assert (0 <= 2048 <= 4095) as H by lia.
  assert (0 <= SpeedPot.speedFiltered SpeedPot.init <= 4095) as Hf
    by (simpl; lia).
  assert (0 <= SpeedPot.lastStableSpeed SpeedPot.init <= 4095) as Hs
    by (simpl; lia).
  assert (Loop.pattern l <> LOOP_OFF) as Hpat by discriminate.
  split; [exact H|]. split; [exact Hf|]. split; [exact Hs|].
  split; [reflexivity|]. split; [exact Hpat|].
  destruct (loopTempo_follows_stable_pot 2048 2048 2048 2048 false false
              SpeedPot.init l H H H H Hf Hs)
    as (_ & _ & Hstable & _ & _ & _ & Htempo & _).
  destruct (Htempo eq_refl eq_refl Hpat eq_refl) as [-> _].
  rewrite Hstable. reflexivity.
Defined.

(** ** The melody of the lead sequence *)

Lemma generateMelody_steps w :
  exec generateMelody w
  = foldl (melodyStep (Siren.baseFreq (siren w))) w
      (seqZ 0 (Siren.stepCount (siren w))).
Proof.
  unfold generateMelody, exec, mbind, M_bind, gets. cbn [fst snd].
  generalize (Siren.baseFreq (siren w)) as root.
  generalize (seqZ 0 (Siren.stepCount (siren w))) as steps.
  intros steps root. revert w.
  induction steps as [|i steps IH]; intros w; [reflexivity|].
  cbn [foldr foldl]. rewrite <- IH. reflexivity.
Qed.

Lemma melodyStep_clock root w i : clock (melodyStep root w i) = clock w.
Proof. reflexivity. Qed.

(** The notes after the loop has run over the steps [0 .. n - 1]. *)
Lemma melody_fold root (n : nat) w :
  let w' := foldl (melodyStep root) w (seqZ 0 (Z.of_nat n)) in
  clock w' = clock w
  /\ siren_only w w'
  /\ length (Siren.noteFrequencies (siren w'))
     = length (Siren.noteFrequencies (siren w))
  /\ (forall i, (i < n)%nat ->
        (i < length (Siren.noteFrequencies (siren w)))%nat ->
        Siren.noteFrequencies (siren w') !! i
        = Some (melodyNote root (u32 (clock w)) (Z.of_nat i)))
  /\ (forall i, (n <= i)%nat ->
        Siren.noteFrequencies (siren w') !! i
        = Siren.noteFrequencies (siren w) !! i)
  /\ siren w'
     = Siren.with_noteFrequencies (Siren.noteFrequencies (siren w'))
         (siren w).
Proof.
  induction n as [|n IH].
  - cbv zeta. cbn [seqZ foldl]. change (Z.of_nat 0) with 0.
    rewrite seqZ_nil by lia. cbn [foldl].
    split; [reflexivity|]. split; [apply siren_only_refl|].
    split; [reflexivity|]. split; [intros i Hi; lia|].
    split; [reflexivity|]. destruct (siren w). reflexivity.
  - cbv zeta in *. rewrite seqZ_S, foldl_app. cbn [foldl].
    rewrite Z.add_0_l.
    destruct IH as (Hc & Hs & Hl & Hin & Hout & Hfr).
    set (w1 := foldl (melodyStep root) w (seqZ 0 (Z.of_nat n))) in *.
    set (w2 := melodyStep root w1 (Z.of_nat n)).
    assert (clock w2 = clock w1) as Hc2 by reflexivity.
    assert (Siren.noteFrequencies (siren w2)
            = <[n := melodyNote root (u32 (clock w)) (Z.of_nat n)]>
                (Siren.noteFrequencies (siren w1))) as Hn2.
    { unfold w2, melodyStep.
      cbn [siren with_siren Siren.noteFrequencies
           Siren.with_noteFrequencies].
      rewrite Nat2Z.id, Hc. reflexivity. }
    assert (siren w2
            = Siren.with_noteFrequencies (Siren.noteFrequencies (siren w2))
                (siren w1)) as Hfr2 by reflexivity.
    assert (siren_only w1 w2) as Hs2 by apply siren_only_with_siren.
    clearbody w2.
    split; [congruence|].
    split; [eapply siren_only_trans; eassumption|].
    split; [rewrite Hn2, length_insert; exact Hl|].
    split; [|split].
    + intros i Hi Hlen. rewrite Hn2.
      destruct (Nat.eq_dec i n) as [-> | Hne].
      * apply list_lookup_insert_eq. lia.
      * rewrite list_lookup_insert_ne by lia. apply Hin; lia.
    + intros i Hi. rewrite Hn2, list_lookup_insert_ne by lia.
      apply Hout. lia.
    + rewrite Hfr2, Hfr. reflexivity.
Qed.

Lemma melodyNote_index root now i :
  0 <= now -> 0 <= i -> now + 37 * i < 2 ^ 32 ->
  melodyNote root now i
  = F32.mul root (table_get melodyScale ((now + i) mod 6)).
Proof.
  intros Hnow Hi Hfit. unfold melodyNote. do 2 f_equal.
  change (2 ^ 32) with 4294967296 in Hfit.
  rewrite u32_id by (unfold is_u32; lia).
  replace (now + i * 37) with (now + i + i * 6 * 6) by lia.
  rewrite Z.mod_add by lia.
  apply u8_id. unfold is_u8.
  pose proof (Z.mod_pos_bound (now + i) 6 ltac:(lia)). lia.
Qed.

(** X19.  The melody [generateMelody] writes is a run up the pentatonic
    table, not a random walk: with the clock not wrapping during the call,
    step [i] of the first [stepCount] steps gets
    [baseFreq * scale[(millis() + i) mod 6]], each step one table entry
    after the previous one, cyclically; the notes from [stepCount] on are
    kept, and nothing but the note table changes. *)
Theorem generateMelody_scale_run (w : Machine) :
  let n := Siren.stepCount (siren w) in
  let now := u32 (clock w) in
  let w' := exec generateMelody w in
  0 <= n <= Z.of_nat (length (Siren.noteFrequencies (siren w))) ->
  now + 37 * n < 2 ^ 32 ->
  (forall i, 0 <= i < n ->
     Siren.noteFrequencies (siren w') !! Z.to_nat i
     = Some (F32.mul (Siren.baseFreq (siren w))
               (table_get melodyScale ((now + i) mod 6))))
  /\ (forall i, (Z.to_nat n <= i)%nat ->
        Siren.noteFrequencies (siren w') !! i
        = Siren.noteFrequencies (siren w) !! i)
  /\ siren w'
     = Siren.with_noteFrequencies (Siren.noteFrequencies (siren w'))
         (siren w)
  /\ siren_only w w'.
Proof.
  intros n now w' Hn Hfit.
  assert (w' = foldl (melodyStep (Siren.baseFreq (siren w))) w
                 (seqZ 0 (Z.of_nat (Z.to_nat n)))) as Hw'.
  { unfold w'. rewrite generateMelody_steps. fold n.
    rewrite Z2Nat.id by lia. reflexivity. }
  destruct (melody_fold (Siren.baseFreq (siren w)) (Z.to_nat n) w)
    as (_ & Hs & _ & Hin & Hout & Hfr).
  rewrite <- Hw' in Hs, Hin, Hout, Hfr.
  assert (0 <= now) as Hnow by (pose proof (u32_range (clock w)) as Hr;
                                unfold is_u32 in Hr; unfold now; lia).
  split; [|split; [exact Hout | split; [exact Hfr | exact Hs]]].
  intros i Hi. rewrite Hin by lia. rewrite Z2Nat.id by lia.
  fold now. rewrite melodyNote_index by nia. reflexivity.
Qed.

Lemma generateMelody_scale_run_witness :
  let w := bootMachine (fun _ => 0) 1000 in
  0 <= Siren.stepCount (siren w)
    <= Z.of_nat (length (Siren.noteFrequencies (siren w)))
  /\ u32 (clock w) + 37 * Siren.stepCount (siren w) < 2 ^ 32
  /\ Siren.noteFrequencies (siren (exec generateMelody w)) !! Z.to_nat 3
     = Some (F32.mul (Siren.baseFreq (siren w))
               (table_get melodyScale ((u32 (clock w) + 3) mod 6))).
Proof.
  intros w.
  assert (0 <= Siren.stepCount (siren w)
          <= Z.of_nat (length (Siren.noteFrequencies (siren w)))) as H1
    by (simpl; lia).
  assert (u32 (clock w) + 37 * Siren.stepCount (siren w) < 2 ^ 32) as H2
    by (vm_compute; reflexivity).
  split; [exact H1|]. split; [exact H2|].
  apply (proj1 (generateMelody_scale_run w H1 H2)). simpl. lia.
Defined.

(** ** Which mutations a trigger runs *)





Lemma mutateSpeed_pitchStep w :
  Mutate.pitchStep (mutate (exec mutateSpeed w)) = Mutate.pitchStep (mutate w).
Proof.
  unfold mutateSpeed, exec, mbind, M_bind, gets, modify, random, mret, M_ret.
  simpl. destruct (_ =? INST_LEAD_SYNTH); reflexivity.
Qed.



(** ** Waveform mixes of the dub siren *)

(** X21.  The classic mix of the dub siren, 75% triangle and 25% sawtooth,
    is the floor of the weighted mean [(3 tri + saw) / 4] of the two 16-bit
    samples: nothing wraps, and the result lies between the smaller and the
    larger of the two. *)
Theorem classicMix_weighted_mean (saw tri : Z) :
  is_s16 saw -> is_s16 tri ->
  classicMix saw tri = (3 * tri + saw) / 4
  /\ Z.min saw tri <= classicMix saw tri <= Z.max saw tri.
Proof.
  intros Hs Ht. unfold is_s16 in *.
  assert (classicMix saw tri = (3 * tri + saw) / 4) as Hval.
  { unfold classicMix.
    rewrite (s32_id (tri * 3)) by (unfold is_s32; lia).
    rewrite s32_id by (unfold is_s32; lia).
    rewrite Z.shiftr_div_pow2 by lia. change (2 ^ 2) with 4.
    replace (tri * 3 + saw) with (3 * tri + saw) by lia.
    apply s16_id. unfold is_s16. Z.div_mod_to_equations. lia. }
  rewrite Hval. split; [reflexivity|].
  Z.div_mod_to_equations. lia.
Qed.

Lemma classicMix_weighted_mean_witness :
  is_s16 (-16384) /\ is_s16 16383 /\ classicMix (-16384) 16383 = 8191.
Proof.
  assert (is_s16 (-16384)) as H1 by (unfold is_s16; lia).
  assert (is_s16 16383) as H2 by (unfold is_s16; lia).
  split; [exact H1|]. split; [exact H2|].
  rewrite (proj1 (classicMix_weighted_mean (-16384) 16383 H1 H2)).
  reflexivity.
Defined.

(** X22.  The ring modulator returns the floor of
    [carrier * modulator / 32768] for two 16-bit samples, except for the
    product of the two most negative samples: there the value 32768 does not
    fit [int16_t] and comes out as -32768, the sign of the product lost. *)
Theorem ringMod_wraps_at_corner (carrier modulator : Z) :
  is_s16 carrier -> is_s16 modulator ->
  (carrier <> -32768 \/ modulator <> -32768 ->
   ringMod carrier modulator = carrier * modulator / 32768
   /\ -32768 <= ringMod carrier modulator <= 32767)
  /\ ringMod (-32768) (-32768) = -32768.
Proof.
  intros Hc Hm. unfold is_s16 in *. split; [|reflexivity].
  intros Hcorner. unfold ringMod.
  assert (-1073709056 <= carrier * modulator <= 1073741823) as Hprod by nia.
  rewrite s32_id by (unfold is_s32; lia).
  rewrite Z.shiftr_div_pow2 by lia. change (2 ^ 15) with 32768.
  assert (-32768 <= carrier * modulator / 32768 <= 32767) as Hq
    by (Z.div_mod_to_equations; lia).
  rewrite s16_id by (unfold is_s16; exact Hq).
  split; [reflexivity | exact Hq].
Qed.

Lemma ringMod_wraps_at_corner_witness :
  is_s16 (-32768) /\ is_s16 32767 /\ ringMod (-32768) 32767 = -32767.
Proof.
  assert (is_s16 (-32768)) as H1 by (unfold is_s16; lia).
  assert (is_s16 32767) as H2 by (unfold is_s16; lia).
  split; [exact H1|]. split; [exact H2|].
  destruct (proj1 (ringMod_wraps_at_corner (-32768) 32767 H1 H2)
              ltac:(right; lia)) as [Hv _].
  rewrite Hv. reflexivity.
Defined.

(** ** Looped playback *)

Lemma playbackStage_loops r :
  Recorder.playing r = true -> Recorder.loopEnabled r = true ->
  Recorder.recordPosition r = Recorder.recordLength r ->
  playbackStage r
  = ({| Recorder.active := Recorder.active r;
        Recorder.recording := Recorder.recording r;
        Recorder.hasRecording := Recorder.hasRecording r;
        Recorder.buffer := Recorder.buffer r;
        Recorder.recordPosition := 1;
        Recorder.recordLength := Recorder.recordLength r;
        Recorder.playing := true;
        Recorder.loopEnabled := true |},
     sample_get (Recorder.buffer r) 0, true).
Proof.
  intros Hplay Hloop Hpos. unfold playbackStage. rewrite Hplay, Hloop, Hpos.
  rewrite Z.ltb_irrefl. reflexivity.
Qed.

(** X23.  Looped playback repeats the recording without a gap: with loop
    enabled, tick [t] of a playback that stands at position [p] of a
    recording of [n >= 1] samples hands the sample at index
    [(p + t) mod n] of the buffer to the mixer, flagged as playing, for as
    long as the ticks go on. *)
Theorem recorder_loop_is_periodic (ys : list Z) (r : Recorder.t) :
  Recorder.playing r = true -> Recorder.recording r = false ->
  Recorder.loopEnabled r = true ->
  1 <= Recorder.recordLength r <= MAX_RECORD_SAMPLES ->
  0 <= Recorder.recordPosition r <= Recorder.recordLength r ->
  forall t, (t < length ys)%nat ->
    recorderOutputs ys r !! t
    = Some (sample_get (Recorder.buffer r)
              ((Recorder.recordPosition r + Z.of_nat t)
               mod Recorder.recordLength r), true).
Proof.
  revert r. induction ys as [|y ys IH];
    intros r Hplay Hrec Hloop Hlen Hpos t Ht; [cbn in Ht; lia|].
  cbn [recorderOutputs].
  set (n := Recorder.recordLength r) in *.
  set (p := Recorder.recordPosition r) in *.
  assert (exists r1 p1,
            playbackStage r = (r1, sample_get (Recorder.buffer r) (p mod n),
                               true)
            /\ recordStage r1 y = r1
            /\ Recorder.playing r1 = true /\ Recorder.recording r1 = false
            /\ Recorder.loopEnabled r1 = true
            /\ Recorder.recordLength r1 = n
            /\ Recorder.buffer r1 = Recorder.buffer r
            /\ Recorder.recordPosition r1 = p1
            /\ 0 <= p1 <= n
            /\ forall k, (p1 + k) mod n = (p + (k + 1)) mod n)
    as (r1 & p1 & Hstage & Hkeep & Hplay1 & Hrec1 & Hloop1 & Hlen1 & Hbuf1
        & Hpos1 & Hp1 & Hmod).
  { destruct (Z.eq_dec p n) as [Hend | Hin].
    - eexists _, 1.
      split; [rewrite playbackStage_loops by assumption; fold p n;
              rewrite Hend, Z.mod_same by lia; reflexivity|].
      split; [unfold recordStage; cbn [Recorder.recording]; rewrite Hrec;
              reflexivity|].
      split; [reflexivity|]. split; [exact Hrec|].
      split; [reflexivity|]. split; [cbn; lia|].
      split; [reflexivity|]. split; [reflexivity|].
      split; [lia|].
      intros k. rewrite Hend.
      replace (n + (k + 1)) with (1 + k + 1 * n) by lia.
      rewrite Z.mod_add by lia. reflexivity.
    - eexists _, (p + 1).
      split; [rewrite playbackStage_reads by (auto; unfold MAX_RECORD_SAMPLES in *; lia);
              fold p; rewrite Z.mod_small by lia; reflexivity|].
      split; [unfold recordStage; cbn [Recorder.recording]; rewrite Hrec;
              reflexivity|].
      split; [reflexivity|]. split; [exact Hrec|]. split; [exact Hloop|].
      split; [reflexivity|]. split; [reflexivity|]. split; [reflexivity|].
      split; [lia|].
      intros k. f_equal. lia. }
  rewrite Hstage, Hkeep.
  destruct t as [|t].
  - cbn [lookup list_lookup]. rewrite Z.add_0_r. reflexivity.
  - cbn [length] in Ht.
    change ((?x :: ?l) !! S t) with (l !! t).
    rewrite (IH r1) by (rewrite ?Hlen1, ?Hpos1; auto; lia).
    rewrite Hbuf1, Hpos1, Hlen1, Hmod. do 3 f_equal. lia.
Qed.

Lemma recorder_loop_is_periodic_witness :
  let r := {| Recorder.active := true; Recorder.recording := false;
              Recorder.hasRecording := true;
              Recorder.buffer := [11; 22; 33; 0; 0];
              Recorder.recordPosition := 0; Recorder.recordLength := 3;
              Recorder.playing := true; Recorder.loopEnabled := true |} in
  1 <= Recorder.recordLength r <= MAX_RECORD_SAMPLES
  /\ 0 <= Recorder.recordPosition r <= Recorder.recordLength r
  /\ recorderOutputs [0; 0; 0; 0; 0] r !! 4%nat = Some (22, true).
Proof.
  intros r.
  assert (1 <= Recorder.recordLength r <= MAX_RECORD_SAMPLES) as H1
    by (unfold MAX_RECORD_SAMPLES; simpl; lia).
  assert (0 <= Recorder.recordPosition r <= Recorder.recordLength r) as H2
    by (simpl; lia).
  split; [exact H1|]. split; [exact H2|].
  rewrite (recorder_loop_is_periodic [0; 0; 0; 0; 0] r eq_refl eq_refl
             eq_refl H1 H2 4%nat) by (simpl; lia).
  reflexivity.
Defined.

(** ** The bit crusher as a quantiser *)

(** X24.  Below 8 bits the bit crusher is a quantiser that truncates towards
    zero: it is monotone, it moves a sample by less than one step
    [32768 >> bits], and it commutes with negation (for every sample whose
    negation is a 16-bit value). *)
Theorem applyBitCrusher_truncates (x y bits : Z) :
  is_s16 x -> is_s16 y -> 0 <= bits < 8 ->
  (x <= y -> applyBitCrusher x bits <= applyBitCrusher y bits)
  /\ Z.abs (x - applyBitCrusher x bits) < Z.shiftr 32768 bits
  /\ (-32768 < x -> applyBitCrusher (- x) bits = - applyBitCrusher x bits).
Proof.
  intros Hx Hy Hb.
  destruct (crush_step_cases bits Hb) as [Hstep _].
  rewrite (applyBitCrusher_below_8 x), (applyBitCrusher_below_8 y) by auto.
  set (step := Z.shiftr 32768 bits) in *.
  split; [|split].
  - intros Hle. apply Z.mul_le_mono_nonneg_r; [lia|].
    apply Z.quot_le_mono; lia.
  - pose proof (Z.quot_rem' x step) as Hqr.
    pose proof (Z.rem_bound_abs x step ltac:(lia)) as Hr.
    replace (x - Z.quot x step * step) with (Z.rem x step) by lia. lia.
  - intros Hneg.
    rewrite applyBitCrusher_below_8 by (unfold is_s16 in *; auto; lia).
    fold step. rewrite Z.quot_opp_l by lia. ring.
Qed.

Lemma applyBitCrusher_truncates_witness :
  is_s16 (-1000) /\ is_s16 1000
  /\ applyBitCrusher (-1000) 7 <= applyBitCrusher 1000 7
  /\ Z.abs (-1000 - applyBitCrusher (-1000) 7) < 256.
Proof.
  assert (is_s16 (-1000)) as Hx by (unfold is_s16; lia).
  assert (is_s16 1000) as Hy by (unfold is_s16; lia).
  assert (0 <= 7 < 8) as Hb by lia.
  destruct (applyBitCrusher_truncates (-1000) 1000 7 Hx Hy Hb)
    as (Hmono & Herr & _).
  split; [exact Hx|]. split; [exact Hy|].
  split; [apply Hmono; lia | exact Herr].
Defined.

(** ** The voices of the sequencer *)

Lemma land_top_bit ph :
  0 <= ph < 4294967296 ->
  Z.land ph 2147483648 = if ph <? 2147483648 then 0 else 2147483648.
Proof.
  intros H.
  change 2147483648 with (2 ^ 31) at 1.
  assert (Z.land ph (2 ^ 31)
          = if Z.testbit ph 31 then 2 ^ 31 else 0) as ->.
  { apply Z.bits_inj'. intros m Hm.
    rewrite Z.land_spec, Z.pow2_bits_eqb by lia.
    destruct (Z.eqb_spec 31 m) as [<- | Hne].
    - destruct (Z.testbit ph 31);
        rewrite ?Z.pow2_bits_eqb, ?Z.bits_0 by lia; reflexivity.
    - rewrite andb_false_r.
      destruct (Z.testbit ph 31);
        rewrite ?Z.pow2_bits_eqb, ?Z.bits_0 by lia; [|reflexivity].
      symmetry. apply Z.eqb_neq. exact Hne. }
  rewrite Z.testbit_eqb by lia.
  change (2 ^ 31) with 2147483648.
  destruct (Z.ltb_spec ph 2147483648).
  - rewrite Z.div_small by lia. reflexivity.
  - replace (ph / 2147483648) with 1
      by (apply (Z.div_unique ph 2147483648 1 (ph - 2147483648)); lia).
    reflexivity.
Qed.

Lemma generateSquare_half ph :
  0 <= ph < 4294967296 ->
  generateSquare ph = if ph <? 2147483648 then -16384 else 16384.
Proof.
  intros H. unfold generateSquare. rewrite land_top_bit by exact H.
  destruct (ph <? 2147483648); reflexivity.
Qed.

(** X25.  The chord voice of the sequencer has no fifth: the phase of the
    third square, [phase * 3 / 2] on 32 bits, never reaches the upper half of
    the cycle, so this square stays at -16384 and the voice is a staircase of
    the fundamental and its octave around a negative offset: -16384 in the
    first quarter of the cycle, -5461 in the second and third, 5461 in the
    last. *)
Theorem chord_voice_has_no_fifth (q : Sequencer.t)
    (phase noteElapsed noteDuration : Z) :
  is_u32 phase -> Sequencer.soundMode q = SEQ_SOUND_CHORD ->
  generateSquare (u32 (phase * 3) / 2) = -16384
  /\ sequencerWave q phase noteElapsed noteDuration
     = if phase <? 1073741824 then -16384
       else if phase <? 3221225472 then -5461
       else 5461.
Proof.
  intros Hph Hmode. unfold is_u32 in Hph.
  assert (generateSquare (u32 (phase * 3) / 2) = -16384) as Hfifth.
  { pose proof (u32_range (phase * 3)) as Hr. unfold is_u32 in Hr.
    rewrite generateSquare_half by (Z.div_mod_to_equations; lia).
    destruct (Z.ltb_spec (u32 (phase * 3) / 2) 2147483648) as [_ | Hge];
      [reflexivity|].
    exfalso. Z.div_mod_to_equations. lia. }
  split; [exact Hfifth|].
  unfold sequencerWave. rewrite Hmode. cbn [Z.eqb SEQ_SOUND_CHORD
    SEQ_SOUND_SAW SEQ_SOUND_PULSE SEQ_SOUND_FILTERED SEQ_SOUND_PLUCK].
  cbv zeta. rewrite Hfifth.
  rewrite (generateSquare_half phase) by lia.
  rewrite (generateSquare_half (u32 (phase * 2)))
    by (pose proof (u32_range (phase * 2)) as Hr; unfold is_u32 in Hr; lia).
  assert (u32 (phase * 2)
          = if phase <? 2147483648 then phase * 2
            else phase * 2 - 4294967296) as ->.
  { unfold u32. destruct (Z.ltb_spec phase 2147483648).
    - apply Z.mod_small. lia.
    - symmetry. apply (Z.mod_unique _ _ 1). lia. lia. }
  destruct (Z.ltb_spec phase 1073741824), (Z.ltb_spec phase 2147483648),
    (Z.ltb_spec phase 3221225472); try lia;
    match goal with
    | |- context [?a <? 2147483648] =>
        destruct (Z.ltb_spec a 2147483648); try lia
    end; reflexivity.
Qed.

Lemma chord_voice_has_no_fifth_witness :
  is_u32 2500000000
  /\ sequencerWave (sequencerAt SEQ_SOUND_CHORD 0)
       2500000000 0 100 = -5461.
Proof.
  assert (is_u32 2500000000) as H by (unfold is_u32; lia).
  split; [exact H|].
  destruct (chord_voice_has_no_fifth
              (sequencerAt SEQ_SOUND_CHORD 0)
              2500000000 0 100 H eq_refl) as [_ ->].
  reflexivity.
Defined.

(** X26.  The pulse voice of the sequencer keeps a duty cycle of one half at
    every step: the step only shifts the square wave by an eighth of a cycle
    per step, so half a cycle later the voice is negated, and so it is four
    steps later. *)
Theorem pulse_voice_keeps_half_duty (q q' : Sequencer.t)
    (phase noteElapsed noteDuration : Z) :
  is_u32 phase -> Sequencer.soundMode q = SEQ_SOUND_PULSE ->
  Sequencer.soundMode q' = SEQ_SOUND_PULSE ->
  0 <= Sequencer.currentStep q < 4 ->
  Sequencer.currentStep q' = Sequencer.currentStep q + 4 ->
  sequencerWave q (u32 (phase + 2147483648)) noteElapsed noteDuration
  = - sequencerWave q phase noteElapsed noteDuration
  /\ sequencerWave q' phase noteElapsed noteDuration
     = - sequencerWave q phase noteElapsed noteDuration.
Proof.
  intros Hph Hmode Hmode' Hstep Hstep'. unfold is_u32 in Hph.
  unfold sequencerWave. rewrite Hmode, Hmode', Hstep'.
  change (SEQ_SOUND_PULSE =? SEQ_SOUND_SAW) with false.
  change (SEQ_SOUND_PULSE =? SEQ_SOUND_PULSE) with true.
  cbv iota zeta.
  set (k := Sequencer.currentStep q) in *.
  assert (forall a, generateSquare (u32 (a + 2147483648))
                    = - generateSquare (u32 a)) as Hhalf.
  { intros a. pose proof (u32_range a) as Ha. unfold is_u32 in Ha.
    rewrite (generateSquare_half (u32 a)) by lia.
    pose proof (u32_range (a + 2147483648)) as Hb. unfold is_u32 in Hb.
    rewrite (generateSquare_half (u32 (a + 2147483648))) by lia.
    assert (u32 (a + 2147483648)
            = if u32 a <? 2147483648 then u32 a + 2147483648
              else u32 a - 2147483648) as ->.
    { unfold u32 in *. destruct (Z.ltb_spec (a mod 4294967296) 2147483648);
        Z.div_mod_to_equations; lia. }
    destruct (Z.ltb_spec (u32 a) 2147483648);
      match goal with
      | |- context [?b <? 2147483648] =>
          destruct (Z.ltb_spec b 2147483648); try lia
      end; reflexivity. }
  split.
  - rewrite <- Hhalf. f_equal. unfold u32. Z.div_mod_to_equations. lia.
  - rewrite <- Hhalf. f_equal. unfold u32. Z.div_mod_to_equations. lia.
Qed.

Lemma pulse_voice_keeps_half_duty_witness :
  let q := sequencerAt SEQ_SOUND_PULSE 1 in
  let q' := sequencerAt SEQ_SOUND_PULSE 5 in
  is_u32 100 /\ 0 <= Sequencer.currentStep q < 4
  /\ sequencerWave q' 100 0 100 = - sequencerWave q 100 0 100.
Proof.
  intros q q'.
  assert (is_u32 100) as H by (unfold is_u32; lia).
  assert (0 <= Sequencer.currentStep q < 4) as Hs by (simpl; lia).
  split; [exact H|]. split; [exact Hs|].
  exact (proj2 (pulse_voice_keeps_half_duty q q' 100 0 100 H eq_refl eq_refl
                  Hs eq_refl)).
Defined.
